(** * NostrClient (src/class/client.ts): a shallow embedding

    The client exchanges encrypted, correlated request/response messages
    over a set of relays.  This development embeds the configuration
    merge, the publish-receipt aggregation and the client itself (inbound
    dispatch, connect/close, create_event/send/request/ping) as executable
    state-passing functions, and proves the properties stated about them.

    JavaScript objects handed over by the caller live in an explicit store
    of message templates, promises live in a promise store, timers in a
    timer queue ordered by due time, and everything the client does to the
    outside world (notifications, inbox emissions, codec and pool calls)
    is appended to an effect trace in program order.

    An [async] function runs as one step, its awaited calls answered
    within the step; a call it does not await ([send] in [_pong]) goes on
    after the synchronous remainder of its caller.  An exception thrown
    in an [async] function is the rejection of the promise it returns. *)

From stdpp Require Import gmap strings pretty list fin_maps.
From Stdlib Require Import ZArith NArith Lia.

Local Open Scope string_scope.
Local Open Scope list_scope.
Local Open Scope nat_scope.

(** ** Events, templates and messages *)

(** A rejection reason or thrown value: a bare string such as the one of
    [reject('timeout')], or an [Error] object with its message. *)
Inductive js_error :=
  | ErrStr (s : string)
  | ErrObj (msg : string).

#[global] Instance js_error_eq_dec : EqDecision js_error.
Proof. solve_decision. Defined.

Record SignedEvent := {
  ev_id         : string;
  ev_pubkey     : string;
  ev_content    : string;
  ev_sig        : string;
  ev_kind       : Z;
  ev_created_at : Z
}.

#[global] Instance SignedEvent_eq_dec : EqDecision SignedEvent.
Proof. solve_decision. Defined.

(** The two template shapes the client builds: [{ method, id }] and
    [{ result, id }]. *)
Inductive template_body :=
  | TplRequest (method : string)
  | TplResult (result : string).

#[global] Instance template_body_eq_dec : EqDecision template_body.
Proof. solve_decision. Defined.

(** [tpl_id = None] is an absent ([undefined]) id. *)
Record MessageTemplate := {
  tpl_id   : option string;
  tpl_body : template_body
}.

#[global] Instance MessageTemplate_eq_dec : EqDecision MessageTemplate.
Proof. solve_decision. Defined.

(** A decoded message.  [msg_method] is the method of a request; the
    client reads it on messages of type [request] only. *)
Record Message := {
  msg_type   : string;
  msg_id     : string;
  msg_method : string;
  msg_env    : SignedEvent
}.

#[global] Instance Message_eq_dec : EqDecision Message.
Proof. solve_decision. Defined.

(** ** Configuration *)

Record EventFilter := {
  kinds : list Z;
  since : Z
}.

Record PartialFilter := {
  opt_kinds : option (list Z);
  opt_since : option Z
}.

Record ClientConfig := {
  cfg_kind         : Z;
  cfg_filter       : EventFilter;
  cfg_req_timeout  : Z;
  cfg_since_offset : Z;
  cfg_start_delay  : Z
}.

(** [Partial<ClientConfig>]: every field may be absent. *)
Record PartialConfig := {
  opt_kind         : option Z;
  opt_filter       : option PartialFilter;
  opt_req_timeout  : option Z;
  opt_since_offset : option Z;
  opt_start_delay  : option Z
}.

Definition no_filter_options : PartialFilter :=
  {| opt_kinds := None; opt_since := None |}.

Definition no_options : PartialConfig :=
  {| opt_kind := None; opt_filter := None; opt_req_timeout := None;
     opt_since_offset := None; opt_start_delay := None |}.

(** [DEFAULT_CONFIG()]; [now] is the value of the clock call [now()]. *)
Definition DEFAULT_CONFIG (now : Z) : ClientConfig :=
  {| cfg_kind := 24133;
     cfg_filter := {| kinds := [24133%Z]; since := now |};
     cfg_req_timeout := 5000;
     cfg_since_offset := 5;
     cfg_start_delay := 2000 |}.

(** [{ ...base, ...over }] on filters; spreading an absent object adds
    nothing. *)
Definition spread_filter (base : EventFilter) (over : option PartialFilter)
  : EventFilter :=
  let o := default no_filter_options over in
  {| kinds := default (kinds base) (opt_kinds o);
     since := default (since base) (opt_since o) |}.

(** [get_node_config(opt)]: [{ ...config, filter }]. *)
Definition get_node_config (now : Z) (opt : PartialConfig) : ClientConfig :=
  let config := DEFAULT_CONFIG now in
  let filter := spread_filter (cfg_filter config) (opt_filter opt) in
  {| cfg_kind := cfg_kind config;
     cfg_filter := filter;
     cfg_req_timeout := cfg_req_timeout config;
     cfg_since_offset := cfg_since_offset config;
     cfg_start_delay := cfg_start_delay config |}.

(** [get_filter_config(client, filter)], on the client's configuration. *)
Definition get_filter_config (config : ClientConfig)
    (filter : option PartialFilter) : EventFilter :=
  spread_filter (cfg_filter config) filter.

(** The merge as the documentation words it: defaults, each top-level
    field replaced by the caller's override when there is one, and the
    filter merged one level deep. *)
Definition documented_merge (now : Z) (opt : PartialConfig) : ClientConfig :=
  let config := DEFAULT_CONFIG now in
  {| cfg_kind := default (cfg_kind config) (opt_kind opt);
     cfg_filter := spread_filter (cfg_filter config) (opt_filter opt);
     cfg_req_timeout := default (cfg_req_timeout config) (opt_req_timeout opt);
     cfg_since_offset :=
       default (cfg_since_offset config) (opt_since_offset opt);
     cfg_start_delay := default (cfg_start_delay config) (opt_start_delay opt)
  |}.

(** ** Publish receipts *)

(** [PromiseSettledResult<string>]. *)
Inductive settled :=
  | fulfilled (value : string)
  | rejected (reason : string).

Record PublishResponse := {
  acks  : list string;
  fails : list string;
  ok    : bool
}.

(** One turn of the loop of [resolve_receipts]: push onto [acks] or onto
    [fails]. *)
Definition push_receipt (acc : list string * list string) (prom : settled)
  : list string * list string :=
  match prom with
  | fulfilled value => (acc.1 ++ [value], acc.2)
  | rejected reason => (acc.1, acc.2 ++ [reason])
  end.

Definition resolve_receipts (results : list settled) : PublishResponse :=
  let acc := foldl push_receipt ([], []) results in
  {| acks := acc.1; fails := acc.2; ok := bool_decide (0 < length acc.1) |}.

(** The fulfilled attempts' values, and the rejected attempts' reasons, in
    the order of the attempts. *)
Definition fulfilled_value (prom : settled) : option string :=
  match prom with fulfilled value => Some value | rejected _ => None end.

Definition rejected_reason (prom : settled) : option string :=
  match prom with fulfilled _ => None | rejected reason => Some reason end.

(** ** Collaborators

    The envelope codec ([lib/message.js]), the relay pool ([SimplePool])
    and the small helpers are used through their interfaces only.  An
    awaited call that rejects, or a call that throws, returns [inl]. *)

Record EventConfig := {
  ec_kind : Z;
  ec_tags : list (list string)
}.

Class EnvelopeCodec := {
  create_envelope : EventConfig → string → string → js_error + SignedEvent;
  decrypt_envelope : SignedEvent → js_error + string;
  parse_message : string → SignedEvent → js_error + Message
}.

Class RelayPool := {
  (** how the publish attempt of an event on one relay settles *)
  relay_publish : string → SignedEvent → settled
}.

Class Helpers := {
  (** the n-th identifier drawn from [gen_message_id()] *)
  gen_message_id : nat → string;
  parse_error : js_error → string;
  (** [JSON.stringify] on a template and on a filter *)
  stringify : MessageTemplate → string;
  stringify_filter : EventFilter → string;
  (** [verify_relays(relays)] throws the returned error, if any *)
  verify_relays : list string → option js_error
}.

(** ** Promises, timers and the response bus *)

Inductive promise (A : Type) :=
  | Pending
  | Fulfilled (v : A)
  | Rejected (e : js_error).
Arguments Pending {A}.
Arguments Fulfilled {A} v.
Arguments Rejected {A} e.

(** [.then(f)] and [.catch(f)]; a callback that throws returns [inl]. *)
Definition then_ {A B} (f : A → js_error + B) (p : promise A) : promise B :=
  match p with
  | Pending => Pending
  | Fulfilled v =>
      match f v with inl e => Rejected e | inr b => Fulfilled b end
  | Rejected e => Rejected e
  end.

Definition catch_ {A} (f : js_error → js_error + A) (p : promise A)
  : promise A :=
  match p with
  | Pending => Pending
  | Fulfilled v => Fulfilled v
  | Rejected e =>
      match f e with inl e' => Rejected e' | inr a => Fulfilled a end
  end.

(** What a promise of the client settles with: a response message (the
    receipt of [request]) or the client itself ([connect]). *)
Inductive value :=
  | VMessage (m : Message)
  | VClient.

(** The callbacks handed to [setTimeout]: [() => reject('timeout')] of
    [request] on its receipt, and the bus taking a [within]-handler off. *)
Inductive timer_action :=
  | RejectTimeout (receipt : nat)
  | RemoveHandler (hid : nat).

Record timer := {
  tm_id     : nat;
  tm_due    : N;
  tm_action : timer_action
}.

(** A handler on [inbox.response]: the closure
    [(msg) => { clearTimeout(timer); resolve(msg) }] of [request], with
    the timer and the receipt it captured. *)
Record handler := {
  h_id      : nat;
  h_key     : string;
  h_timer   : nat;
  h_receipt : nat
}.

Record SubCloser := {
  sub_relays : list string;
  sub_filter : EventFilter
}.

(** ** Effects *)

(** The channels of the client's own emitter. *)
Inductive notification :=
  | NInfo (label text : string)
  | NEvent (event : SignedEvent)
  | NMessage (message : Message)
  | NError (err : js_error)
  | NBounced (event_id reason : string)
  | NReady
  | NClose.

Inductive effect :=
  | Emit (n : notification)
  | InboxAuthor (key : string) (message : Message)
  | InboxRequest (key : string) (message : Message)
  | InboxResponse (key : string) (message : Message)
  | Within (key : string) (hid : nat) (timeout : Z)
  | CreateEnvelope (config : EventConfig) (payload recipient : string)
  | PoolPublish (relays : list string) (event : SignedEvent)
  | PoolSubscribe (relays : list string) (f : EventFilter)
  | SubClose
  | PoolClose (relays : list string).

(** ** The client and its runtime *)

Record State := {
  _config           : ClientConfig;
  _pubkey           : string;
  _relays           : list string;
  _filter           : EventFilter;
  _ready            : bool;
  _sub              : option SubCloser;
  response_handlers : list handler;
  ready_once        : list nat;
  clock             : N;
  timers            : list timer;
  next_id           : nat;
  promises          : gmap nat (promise value);
  templates         : gmap nat MessageTemplate;
  drawn             : nat;
  trace             : list effect
}.

Definition set_ready (x : bool) (st : State) : State :=
  {| _config := _config st; _pubkey := _pubkey st; _relays := _relays st;
     _filter := _filter st; _ready := x; _sub := _sub st;
     response_handlers := response_handlers st; ready_once := ready_once st;
     clock := clock st; timers := timers st; next_id := next_id st;
     promises := promises st; templates := templates st; drawn := drawn st;
     trace := trace st |}.

Definition set_sub (x : option SubCloser) (st : State) : State :=
  {| _config := _config st; _pubkey := _pubkey st; _relays := _relays st;
     _filter := _filter st; _ready := _ready st; _sub := x;
     response_handlers := response_handlers st; ready_once := ready_once st;
     clock := clock st; timers := timers st; next_id := next_id st;
     promises := promises st; templates := templates st; drawn := drawn st;
     trace := trace st |}.

Definition set_response_handlers (x : list handler) (st : State) : State :=
  {| _config := _config st; _pubkey := _pubkey st; _relays := _relays st;
     _filter := _filter st; _ready := _ready st; _sub := _sub st;
     response_handlers := x; ready_once := ready_once st; clock := clock st;
     timers := timers st; next_id := next_id st; promises := promises st;
     templates := templates st; drawn := drawn st; trace := trace st |}.

Definition set_ready_once (x : list nat) (st : State) : State :=
  {| _config := _config st; _pubkey := _pubkey st; _relays := _relays st;
     _filter := _filter st; _ready := _ready st; _sub := _sub st;
     response_handlers := response_handlers st; ready_once := x;
     clock := clock st; timers := timers st; next_id := next_id st;
     promises := promises st; templates := templates st; drawn := drawn st;
     trace := trace st |}.

Definition set_clock (x : N) (st : State) : State :=
  {| _config := _config st; _pubkey := _pubkey st; _relays := _relays st;
     _filter := _filter st; _ready := _ready st; _sub := _sub st;
     response_handlers := response_handlers st; ready_once := ready_once st;
     clock := x; timers := timers st; next_id := next_id st;
     promises := promises st; templates := templates st; drawn := drawn st;
     trace := trace st |}.

Definition set_timers (x : list timer) (st : State) : State :=
  {| _config := _config st; _pubkey := _pubkey st; _relays := _relays st;
     _filter := _filter st; _ready := _ready st; _sub := _sub st;
     response_handlers := response_handlers st; ready_once := ready_once st;
     clock := clock st; timers := x; next_id := next_id st;
     promises := promises st; templates := templates st; drawn := drawn st;
     trace := trace st |}.

Definition set_next_id (x : nat) (st : State) : State :=
  {| _config := _config st; _pubkey := _pubkey st; _relays := _relays st;
     _filter := _filter st; _ready := _ready st; _sub := _sub st;
     response_handlers := response_handlers st; ready_once := ready_once st;
     clock := clock st; timers := timers st; next_id := x;
     promises := promises st; templates := templates st; drawn := drawn st;
     trace := trace st |}.

Definition set_promises (x : gmap nat (promise value)) (st : State) : State :=
  {| _config := _config st; _pubkey := _pubkey st; _relays := _relays st;
     _filter := _filter st; _ready := _ready st; _sub := _sub st;
     response_handlers := response_handlers st; ready_once := ready_once st;
     clock := clock st; timers := timers st; next_id := next_id st;
     promises := x; templates := templates st; drawn := drawn st;
     trace := trace st |}.

Definition set_templates (x : gmap nat MessageTemplate) (st : State) : State :=
  {| _config := _config st; _pubkey := _pubkey st; _relays := _relays st;
     _filter := _filter st; _ready := _ready st; _sub := _sub st;
     response_handlers := response_handlers st; ready_once := ready_once st;
     clock := clock st; timers := timers st; next_id := next_id st;
     promises := promises st; templates := x; drawn := drawn st;
     trace := trace st |}.

Definition set_drawn (x : nat) (st : State) : State :=
  {| _config := _config st; _pubkey := _pubkey st; _relays := _relays st;
     _filter := _filter st; _ready := _ready st; _sub := _sub st;
     response_handlers := response_handlers st; ready_once := ready_once st;
     clock := clock st; timers := timers st; next_id := next_id st;
     promises := promises st; templates := templates st; drawn := x;
     trace := trace st |}.

Definition set_trace (x : list effect) (st : State) : State :=
  {| _config := _config st; _pubkey := _pubkey st; _relays := _relays st;
     _filter := _filter st; _ready := _ready st; _sub := _sub st;
     response_handlers := response_handlers st; ready_once := ready_once st;
     clock := clock st; timers := timers st; next_id := next_id st;
     promises := promises st; templates := templates st; drawn := drawn st;
     trace := x |}.

Record PublishedEvent := {
  pe_acks  : list string;
  pe_fails : list string;
  pe_ok    : bool;
  pe_event : SignedEvent
}.

Definition log (e : effect) (st : State) : State :=
  set_trace (trace st ++ [e]) st.

(** [resolve] and [reject] of a promise: only a pending promise settles. *)
Definition settle (p : nat) (s : promise value) (st : State) : State :=
  match promises st !! p with
  | Some Pending => set_promises (<[p := s]> (promises st)) st
  | _ => st
  end.

Definition resolve (p : nat) (v : value) : State → State :=
  settle p (Fulfilled v).

Definition reject (p : nat) (e : js_error) : State → State :=
  settle p (Rejected e).

(** [new Promise(...)]: a fresh pending promise. *)
Definition new_promise (st : State) : nat * State :=
  let p := next_id st in
  (p, set_next_id (S p) (set_promises (<[p := Pending]> (promises st)) st)).

(** The timer queue is kept in order of due time; a timer set later comes
    after the timers due at the same time. *)
Fixpoint insert_timer (t : timer) (q : list timer) : list timer :=
  match q with
  | [] => [t]
  | u :: q' =>
      if (tm_due u <=? tm_due t)%N then u :: insert_timer t q'
      else t :: u :: q'
  end.

(** [setTimeout(action, delay)]; a negative delay counts as none. *)
Definition setTimeout (action : timer_action) (delay : Z) (st : State)
  : nat * State :=
  let tid := next_id st in
  let t := {| tm_id := tid; tm_due := (clock st + Z.to_N delay)%N;
              tm_action := action |} in
  (tid, set_next_id (S tid) (set_timers (insert_timer t (timers st)) st)).

Definition clearTimeout (tid : nat) (st : State) : State :=
  set_timers (filter (λ t, tm_id t ≠ tid) (timers st)) st.

Definition remove_handler (hid : nat) (st : State) : State :=
  set_response_handlers
    (filter (λ h, h_id h ≠ hid) (response_handlers st)) st.

(** Modelled from the spec: [EventEmitter.within] of [class/emitter.js],
    on the response bus.  It registers a one-shot handler under [key]
    that the bus takes off again when [timeout] milliseconds have passed
    without it firing. *)
Definition within (key : string) (timer receipt : nat) (timeout : Z)
    (st : State) : State :=
  let hid := next_id st in
  let h := {| h_id := hid; h_key := key; h_timer := timer;
              h_receipt := receipt |} in
  let st1 :=
    set_next_id (S hid)
      (set_response_handlers (response_handlers st ++ [h]) st) in
  let st2 := (setTimeout (RemoveHandler hid) timeout st1).2 in
  log (Within key hid timeout) st2.

(** The body of the handler of [request]. *)
Definition run_handler (msg : Message) (st : State) (h : handler) : State :=
  resolve (h_receipt h) (VMessage msg) (clearTimeout (h_timer h) st).

(** Modelled from the spec: [EventEmitter.emit] of [class/emitter.js], on
    the response bus.  It invokes every handler registered under [key],
    in registration order, then removes the one-shot ones (every handler
    of this bus is one). *)
Definition response_emit (key : string) (msg : Message) (st : State)
  : State :=
  let hs := filter (λ h, h_key h = key) (response_handlers st) in
  let st1 := foldl (run_handler msg) (log (InboxResponse key msg) st) hs in
  set_response_handlers
    (filter (λ h, h_key h ≠ key) (response_handlers st1)) st1.

(** A timer fires. *)
Definition fire (st : State) (t : timer) : State :=
  match tm_action t with
  | RejectTimeout receipt => reject receipt (ErrStr "timeout") st
  | RemoveHandler hid => remove_handler hid st
  end.

(** [dt] milliseconds pass: the timers that are due fire, in queue order,
    and leave the queue. *)
Definition tick (dt : N) (st : State) : State :=
  let now := (clock st + dt)%N in
  let due := filter (λ t, (tm_due t ≤ now)%N) (timers st) in
  let rest := filter (λ t, (now < tm_due t)%N) (timers st) in
  foldl fire (set_clock now (set_timers rest st)) due.

(** JavaScript's [!id]: an absent or empty id is falsy. *)
Definition falsy (id : option string) : bool :=
  match id with
  | None => true
  | Some s => bool_decide (s = "")
  end.

(** ** Calls and continuations

    A call either throws at the call site or returns.  The methods of
    the class are declared [async]: a call of one runs the body as far
    as its first [await] and returns the promise of the function in any
    case, and a [throw] in the body never reaches the caller, it rejects
    that promise.  The rest of the body is a continuation that runs when
    the awaited promise has settled; until then the client goes on with
    whatever comes. *)
Inductive completion (A : Type) : Type :=
  | Throws (err : js_error)
  | Returns (result : A).

Arguments Throws {A} err.
Arguments Returns {A} result.

(** How the body of [request] stands when the call returns: it has
    thrown, or it waits for the promise of [create_event], which settles
    to [created]. *)
Inductive suspension :=
  | Thrown (err : js_error)
  | Awaiting (created : js_error + SignedEvent).

Section Client.
Context {Codec : EnvelopeCodec} {Pool : RelayPool} {Util : Helpers}.

(** The constructor.  [now] is the clock value read by [DEFAULT_CONFIG],
    [time] the runtime's millisecond clock. *)
Definition new_NostrClient (now : Z) (time : N) (pubkey : string)
    (relays : list string) (options : PartialConfig) : js_error + State :=
  match verify_relays relays with
  | Some err => inl err
  | None =>
      let config := get_node_config now options in
      let filter := get_filter_config config (opt_filter options) in
      inr {| _config := config; _pubkey := pubkey; _relays := relays;
             _filter := filter; _ready := false; _sub := None;
             response_handlers := []; ready_once := [];
             clock := time; timers := []; next_id := 0;
             promises := ∅; templates := ∅; drawn := 0;
             trace := [Emit (NInfo "filter:" (stringify_filter filter))] |}
  end.

(** [_publish(event)]: one attempt per relay, all awaited, then
    aggregated. *)
Definition _publish (event : SignedEvent) (st : State)
  : PublishResponse * State :=
  let receipts := map (λ relay, relay_publish relay event) (_relays st) in
  (resolve_receipts receipts, log (PoolPublish (_relays st) event) st).

(** [message.id ??= gen_message_id()] on the template object at [loc]. *)
Definition assign_id (loc : nat) (message : MessageTemplate) (st : State)
  : MessageTemplate * State :=
  match tpl_id message with
  | Some _ => (message, st)
  | None =>
      let message' := {| tpl_id := Some (gen_message_id (drawn st));
                         tpl_body := tpl_body message |} in
      (message',
       set_drawn (S (drawn st))
         (set_templates (<[loc := message']> (templates st)) st))
  end.

(** [create_event(message, recipient)], [message] being the object at
    [loc].  A reference always points to an object; a [loc] that does not
    is answered with an error and no effect. *)
Definition create_event (loc : nat) (recipient : string) (st : State)
  : (js_error + SignedEvent) * State :=
  match templates st !! loc with
  | None => (inl (ErrObj "no such object"), st)
  | Some message =>
      let '(message', st1) := assign_id loc message st in
      let config := {| ec_kind := cfg_kind (_config st1); ec_tags := [] |} in
      let payload := stringify message' in
      (create_envelope config payload recipient,
       log (CreateEnvelope config payload recipient) st1)
  end.

(** [send(message, recipient)]. *)
Definition send (loc : nat) (recipient : string) (st : State)
  : (js_error + PublishedEvent) * State :=
  match create_event loc recipient st with
  | (inl err, st1) => (inl err, st1)
  | (inr event, st1) =>
      let '(res, st2) := _publish event st1 in
      (inr {| pe_acks := acks res; pe_fails := fails res; pe_ok := ok res;
              pe_event := event |}, st2)
  end.

(** The part of [request] after [await this.create_event(...)]: the
    receipt promise with its timer and its handler on the response bus,
    then the publication.  [message.id] is read from the object again;
    it is there, [request] has checked it and [create_event] keeps an id
    that is present ([request_receipt_state] below). *)
Definition request_receipt (loc : nat) (event : SignedEvent) (st : State)
  : nat * State :=
  let timeout := cfg_req_timeout (_config st) in
  let '(receipt, st1) := new_promise st in
  let '(timer, st2) := setTimeout (RejectTimeout receipt) timeout st1 in
  let key := default "" (templates st2 !! loc ≫= tpl_id) in
  let st3 := within key timer receipt timeout st2 in
  (receipt, (_publish event st3).2).

(** [request(message, recipient)], the call together with its
    continuation, run at once with nothing in between ([request_begin]
    and [request_resume] below take the two apart).  The result is
    [inl err] when the returned promise is rejected with [err] without a
    receipt having been made (the [throw] of the first line, or a failed
    [create_event]), and [inr receipt] when the returned promise is the
    receipt. *)
Definition request (loc : nat) (recipient : string) (st : State)
  : (js_error + nat) * State :=
  match templates st !! loc with
  | None => (inl (ErrObj "no such object"), st)
  | Some message =>
      if falsy (tpl_id message)
      then (inl (ErrObj "message id is required"), st)
      else
        match create_event loc recipient st with
        | (inl err, st1) => (inl err, st1)
        | (inr event, st1) =>
            let '(receipt, st2) := request_receipt loc event st1 in
            (inr receipt, st2)
        end
  end.

(** The state of the promise returned by [request], read in [st]. *)
Definition request_future (r : js_error + nat) (st : State)
  : promise value :=
  match r with
  | inl err => Rejected err
  | inr receipt => default Pending (promises st !! receipt)
  end.

(** [res => res.type === 'accept']. *)
Definition is_accept (res : value) : bool :=
  match res with
  | VMessage m => bool_decide (msg_type m = "accept")
  | VClient => false
  end.

(** [ping(recipient)]: a fresh template object [{ method: 'ping', id }]
    goes to [request]; the result is the request's, from which
    [ping_future] derives the promise that [ping] returns. *)
Definition ping (recipient : string) (st : State)
  : (js_error + nat) * State :=
  let msg_id := gen_message_id (drawn st) in
  let loc := next_id st in
  let template := {| tpl_id := Some msg_id; tpl_body := TplRequest "ping" |} in
  let st1 :=
    set_next_id (S loc)
      (set_templates (<[loc := template]> (templates st))
         (set_drawn (S (drawn st)) st)) in
  request loc recipient st1.

(** [.then(res => res.type === 'accept').catch(_ => false)] on the
    promise of the request. *)
Definition ping_future (r : js_error + nat) (st : State) : promise bool :=
  catch_ (λ _, inr false)
    (then_ (λ res, inr (is_accept res)) (request_future r st)).

(** A call of [request] as far as [await this.create_event(...)].  The
    [throw] of the first line ends the body; otherwise [create_event]
    has run up to its return and the body waits for its promise. *)
Definition request_begin (loc : nat) (recipient : string) (st : State)
  : suspension * State :=
  match templates st !! loc with
  | None => (Thrown (ErrObj "no such object"), st)
  | Some message =>
      if falsy (tpl_id message)
      then (Thrown (ErrObj "message id is required"), st)
      else
        let '(created, st1) := create_event loc recipient st in
        (Awaiting created, st1)
  end.

(** What the caller of [request] has in hand when the call returns: the
    promise of the function, already rejected if the body has thrown and
    pending if it waits. *)
Definition request_call (loc : nat) (recipient : string) (st : State)
  : completion (promise value) * State :=
  match request_begin loc recipient st with
  | (Thrown err, st1) => (Returns (Rejected err), st1)
  | (Awaiting _, st1) => (Returns Pending, st1)
  end.

(** The continuation of [request], run in the state [st] that the client
    is in when the awaited promise has settled.  A rejected
    [create_event] rejects the promise of [request]; otherwise the
    receipt is made, under [message.id] as it is then, and the event is
    published. *)
Definition request_resume (loc : nat) (created : js_error + SignedEvent)
    (st : State) : (js_error + nat) * State :=
  match created with
  | inl err => (inl err, st)
  | inr event =>
      let '(receipt, st1) := request_receipt loc event st in
      (inr receipt, st1)
  end.

(** A call of [ping]: the template is made and [request] is called on
    it, which runs as far as its [await].  The continuation is that of
    [request] on the template, whose location is returned with the
    suspension. *)
Definition ping_begin (recipient : string) (st : State)
  : nat * suspension * State :=
  let msg_id := gen_message_id (drawn st) in
  let loc := next_id st in
  let template := {| tpl_id := Some msg_id; tpl_body := TplRequest "ping" |} in
  let st1 :=
    set_next_id (S loc)
      (set_templates (<[loc := template]> (templates st))
         (set_drawn (S (drawn st)) st)) in
  let '(body, st2) := request_begin loc recipient st1 in
  (loc, body, st2).

(** [_pong(message)]: the reply template is a fresh object, and [send]
    runs up to its [await]; the result is what [create_event] returned,
    for [send] to go on with. *)
Definition _pong (message : Message) (st : State)
  : js_error + (js_error + SignedEvent) * State :=
  if bool_decide (msg_method message = "ping") then
    let loc := next_id st in
    let template :=
      {| tpl_id := Some (msg_id message); tpl_body := TplResult "pong" |} in
    let st1 :=
      set_next_id (S loc)
        (set_templates (<[loc := template]> (templates st)) st) in
    inr (create_event loc (ev_pubkey (msg_env message)) st1)
  else inl (ErrObj "invalid ping message").

(** What is left of a [send] after its [await]. *)
Definition send_resume (created : js_error + SignedEvent) (st : State)
  : State :=
  match created with
  | inl _ => st
  | inr event => (_publish event st).2
  end.

(** The [catch] branch of [_handler]. *)
Definition bounce (event : SignedEvent) (err : js_error) (st : State)
  : State :=
  log (Emit (NBounced (ev_id event) (parse_error err)))
    (log (Emit (NError err)) st).

(** The routing of a decoded message ([try] block of [_handler], after
    parsing): the result carries the [send] that [_pong] left pending. *)
Definition route (message : Message) (st : State)
  : js_error + (option (js_error + SignedEvent)) * State :=
  let type := msg_type message in
  if bool_decide (type = "request") then
    if bool_decide (msg_method message = "ping") then
      match _pong message st with
      | inl err => inl err
      | inr (created, st1) => inr (Some created, st1)
      end
    else
      inr (None, log (InboxRequest (msg_method message) message) st)
  else if bool_decide (type = "accept" ∨ type = "reject") then
    inr (None, response_emit (msg_id message) message st)
  else inr (None, st).

(** [_handler(event)].  A throw inside the [try] block lands in the
    [catch] branch; the [send] started by [_pong] is not awaited and goes
    on once the handler is through. *)
Definition _handler (event : SignedEvent) (st : State) : State :=
  if bool_decide (ev_pubkey event = _pubkey st) then st
  else
    let st1 := log (Emit (NEvent event)) st in
    match decrypt_envelope event with
    | inl err => bounce event err st1
    | inr payload =>
        match parse_message payload event with
        | inl err => bounce event err st1
        | inr message =>
            match route message st1 with
            | inl err => bounce event err st1
            | inr (pending, st2) =>
                let st3 :=
                  log (InboxAuthor (ev_pubkey (msg_env message)) message)
                    st2 in
                let st4 := log (Emit (NMessage message)) st3 in
                match pending with
                | Some created => send_resume created st4
                | None => st4
                end
            end
        end
    end.

(** Modelled from the spec: [EventEmitter.emit] of [class/emitter.js], on
    the [ready] channel of the client.  It invokes the listeners that
    [connect] left with [once], in registration order, each resolving its
    promise with the client, and removes them. *)
Definition ready_emit (st : State) : State :=
  let st1 := log (Emit NReady) st in
  let st2 := foldl (λ s p, resolve p VClient s) st1 (ready_once st1) in
  set_ready_once [] st2.

(** Modelled from the spec: [EventEmitter.once] of [class/emitter.js], on
    the [ready] channel of the client, for the listener
    [() => resolve(this)] of the promise [p]. *)
Definition once_ready (p : nat) (st : State) : State :=
  set_ready_once (ready_once st ++ [p]) st.

(** [_init()]. *)
Definition _init (st : State) : State :=
  ready_emit (set_ready true st).

Definition _subscribe (st : State) : State :=
  let handle := {| sub_relays := _relays st; sub_filter := _filter st |} in
  set_sub (Some handle) (log (PoolSubscribe (_relays st) (_filter st)) st).

(** [connect(timeout)].  The first line assigns the local variable
    [timeout], which nothing reads afterwards. *)
Definition connect (timeout : option Z) (st : State) : nat * State :=
  let timeout := default (cfg_req_timeout (_config st)) timeout in
  let st1 := _subscribe st in
  let '(p, st2) := new_promise st1 in
  (p, once_ready p st2).

(** [close()], with a pool that has a [close] method, as [SimplePool]
    does. *)
Definition close (st : State) : State :=
  let st1 := match _sub st with
             | Some _ => log SubClose st
             | None => st
             end in
  let st2 := log (PoolClose (_relays st1)) st1 in
  log (Emit NClose) (set_ready false st2).

(** ** Runs

    What can happen to a client, one step at a time: time passes, the
    pool delivers an event or signals the end of stored events, the
    application emits on the public response inbox, creates a template
    object, or calls one of the public operations. *)
Inductive action :=
  | ATick (dt : N)
  | AInbound (event : SignedEvent)
  | AEose
  | AEmitResponse (key : string) (msg : Message)
  | ANewTemplate (template : MessageTemplate)
  | AConnect (timeout : option Z)
  | AClose
  | ASend (loc : nat) (recipient : string)
  | ARequest (loc : nat) (recipient : string)
  | APing (recipient : string).

Definition new_template (template : MessageTemplate) (st : State) : State :=
  set_next_id (S (next_id st))
    (set_templates (<[next_id st := template]> (templates st)) st).

Definition step (st : State) (a : action) : State :=
  match a with
  | ATick dt => tick dt st
  | AInbound event => _handler event st
  | AEose => _init st
  | AEmitResponse key msg => response_emit key msg st
  | ANewTemplate template => new_template template st
  | AConnect timeout => (connect timeout st).2
  | AClose => close st
  | ASend loc recipient => (send loc recipient st).2
  | ARequest loc recipient => (request loc recipient st).2
  | APing recipient => (ping recipient st).2
  end.

Definition run (acts : list action) (st : State) : State :=
  foldl step st acts.

(** What a run added to the trace of the state it started from. *)
Definition emitted_since (st st' : State) : list effect :=
  drop (length (trace st)) (trace st').

(** ** Well-formed states

    Identifiers are drawn from [next_id]; the handlers, the timers and
    the [ready] listeners of a state refer to identifiers already drawn. *)
Definition handler_wf (n : nat) (h : handler) : Prop :=
  h_timer h < n ∧ h_receipt h < n.

Definition timer_wf (n : nat) (t : timer) : Prop :=
  tm_id t < n ∧ ∀ q, tm_action t = RejectTimeout q → q < n.

Definition wf (st : State) : Prop :=
  Forall (handler_wf (next_id st)) (response_handlers st) ∧
  Forall (timer_wf (next_id st)) (timers st) ∧
  Forall (λ q, q < next_id st) (ready_once st).

(** The receipt that a timer rejects when it fires, if it is one of
    [request]'s. *)
Definition rejects (t : timer) : option nat :=
  match tm_action t with
  | RejectTimeout receipt => Some receipt
  | RemoveHandler _ => None
  end.

(** A step that leaves the bus, the timers, the listeners, the promises
    and the clock alone. *)
Definition quiet (st st' : State) : Prop :=
  next_id st ≤ next_id st' ∧ clock st' = clock st ∧
  (∃ l, trace st' = trace st ++ l) ∧ _config st' = _config st ∧
  response_handlers st' = response_handlers st ∧ timers st' = timers st ∧
  ready_once st' = ready_once st ∧ promises st' = promises st.

(** ** How a state evolves

    [evolves st st'] bounds what any number of steps from [st] to [st']
    can have done: handlers, timers and listeners of [st'] are those of
    [st] or refer to identifiers drawn since; a timer of [st] is still
    there, or has fired, or was cleared by a handler on an emission under
    the handler's key; and a promise of [st] is as it was, or was pending
    and has been settled in one of three ways. *)
Definition fired (t : timer) (st' : State) : Prop :=
  (tm_due t ≤ clock st')%N ∧
  ∀ q, tm_action t = RejectTimeout q → promises st' !! q ≠ Some Pending.

Definition cleared (t : timer) (st st' : State) : Prop :=
  ∃ h m, h ∈ response_handlers st ∧ h_timer h = tm_id t ∧
         InboxResponse (h_key h) m ∈ emitted_since st st'.

Definition by_response (p : nat) (st st' : State) : Prop :=
  ∃ h m, h ∈ response_handlers st ∧ h_receipt h = p ∧
         InboxResponse (h_key h) m ∈ emitted_since st st' ∧
         promises st' !! p = Some (Fulfilled (VMessage m)).

Definition by_timeout (p : nat) (st st' : State) : Prop :=
  (∃ t, t ∈ timers st ∧ tm_action t = RejectTimeout p ∧
        (tm_due t ≤ clock st')%N) ∧
  promises st' !! p = Some (Rejected (ErrStr "timeout")).

Definition by_ready (p : nat) (st st' : State) : Prop :=
  p ∈ ready_once st ∧ Emit NReady ∈ emitted_since st st' ∧
  promises st' !! p = Some (Fulfilled VClient).

Record evolves (st st' : State) : Prop := {
  ev_wf : wf st';
  ev_next : (next_id st ≤ next_id st')%nat;
  ev_clock : (clock st ≤ clock st')%N;
  ev_trace : ∃ l, trace st' = trace st ++ l;
  ev_config : _config st' = _config st;
  ev_handlers : ∀ h, h ∈ response_handlers st' →
    h ∈ response_handlers st ∨
    ((next_id st ≤ h_timer h)%nat ∧ (next_id st ≤ h_receipt h)%nat);
  ev_timers : ∀ t, t ∈ timers st' →
    t ∈ timers st ∨
    ((next_id st ≤ tm_id t)%nat ∧
     ∀ q, tm_action t = RejectTimeout q → (next_id st ≤ q)%nat);
  ev_ready_once : ∀ q, q ∈ ready_once st' →
    q ∈ ready_once st ∨ (next_id st ≤ q)%nat;
  ev_keep : ∀ t, t ∈ timers st →
    t ∈ timers st' ∨ fired t st' ∨ cleared t st st';
  ev_keep_ready : ∀ q, q ∈ ready_once st →
    q ∈ ready_once st' ∨ promises st' !! q ≠ Some Pending;
  ev_settle : ∀ p, p < next_id st →
    promises st' !! p = promises st !! p ∨
    (promises st !! p = Some Pending ∧
     (by_response p st st' ∨ by_timeout p st st' ∨ by_ready p st st'))
}.

End Client.

(** ** Descriptions used in the statements *)
Section Views.
Context {Codec : EnvelopeCodec} {Pool : RelayPool} {Util : Helpers}.

(** The trace a keepalive request leaves: the reply is enveloped for the
    sender at once, and published when the envelope is there. *)
Definition pong_effects (message : Message) (st : State) : list effect :=
  let reply :=
    {| tpl_id := Some (msg_id message); tpl_body := TplResult "pong" |} in
  let config := {| ec_kind := cfg_kind (_config st); ec_tags := [] |} in
  let sender := ev_pubkey (msg_env message) in
  [CreateEnvelope config (stringify reply) sender;
   InboxAuthor sender message; Emit (NMessage message)]
  ++ match create_envelope config (stringify reply) sender with
     | inr reply_event => [PoolPublish (_relays st) reply_event]
     | inl _ => []
     end.

(** The id a template has once [create_event] has seen it. *)
Definition assigned_id (message : MessageTemplate) (st : State) : string :=
  match tpl_id message with
  | Some id => id
  | None => gen_message_id (drawn st)
  end.

End Views.

(** ** Tidy states and armed receipts

    In a tidy state the handlers and the timers that take handlers off
    also refer to identifiers already drawn. *)
Definition tidy (st : State) : Prop :=
  wf st ∧
  Forall (λ h, h_id h < next_id st) (response_handlers st) ∧
  Forall (λ t, ∀ hid, tm_action t = RemoveHandler hid → hid < next_id st)
    (timers st).

(** [tends st st'] bounds what steps from [st] to [st'] do to handlers:
    a timer of [st'] that takes a handler off is one of [st] or is for a
    handler made since; a handler of [st] is still there, or a timer of
    [st] for it has come due, or there was an emission under its key. *)
Record tends (st st' : State) : Prop := {
  td_tidy : tidy st';
  td_timers : ∀ t, t ∈ timers st' →
    t ∈ timers st ∨ ∀ hid, tm_action t = RemoveHandler hid → next_id st ≤ hid;
  td_keep : ∀ h, h ∈ response_handlers st →
    h ∈ response_handlers st' ∨
    (∃ t, t ∈ timers st ∧ tm_action t = RemoveHandler (h_id h) ∧
          (tm_due t ≤ clock st')%N) ∨
    (∃ m, InboxResponse (h_key h) m ∈ emitted_since st st')
}.

Definition grows (st st' : State) : Prop := evolves st st' ∧ tends st st'.

(** The receipt [p] is armed: it is pending, its handler is on the bus
    under [key], its deadline [due] is ahead, and nothing else can settle
    it or take its handler off before [due]. *)
Definition armed (key : string) (p hid tid : nat) (due : N) (st : State)
  : Prop :=
  promises st !! p = Some Pending ∧
  {| h_id := hid; h_key := key; h_timer := tid; h_receipt := p |}
  ∈ response_handlers st ∧
  (clock st < due)%N ∧
  (∀ t, t ∈ timers st → rejects t = Some p → (due ≤ tm_due t)%N) ∧
  (∀ t, t ∈ timers st → tm_action t = RemoveHandler hid →
        (due ≤ tm_due t)%N) ∧
  (p ∉ ready_once st) ∧
  (∀ h, h ∈ response_handlers st → h_receipt h = p → h_key h = key).

Section Deliveries.
Context {Codec : EnvelopeCodec} {Pool : RelayPool} {Util : Helpers}.

(** The step [a] delivers the response [m] under [key] in [st]: the
    application emits it on the response inbox, or the pool hands over an
    event of another author that decodes to it. *)
Definition delivers (a : action) (key : string) (m : Message) (st : State)
  : Prop :=
  a = AEmitResponse key m ∨
  ∃ event payload,
    a = AInbound event ∧ ev_pubkey event ≠ _pubkey st ∧
    decrypt_envelope event = inr payload ∧
    parse_message payload event = inr m ∧
    (msg_type m = "accept" ∨ msg_type m = "reject") ∧ msg_id m = key.

End Deliveries.

(** ** What a client addresses

    The fields that the class declares [readonly], and the filter, which
    it assigns in the constructor only, are what every call to the pool,
    to the codec and to the response bus is made with.  [addressed st e]
    says that the effect [e] is one that the client of [st] makes with
    its own relays, filter, event kind and request timeout. *)
Definition addressed (st : State) (e : effect) : Prop :=
  match e with
  | PoolPublish relays _ => relays = _relays st
  | PoolSubscribe relays f => relays = _relays st ∧ f = _filter st
  | PoolClose relays => relays = _relays st
  | CreateEnvelope config _ _ =>
      config = {| ec_kind := cfg_kind (_config st); ec_tags := [] |}
  | Within _ _ timeout => timeout = cfg_req_timeout (_config st)
  | _ => True
  end.

(** The ready flag and the subscription handle as the effects [l] leave
    them: the flag is set before [ready] is emitted and cleared before
    [close] is, and the handle is the one of the last subscription. *)
Definition ready_by (l : list effect) (ready : bool) : bool :=
  foldl (λ b e, match e with
                | Emit NReady => true
                | Emit NClose => false
                | _ => b
                end) ready l.

Definition sub_by (l : list effect) (sub : option SubCloser)
  : option SubCloser :=
  foldl (λ s e, match e with
                | PoolSubscribe relays f =>
                    Some {| sub_relays := relays; sub_filter := f |}
                | _ => s
                end) sub l.

(** The effects that leave both as they are. *)
Definition plain (e : effect) : Prop :=
  match e with
  | Emit NReady | Emit NClose | PoolSubscribe _ _ => False
  | _ => True
  end.

(** [steady st st']: from [st] to [st'] the identity of the client has
    not changed, what was emitted is addressed as above, and the ready
    flag and the subscription handle have followed it. *)
Definition steady (st st' : State) : Prop :=
  _config st' = _config st ∧ _pubkey st' = _pubkey st ∧
  _relays st' = _relays st ∧ _filter st' = _filter st ∧
  ∃ l, trace st' = trace st ++ l ∧ Forall (addressed st) l ∧
       _ready st' = ready_by l (_ready st) ∧ _sub st' = sub_by l (_sub st).

(** ** Template objects that keep their id

    [keeps st st']: from [st] to [st'] no identifier was given back, and
    every template object of [st] that had an id is as it was. *)
Definition keeps (st st' : State) : Prop :=
  next_id st ≤ next_id st' ∧
  ∀ loc message,
    loc < next_id st → templates st !! loc = Some message →
    is_Some (tpl_id message) → templates st' !! loc = Some message.

(** ** A concrete setting

    A codec, a pool and helpers to run the client on: the codec carries
    the payload in the clear, the relay [r2] refuses every event, and
    message ids are drawn as [m0], [m1], ... *)
Module Scenario.

Definition self : string := "self".
Definition peer : string := "peer".

Definition envelope (payload recipient : string) : SignedEvent :=
  {| ev_id := "ev:" +:+ payload; ev_pubkey := self; ev_content := payload;
     ev_sig := "sig"; ev_kind := 24133; ev_created_at := 0 |}.

(** An event as a peer would send it. *)
Definition from_peer (id payload : string) : SignedEvent :=
  {| ev_id := id; ev_pubkey := peer; ev_content := payload;
     ev_sig := "sig"; ev_kind := 24133; ev_created_at := 0 |}.

Definition decode (payload : string) (event : SignedEvent)
  : js_error + Message :=
  let mk type id method :=
    inr {| msg_type := type; msg_id := id; msg_method := method;
           msg_env := event |} in
  if bool_decide (payload = "ping p1") then mk "request" "p1" "ping"
  else if bool_decide (payload = "sign s1") then mk "request" "s1" "sign"
  else if bool_decide (payload = "accept abc") then mk "accept" "abc" ""
  else if bool_decide (payload = "reject abc") then mk "reject" "abc" ""
  else inl (ErrObj "invalid payload").

#[export] Instance codec : EnvelopeCodec := {|
  create_envelope config payload recipient :=
    if bool_decide (recipient = "") then inl (ErrObj "no recipient")
    else inr (envelope payload recipient);
  decrypt_envelope event :=
    if bool_decide (ev_content event = "") then inl (ErrStr "cannot decrypt")
    else inr (ev_content event);
  parse_message := decode
|}.

#[export] Instance pool : RelayPool := {|
  relay_publish relay event :=
    if bool_decide (relay = "r2") then rejected "refused"
    else fulfilled relay
|}.

Definition show_id (id : option string) : string :=
  match id with Some s => s | None => "undefined" end.

#[export] Instance helpers : Helpers := {|
  gen_message_id n := "m" +:+ pretty n;
  parse_error err := match err with ErrStr s => s | ErrObj msg => msg end;
  stringify message :=
    match tpl_body message with
    | TplRequest method => method +:+ " " +:+ show_id (tpl_id message)
    | TplResult result => result +:+ " " +:+ show_id (tpl_id message)
    end;
  stringify_filter f := "filter";
  verify_relays relays :=
    match relays with
    | [] => Some (ErrObj "invalid relay list")
    | _ => None
    end
|}.

(** A client on relays [r1] and [r2], as constructed at time 0. *)
Definition client0 : State :=
  match new_NostrClient 1700000000 0 self ["r1"; "r2"] no_options with
  | inr st => st
  | inl _ =>
      {| _config := DEFAULT_CONFIG 0; _pubkey := self; _relays := [];
         _filter := cfg_filter (DEFAULT_CONFIG 0); _ready := false;
         _sub := None; response_handlers := []; ready_once := [];
         clock := 0; timers := []; next_id := 0; promises := ∅;
         templates := ∅; drawn := 0; trace := [] |}
  end.

(** The client with one request template [{ method: 'sign', id: 'abc' }]
    made by the application, at location 0. *)
Definition abc_template : MessageTemplate :=
  {| tpl_id := Some "abc"; tpl_body := TplRequest "sign" |}.

Definition client1 : State := new_template abc_template client0.

(** The request for [abc], as [request] leaves it on [client1]. *)
Definition abc_requested : State := (request 0 peer client1).2.

(** A template without an id, at location 0. *)
Definition anonymous_template : MessageTemplate :=
  {| tpl_id := None; tpl_body := TplRequest "sign" |}.

Definition client2 : State := new_template anonymous_template client0.

(** [client1] after [connect(100)]. *)
Definition connected : State := (connect (Some 100%Z) client1).2.

(** A keepalive request and an undecipherable event from the peer. *)
Definition ping_event : SignedEvent := from_peer "e1" "ping p1".
Definition ping_message : Message :=
  {| msg_type := "request"; msg_id := "p1"; msg_method := "ping";
     msg_env := ping_event |}.
Definition broken_event : SignedEvent := from_peer "e2" "".

(** An accepting response to [abc] and a signing request from the peer,
    with the messages they decode to. *)
Definition accept_event : SignedEvent := from_peer "e3" "accept abc".
Definition accept_message : Message :=
  {| msg_type := "accept"; msg_id := "abc"; msg_method := "";
     msg_env := accept_event |}.
Definition sign_event : SignedEvent := from_peer "e4" "sign s1".
Definition sign_message : Message :=
  {| msg_type := "request"; msg_id := "s1"; msg_method := "sign";
     msg_env := sign_event |}.


(** A response to the first ping of [client0], accepting it. *)
Definition pong_message : Message :=
  {| msg_type := "accept"; msg_id := "m0"; msg_method := "";
     msg_env := from_peer "e5" "pong" |}.

(** The request for [abc] taken apart: the state when the call returns,
    the event it waits for, a rejecting response emitted under [abc]
    while it waits, and the state when the continuation has run. *)
Definition abc_event : SignedEvent := envelope "sign abc" peer.
Definition abc_begun : State := (request_begin 0 peer client1).2.
Definition early_message : Message :=
  {| msg_type := "reject"; msg_id := "abc"; msg_method := "";
     msg_env := from_peer "e6" "reject abc" |}.
Definition abc_window : list action := [AEmitResponse "abc" early_message].
Definition abc_resumed : State :=
  (request_resume 0 (inr abc_event) (run abc_window abc_begun)).2.

(** The first ping of [client0] taken apart in the same way: its
    template is at location 0 and its id is [m0]. *)
Definition ping_event0 : SignedEvent := envelope "ping m0" peer.
Definition ping_begun : State := (ping_begin peer client0).2.
Definition ping_window : list action := [AEmitResponse "m0" pong_message].
Definition ping_resumed : State :=
  (request_resume 0 (inr ping_event0) (run ping_window ping_begun)).2.

End Scenario.

(** * Properties *)

(** ** Configuration merge *)

(** The filter is merged one level deep: an overridden filter field
    replaces the default one, a missing one keeps it. *)
Lemma get_node_config_filter (now : Z) (opt : PartialConfig) :
  cfg_filter (get_node_config now opt)
  = spread_filter (cfg_filter (DEFAULT_CONFIG now)) (opt_filter opt).
Proof. reflexivity. Qed.

Lemma spread_filter_kinds base over ks :
  opt_kinds over = Some ks → kinds (spread_filter base (Some over)) = ks.
Proof. intros Hk. unfold spread_filter. simpl. by rewrite Hk. Qed.

Lemma spread_filter_absent base : spread_filter base None = base.
Proof. by destruct base. Qed.

(** The top-level fields of the result are the defaults, whatever the
    options say. *)
Lemma get_node_config_top_level (now : Z) (opt : PartialConfig) :
  cfg_kind (get_node_config now opt) = 24133%Z ∧
  cfg_req_timeout (get_node_config now opt) = 5000%Z ∧
  cfg_since_offset (get_node_config now opt) = 5%Z ∧
  cfg_start_delay (get_node_config now opt) = 2000%Z.
Proof. by repeat split. Qed.

(** Both merges agree on options that override the filter at most. *)
Lemma get_node_config_documented (now : Z) (opt : PartialConfig) :
  opt_kind opt = None → opt_req_timeout opt = None →
  opt_since_offset opt = None → opt_start_delay opt = None →
  get_node_config now opt = documented_merge now opt.
Proof.
  intros Hk Hr Hs Hd. unfold get_node_config, documented_merge.
  by rewrite Hk, Hr, Hs, Hd.
Qed.

(** C3: a construction with the override [{ req_timeout: 100 }] yields a
    configuration whose request timeout is still the default 5000, where
    the documented per-field merge yields 100: [get_node_config] merges
    the filter only and drops every other override. *)
Theorem get_node_config_drops_override :
  let opt :=
    {| opt_kind := None; opt_filter := None; opt_req_timeout := Some 100%Z;
       opt_since_offset := None; opt_start_delay := None |} in
  cfg_req_timeout (get_node_config 0 opt) = 5000%Z ∧
  cfg_req_timeout (documented_merge 0 opt) = 100%Z ∧
  get_node_config 0 opt ≠ documented_merge 0 opt.
Proof. repeat split. intros Heq. discriminate Heq. Qed.

(** ** Publish receipts *)

Lemma foldl_push_receipt (results : list settled) acc :
  foldl push_receipt acc results
  = (acc.1 ++ omap fulfilled_value results,
     acc.2 ++ omap rejected_reason results).
Proof.
  revert acc. induction results as [|prom results IH]; intros [a f]; simpl.
  - by rewrite !app_nil_r.
  - rewrite IH. destruct prom as [value|reason]; simpl.
    + by rewrite <- app_assoc.
    + by rewrite <- app_assoc.
Qed.

Lemma omap_settled_length (results : list settled) :
  length (omap fulfilled_value results)
  + length (omap rejected_reason results) = length results.
Proof.
  induction results as [|[value|reason] results IH]; cbn in *; lia.
Qed.

(** C4: for every list of settled attempts, [resolve_receipts] returns the
    fulfilled attempts' values in order as [acks], the rejected attempts'
    reasons in order as [fails], and [ok] is true exactly when [acks] is
    not empty, that is when some attempt was fulfilled; each attempt is in
    one of the two lists, and a result is returned whatever the share of
    failures. *)
Theorem resolve_receipts_partition (results : list settled) :
  let res := resolve_receipts results in
  acks res = omap fulfilled_value results ∧
  fails res = omap rejected_reason results ∧
  ok res = bool_decide (0 < length (acks res)) ∧
  (ok res = true ↔ ∃ value, fulfilled value ∈ results) ∧
  length (acks res) + length (fails res) = length results.
Proof.
  unfold resolve_receipts. rewrite foldl_push_receipt. simpl.
  split_and!; try done.
  - rewrite bool_decide_eq_true. split.
    + destruct (omap fulfilled_value results) as [|value l] eqn:Hl;
        simpl; [lia|intros _].
      assert (Hin : value ∈ omap fulfilled_value results)
        by (rewrite Hl; left).
      apply list_elem_of_omap in Hin as (prom & Hprom & Hv).
      destruct prom; simplify_eq/=. eauto.
    + intros [value Hin].
      assert (Hv : value ∈ omap fulfilled_value results).
      { apply list_elem_of_omap. by exists (fulfilled value). }
      destruct (omap fulfilled_value results); simpl; [|lia].
      by apply elem_of_nil in Hv.
  - apply omap_settled_length.
Qed.

(** ** The effect trace *)

Lemma emitted_since_app (st st' : State) (l : list effect) :
  trace st' = trace st ++ l → emitted_since st st' = l.
Proof. intros Htr. unfold emitted_since. rewrite Htr. apply drop_app_length. Qed.

Section Dispatch.
Context {Codec : EnvelopeCodec} {Pool : RelayPool} {Util : Helpers}.

(** A self-authored event is dropped before anything is emitted. *)
Lemma handler_own_event (event : SignedEvent) (st : State) :
  ev_pubkey event = _pubkey st → _handler event st = st.
Proof. intros Hown. unfold _handler. by rewrite bool_decide_eq_true_2. Qed.

Lemma bounce_trace (event : SignedEvent) (err : js_error) (st : State) :
  bounce event err (log (Emit (NEvent event)) st)
  = set_trace
      (trace st ++ [Emit (NEvent event); Emit (NError err);
                    Emit (NBounced (ev_id event) (parse_error err))]) st.
Proof. unfold bounce, log, set_trace. simpl. by rewrite <- !app_assoc. Qed.

(** C7: an inbound event of another author whose decryption or parsing
    fails with [err] leaves the client as it was but for the trace, which
    gains the raw [event] notification, one [error] notification with
    [err] and one [bounced] notification with the event id and the
    normalized error; nothing goes to an inbox and no [message]
    notification is made, and the handler returns. *)
Theorem handler_bounces (event : SignedEvent) (err : js_error) (st : State) :
  ev_pubkey event ≠ _pubkey st →
  (decrypt_envelope event = inl err ∨
   ∃ payload, decrypt_envelope event = inr payload ∧
              parse_message payload event = inl err) →
  let bounced :=
    [Emit (NEvent event); Emit (NError err);
     Emit (NBounced (ev_id event) (parse_error err))] in
  _handler event st = set_trace (trace st ++ bounced) st ∧
  emitted_since st (_handler event st) = bounced ∧
  (∀ key m, (InboxAuthor key m ∉ bounced) ∧ (InboxRequest key m ∉ bounced) ∧
            (InboxResponse key m ∉ bounced) ∧ (Emit (NMessage m) ∉ bounced)).
Proof.
  intros Hother Hfail bounced.
  assert (Hrun : _handler event st = set_trace (trace st ++ bounced) st).
  { unfold _handler. rewrite bool_decide_eq_false_2 by done.
    destruct Hfail as [Hd|(payload & Hd & Hp)].
    - rewrite Hd. apply bounce_trace.
    - rewrite Hd, Hp. apply bounce_trace. }
  split; [done|]. split.
  - apply emitted_since_app. by rewrite Hrun.
  - intros key m. unfold bounced.
    split_and!; intros Hin; repeat (apply elem_of_cons in Hin as [Hin|Hin];
      [discriminate Hin|]); by apply elem_of_nil in Hin.
Qed.

(** C9: an inbound request of another author with the method [ping] and
    the id [X] makes the client serialize the reply template
    [{ result: 'pong', id: X }], envelope it for the sender of the message
    and publish the envelope to the relays; the request goes to the author
    inbox and the [message] notification, and nothing is emitted on the
    request inbox. *)
Theorem handler_answers_ping (event : SignedEvent) (payload : string)
    (message : Message) (st : State) :
  ev_pubkey event ≠ _pubkey st →
  decrypt_envelope event = inr payload →
  parse_message payload event = inr message →
  msg_type message = "request" →
  msg_method message = "ping" →
  emitted_since st (_handler event st)
  = Emit (NEvent event) :: pong_effects message st ∧
  (∀ key m, InboxRequest key m ∉ emitted_since st (_handler event st)).
Proof.
  intros Hother Hd Hp Htype Hmethod.
  assert (Htr : trace (_handler event st)
                = trace st ++ Emit (NEvent event) :: pong_effects message st).
  { unfold _handler. rewrite bool_decide_eq_false_2 by done.
    rewrite Hd, Hp. unfold route, _pong.
    rewrite (bool_decide_eq_true_2 _ Htype).
    rewrite !(bool_decide_eq_true_2 _ Hmethod).
    unfold create_event. simpl. rewrite lookup_insert_eq. simpl.
    unfold pong_effects.
    destruct (create_envelope _ _ _) as [e|reply_event]; simpl;
      by rewrite <- !app_assoc. }
  apply emitted_since_app in Htr. rewrite Htr. split; [done|].
  intros key m Hin. apply elem_of_cons in Hin as [Hin|Hin]; [discriminate|].
  unfold pong_effects in Hin. apply elem_of_app in Hin as [Hin|Hin].
  - repeat (apply elem_of_cons in Hin as [Hin|Hin]; [discriminate Hin|]).
    by apply elem_of_nil in Hin.
  - destruct (create_envelope _ _ _).
    + by apply elem_of_nil in Hin.
    + apply elem_of_cons in Hin as [Hin|Hin]; [discriminate|].
      by apply elem_of_nil in Hin.
Qed.

End Dispatch.

Section Outbound.
Context {Codec : EnvelopeCodec} {Pool : RelayPool} {Util : Helpers}.

Lemma emitted_since_refl (st : State) : emitted_since st st = [].
Proof. apply emitted_since_app. by rewrite app_nil_r. Qed.

(** [_publish] aggregates the outcomes of the attempts on the relays, in
    the order of the relay list, and never fails. *)
Lemma publish_aggregates (event : SignedEvent) (st : State) :
  let res := (_publish event st).1 in
  acks res
  = omap (λ relay, fulfilled_value (relay_publish relay event)) (_relays st) ∧
  fails res
  = omap (λ relay, rejected_reason (relay_publish relay event)) (_relays st) ∧
  emitted_since st (_publish event st).2 = [PoolPublish (_relays st) event].
Proof.
  unfold _publish, resolve_receipts. rewrite foldl_push_receipt. simpl.
  split_and!.
  - induction (_relays st) as [|relay relays IH]; cbn; [done|].
    destruct (relay_publish relay event); cbn; by rewrite <- IH.
  - induction (_relays st) as [|relay relays IH]; cbn; [done|].
    destruct (relay_publish relay event); cbn; by rewrite <- IH.
  - by apply emitted_since_app.
Qed.

(** C10: [create_event] on the template object at [loc] leaves that
    object with an id: the one it had, the object then being unchanged,
    or else the identifier drawn from [gen_message_id]; no other object
    changes; and the payload handed to the codec is the serialization of
    the object as it is afterwards, so the id on the wire is the id the
    caller reads on the template. *)
Theorem create_event_assigns_id (loc : nat) (recipient : string)
    (message : MessageTemplate) (st : State) :
  templates st !! loc = Some message →
  let message' :=
    {| tpl_id := Some (assigned_id message st);
       tpl_body := tpl_body message |} in
  let config := {| ec_kind := cfg_kind (_config st); ec_tags := [] |} in
  let st' := (create_event loc recipient st).2 in
  templates st' !! loc = Some message' ∧
  (∀ loc', loc' ≠ loc → templates st' !! loc' = templates st !! loc') ∧
  (∀ id, tpl_id message = Some id →
         message' = message ∧ templates st' = templates st) ∧
  (tpl_id message = None →
   tpl_id message' = Some (gen_message_id (drawn st))) ∧
  (create_event loc recipient st).1
  = create_envelope config (stringify message') recipient ∧
  emitted_since st st'
  = [CreateEnvelope config (stringify message') recipient].
Proof.
  intros Hloc. unfold create_event, assign_id, assigned_id. rewrite Hloc.
  destruct message as [[id|] body]; simpl.
  - split_and!; try done. by apply emitted_since_app.
  - split_and!; try done; try (by apply emitted_since_app).
    + apply lookup_insert_eq.
    + intros loc' Hne. by apply lookup_insert_ne.
Qed.

(** C5, as the code has it: a call of [request] on a template whose id
    is absent or empty does not throw.  [request] is [async]: the call
    returns its promise, and the [throw] of the first line has rejected
    that promise with the error [message id is required] when the call
    returns.  The state, its trace included, is untouched: no envelope
    is created, nothing is registered or published, no timer is set; and
    the promise is rejected with an [Error] and not with the string
    [timeout], whatever happens later. *)
Theorem request_requires_id (loc : nat) (recipient : string)
    (message : MessageTemplate) (st : State) :
  templates st !! loc = Some message →
  falsy (tpl_id message) = true →
  request_call loc recipient st
  = (Returns (Rejected (ErrObj "message id is required")), st) ∧
  request loc recipient st = (inl (ErrObj "message id is required"), st) ∧
  emitted_since st (request loc recipient st).2 = [] ∧
  (∀ st', request_future (request loc recipient st).1 st'
          = Rejected (ErrObj "message id is required")) ∧
  ErrObj "message id is required" ≠ ErrStr "timeout".
Proof.
  intros Hloc Hfalsy. unfold request_call, request_begin, request.
  rewrite Hloc, Hfalsy. simpl.
  split_and!; try done. apply emitted_since_refl.
Qed.

(** A template with a usable id is left as it is by [create_event]. *)
Lemma create_event_with_id (loc : nat) (recipient : string)
    (message : MessageTemplate) (id : string) (st : State) :
  templates st !! loc = Some message → tpl_id message = Some id →
  let config := {| ec_kind := cfg_kind (_config st); ec_tags := [] |} in
  create_event loc recipient st
  = (create_envelope config (stringify message) recipient,
     log (CreateEnvelope config (stringify message) recipient) st).
Proof.
  intros Hloc Hid. unfold create_event, assign_id. by rewrite Hloc, Hid.
Qed.

(** What [request_receipt] leaves behind, field by field. *)
Lemma request_receipt_state (loc : nat) (event : SignedEvent)
    (message : MessageTemplate) (id : string) (st : State) :
  templates st !! loc = Some message → tpl_id message = Some id →
  let n := next_id st in
  let timeout := cfg_req_timeout (_config st) in
  let due := (clock st + Z.to_N timeout)%N in
  let st' := (request_receipt loc event st).2 in
  (request_receipt loc event st).1 = n ∧
  trace st' = trace st ++ [Within id (S (S n)) timeout;
                           PoolPublish (_relays st) event] ∧
  response_handlers st'
  = response_handlers st
    ++ [{| h_id := S (S n); h_key := id; h_timer := S n; h_receipt := n |}] ∧
  timers st'
  = insert_timer
      {| tm_id := S (S (S n)); tm_due := due;
         tm_action := RemoveHandler (S (S n)) |}
      (insert_timer
         {| tm_id := S n; tm_due := due; tm_action := RejectTimeout n |}
         (timers st)) ∧
  promises st' = <[n := Pending]> (promises st) ∧
  next_id st' = S (S (S (S n))) ∧
  clock st' = clock st ∧ _config st' = _config st ∧
  templates st' = templates st ∧ ready_once st' = ready_once st.
Proof.
  intros Hloc Hid. unfold request_receipt. simpl. rewrite Hloc. simpl.
  rewrite Hid. simpl. split_and!; try done.
  by rewrite <- app_assoc.
Qed.

Lemma falsy_false (id : string) : id ≠ "" → falsy (Some id) = false.
Proof. intros Hid. simpl. by apply bool_decide_eq_false_2. Qed.

(** [request] when the id is usable and the codec delivers the event. *)
Lemma request_success (loc : nat) (recipient : string)
    (message : MessageTemplate) (id : string) (event : SignedEvent)
    (st : State) :
  templates st !! loc = Some message → tpl_id message = Some id → id ≠ "" →
  let config := {| ec_kind := cfg_kind (_config st); ec_tags := [] |} in
  let created := CreateEnvelope config (stringify message) recipient in
  create_envelope config (stringify message) recipient = inr event →
  request loc recipient st
  = (inr (next_id st), (request_receipt loc event (log created st)).2).
Proof.
  intros Hloc Hid Hne config created Hcreate. unfold request.
  rewrite Hloc, Hid, (falsy_false _ Hne).
  rewrite (create_event_with_id _ _ _ _ _ Hloc Hid). fold config.
  by rewrite Hcreate.
Qed.

(** [request] when the codec fails: the error is passed on, and only the
    call to the codec has happened. *)
Lemma request_create_failed (loc : nat) (recipient : string)
    (message : MessageTemplate) (id : string) (err : js_error) (st : State) :
  templates st !! loc = Some message → tpl_id message = Some id → id ≠ "" →
  let config := {| ec_kind := cfg_kind (_config st); ec_tags := [] |} in
  let created := CreateEnvelope config (stringify message) recipient in
  create_envelope config (stringify message) recipient = inl err →
  request loc recipient st = (inl err, log created st).
Proof.
  intros Hloc Hid Hne config created Hcreate. unfold request.
  rewrite Hloc, Hid, (falsy_false _ Hne).
  rewrite (create_event_with_id _ _ _ _ _ Hloc Hid). fold config.
  by rewrite Hcreate.
Qed.

(** C2: in [request] on a template with the id [id], every publication is
    preceded in the trace by the registration, under the key [id], of a
    handler that is on the response bus when [request] is through; and
    when the id is usable and the codec delivers the event, [request]
    does exactly three things in this order: it has the envelope created,
    registers the handler of its receipt under [id] with the configured
    timeout, and publishes the event. *)
Theorem request_registers_before_publish (loc : nat) (recipient : string)
    (message : MessageTemplate) (id : string) (st : State) :
  templates st !! loc = Some message → tpl_id message = Some id →
  let config := {| ec_kind := cfg_kind (_config st); ec_tags := [] |} in
  let created := CreateEnvelope config (stringify message) recipient in
  let st' := (request loc recipient st).2 in
  let out := emitted_since st st' in
  (∀ i relays event, out !! i = Some (PoolPublish relays event) →
     ∃ j hid timeout h,
       j < i ∧ out !! j = Some (Within id hid timeout) ∧
       h ∈ response_handlers st' ∧ h_id h = hid ∧ h_key h = id) ∧
  (id ≠ "" → ∀ event,
     create_envelope config (stringify message) recipient = inr event →
     ∃ receipt timer hid,
       (request loc recipient st).1 = inr receipt ∧
       out = [created; Within id hid (cfg_req_timeout (_config st));
              PoolPublish (_relays st) event] ∧
       {| h_id := hid; h_key := id; h_timer := timer; h_receipt := receipt |}
       ∈ response_handlers st').
Proof.
  intros Hloc Hid config created st' out. subst config created.
  set (config := {| ec_kind := cfg_kind (_config st); ec_tags := [] |}).
  set (created := CreateEnvelope config (stringify message) recipient).
  assert (Hok : id ≠ "" → ∀ event,
    create_envelope config (stringify message) recipient = inr event →
    (request loc recipient st).1 = inr (next_id st) ∧
    out = [created; Within id (S (S (next_id st)))
                      (cfg_req_timeout (_config st));
           PoolPublish (_relays st) event] ∧
    {| h_id := S (S (next_id st)); h_key := id; h_timer := S (next_id st);
       h_receipt := next_id st |} ∈ response_handlers st').
  { intros Hne event Hcreate. unfold out, st'.
    rewrite (request_success _ _ _ _ _ _ Hloc Hid Hne Hcreate).
    cbn [fst snd]. fold config. fold created.
    pose proof (request_receipt_state loc event message id
                  (log created st) Hloc Hid)
      as (_ & Htr & Hhs & _).
    split; [done|]. split.
    - apply emitted_since_app. rewrite Htr. simpl. by rewrite <- app_assoc.
    - rewrite Hhs. apply elem_of_app. right. left. }
  split.
  - intros i relays event Hi.
    destruct (decide (id = "")) as [->|Hne].
    { exfalso. unfold out, st', request in Hi. rewrite Hloc, Hid in Hi.
      simpl in Hi. rewrite emitted_since_refl in Hi. done. }
    destruct (create_envelope config (stringify message) recipient)
      as [err|event'] eqn:Hcreate.
    { exfalso. unfold out, st' in Hi.
      rewrite (request_create_failed _ _ _ _ _ _ Hloc Hid Hne Hcreate) in Hi.
      simpl in Hi. rewrite (emitted_since_app _ _ [created]) in Hi by done.
      by destruct i as [|[|i]]. }
    destruct (Hok Hne event' eq_refl) as (_ & Hout & Hin).
    rewrite Hout in Hi. destruct i as [|[|[|i]]]; try done.
    exists 1, (S (S (next_id st))), (cfg_req_timeout (_config st)).
    eexists. split; [lia|]. split; [by rewrite Hout|]. by split.
  - intros Hne event Hcreate.
    destruct (Hok Hne event Hcreate) as (Hr & Hout & Hin). eauto 10.
Qed.

End Outbound.

(** ** Evolution of states *)

Section Evolution.

Lemma elem_of_emitted (e : effect) (st st' : State) (l : list effect) :
  trace st' = trace st ++ l → e ∈ emitted_since st st' ↔ e ∈ l.
Proof. intros Htr. by rewrite (emitted_since_app _ _ _ Htr). Qed.

Lemma evolves_refl (st : State) : wf st → evolves st st.
Proof.
  intros Hwf. split; try done; try lia; eauto.
  exists []. by rewrite app_nil_r.
Qed.

Lemma evolves_trans (st st' st'' : State) :
  wf st → evolves st st' → evolves st' st'' → evolves st st''.
Proof.
  intros (Hwh & Hwt & Hwr) [W1 N1 C1 [l1 T1] F1 H1 M1 R1 K1 Q1 S1]
    [W2 N2 C2 [l2 T2] F2 H2 M2 R2 K2 Q2 S2].
  assert (T : trace st'' = trace st ++ l1 ++ l2)
    by (by rewrite T2, T1, <- app_assoc).
  assert (Hleft : ∀ e, e ∈ emitted_since st st' → e ∈ emitted_since st st'').
  { intros e. rewrite (elem_of_emitted _ _ _ _ T1), (elem_of_emitted _ _ _ _ T).
    set_solver. }
  assert (Hright : ∀ e, e ∈ emitted_since st' st'' →
                        e ∈ emitted_since st st'').
  { intros e. rewrite (elem_of_emitted _ _ _ _ T2), (elem_of_emitted _ _ _ _ T).
    set_solver. }
  split.
  - done.
  - lia.
  - lia.
  - eauto.
  - congruence.
  - intros h Hh. destruct (H2 h Hh) as [Hin|[? ?]]; [auto|right; lia].
  - intros t Ht. destruct (M2 t Ht) as [Hin|[? Hq]]; [auto|].
    right. split; [lia|]. intros q Hact. specialize (Hq q Hact). lia.
  - intros q Hq. destruct (R2 q Hq) as [Hin|?]; [auto|right; lia].
  - intros t Ht.
    pose proof (proj1 (Forall_forall _ _) Hwt t Ht) as [Hid Hact].
    destruct (K1 t Ht) as [Hin|[[Hdue Hset]|(h & m & Hh & Htm & Hem)]].
    + destruct (K2 t Hin) as [Hin2|[[Hdue Hset]|(h & m & Hh & Htm & Hem)]].
      * by left.
      * right. left. by split.
      * right. right. destruct (H1 h Hh) as [Hold|[Hfresh _]]; [|lia].
        exists h, m. auto.
    + right. left. split; [lia|]. intros q Hq.
      destruct (S2 q) as [Hsame|[Hpend _]].
      * specialize (Hact q Hq). lia.
      * rewrite Hsame. by apply Hset.
      * by destruct (Hset q Hq).
    + right. right. exists h, m. auto.
  - intros q Hq.
    pose proof (proj1 (Forall_forall _ _) Hwr q Hq) as Hlt. simpl in Hlt.
    destruct (Q1 q Hq) as [Hin|Hset]; [by apply Q2|].
    right. destruct (S2 q) as [Hsame|[Hpend _]]; [lia|congruence|done].
  - intros p Hp.
    destruct (S1 p Hp) as [Hsame|[Hpend Hby]];
      (destruct (S2 p) as [Hsame2|[Hpend2 Hby2]]; [lia| |]).
    + left. congruence.
    + right. split; [congruence|].
      destruct Hby2 as [(h & m & Hh & Hrec & Hem & Hres)
                       |[((t & Ht & Hact & Hdue) & Hres)
                        |(Hro & Hem & Hres)]].
      * left. destruct (H1 h Hh) as [Hold|[_ Hfresh]]; [|lia].
        exists h, m. auto.
      * right. left. split; [|done].
        destruct (M1 t Ht) as [Hold|[_ Hfresh]].
        -- exists t. auto.
        -- specialize (Hfresh p Hact). lia.
      * right. right. destruct (R1 p Hro) as [Hold|Hfresh]; [|lia].
        split_and!; auto.
    + right. split; [done|].
      destruct Hby as [(h & m & Hh & Hrec & Hem & Hres)
                      |[((t & Ht & Hact & Hdue) & Hres)
                       |(Hro & Hem & Hres)]].
      * left. exists h, m. split_and!; auto. congruence.
      * right. left. split; [|congruence]. exists t. split_and!; auto. lia.
      * right. right. split_and!; auto. congruence.
    + exfalso.
      destruct Hby as [(h & m & Hh & Hrec & Hem & Hres)
                      |[((t & Ht & Hact & Hdue) & Hres)
                       |(Hro & Hem & Hres)]]; congruence.
Qed.

Lemma wf_mono (st st' : State) :
  wf st → next_id st ≤ next_id st' →
  response_handlers st' = response_handlers st → timers st' = timers st →
  ready_once st' = ready_once st → wf st'.
Proof.
  intros (Hh & Ht & Hr) Hn Hhs Hts Hrs. unfold wf.
  rewrite Hhs, Hts, Hrs. split_and!.
  - eapply Forall_impl; [exact Hh|]. intros h [??]. split; lia.
  - eapply Forall_impl; [exact Ht|]. intros t [? Hq]. split; [lia|].
    intros q Hact. specialize (Hq q Hact). lia.
  - eapply Forall_impl; [exact Hr|]. simpl. lia.
Qed.

(** A step that touches neither the bus, nor the timers, the listeners
    or the promises. *)
Lemma evolves_quiet (st st' : State) (l : list effect) :
  wf st → next_id st ≤ next_id st' → clock st' = clock st →
  trace st' = trace st ++ l → _config st' = _config st →
  response_handlers st' = response_handlers st → timers st' = timers st →
  ready_once st' = ready_once st → promises st' = promises st →
  evolves st st'.
Proof.
  intros Hwf Hn Hc Ht Hf Hh Htm Hr Hp. split; try done.
  - by apply (wf_mono st).
  - lia.
  - eauto.
  - rewrite Hh. auto.
  - rewrite Htm. auto.
  - rewrite Hr. auto.
  - rewrite Htm. auto.
  - rewrite Hr. auto.
  - rewrite Hp. auto.
Qed.

(** *** Settling folds *)

Lemma settle_other (q : nat) (s : promise value) (st : State) (p : nat) :
  p ≠ q → promises (settle q s st) !! p = promises st !! p.
Proof.
  intros Hne. unfold settle.
  destruct (promises st !! q) as [[| |]|]; try done.
  simpl. by rewrite lookup_insert_ne.
Qed.

Lemma settle_pending (p : nat) (s : promise value) (st : State) :
  promises st !! p = Some Pending → promises (settle p s st) !! p = Some s.
Proof.
  intros Hp. unfold settle. rewrite Hp. simpl. apply lookup_insert_eq.
Qed.

Lemma settle_settled (q : nat) (s : promise value) (st : State) (p : nat) :
  promises st !! p ≠ Some Pending →
  promises (settle q s st) !! p = promises st !! p.
Proof.
  intros Hp. destruct (decide (p = q)) as [->|Hne]; [|by apply settle_other].
  unfold settle. by destruct (promises st !! q) as [[| |]|] eqn:E.
Qed.

Lemma settle_frame (q : nat) (s : promise value) (st : State) :
  next_id (settle q s st) = next_id st ∧ clock (settle q s st) = clock st ∧
  trace (settle q s st) = trace st ∧ _config (settle q s st) = _config st ∧
  response_handlers (settle q s st) = response_handlers st ∧
  timers (settle q s st) = timers st ∧
  ready_once (settle q s st) = ready_once st.
Proof. unfold settle. by destruct (promises st !! q) as [[| |]|]. Qed.

Section SettlingFold.
Context {X : Type} (F : State → X → State) (target : X → option nat).
Context (s : promise value).
Hypothesis s_settled : s ≠ Pending.
Hypothesis F_other : ∀ st x p,
  target x ≠ Some p → promises (F st x) !! p = promises st !! p.
Hypothesis F_settled : ∀ st x p,
  promises st !! p ≠ Some Pending → promises (F st x) !! p = promises st !! p.
Hypothesis F_pending : ∀ st x p,
  target x = Some p → promises st !! p = Some Pending →
  promises (F st x) !! p = Some s.

Lemma foldl_settled (l : list X) (st : State) (p : nat) :
  promises st !! p ≠ Some Pending →
  promises (foldl F st l) !! p = promises st !! p.
Proof.
  revert st. induction l as [|x l IH]; intros st Hp; simpl; [done|].
  rewrite IH; rewrite F_settled; auto.
Qed.

Lemma foldl_untargeted (l : list X) (st : State) (p : nat) :
  Some p ∉ target <$> l →
  promises (foldl F st l) !! p = promises st !! p.
Proof.
  revert st. induction l as [|x l IH]; intros st Hp; simpl; [done|].
  rewrite fmap_cons, not_elem_of_cons in Hp. destruct Hp as [Hx Hl].
  rewrite IH by done. apply F_other. congruence.
Qed.

Lemma foldl_targeted (l : list X) (st : State) (p : nat) :
  Some p ∈ target <$> l → promises st !! p = Some Pending →
  promises (foldl F st l) !! p = Some s.
Proof.
  revert st. induction l as [|x l IH]; intros st Hin Hp; simpl.
  - by apply elem_of_nil in Hin.
  - destruct (decide (target x = Some p)) as [Hx|Hx].
    + rewrite foldl_settled; rewrite (F_pending _ _ _ Hx Hp); congruence.
    + rewrite fmap_cons, elem_of_cons in Hin.
      destruct Hin as [Hin|Hin]; [congruence|].
      apply IH; [done|]. by rewrite F_other.
Qed.

(** After the fold, a targeted promise is not pending any more. *)
Lemma foldl_not_pending (l : list X) (st : State) (p : nat) :
  Some p ∈ target <$> l → promises (foldl F st l) !! p ≠ Some Pending.
Proof.
  intros Hin.
  destruct (promises st !! p) as [[| |]|] eqn:Hp;
    [rewrite foldl_targeted by done; congruence
    |rewrite foldl_settled; congruence..].
Qed.
End SettlingFold.

Lemma wf_subset (st st' : State) :
  wf st → next_id st ≤ next_id st' →
  (∀ h, h ∈ response_handlers st' → h ∈ response_handlers st) →
  (∀ t, t ∈ timers st' → t ∈ timers st) →
  (∀ q, q ∈ ready_once st' → q ∈ ready_once st) → wf st'.
Proof.
  intros (Hh & Ht & Hr) Hn Hhs Hts Hrs.
  rewrite Forall_forall in Hh. rewrite Forall_forall in Ht.
  rewrite Forall_forall in Hr. unfold wf. rewrite !Forall_forall.
  split_and!.
  - intros h Hin. destruct (Hh h (Hhs h Hin)). split; lia.
  - intros t Hin. destruct (Ht t (Hts t Hin)) as [? Hq]. split; [lia|].
    intros q Hact. specialize (Hq q Hact). lia.
  - intros q Hin. specialize (Hr q (Hrs q Hin)). simpl in Hr. lia.
Qed.

(** *** An emission on the response bus *)

Lemma run_handlers_frame (msg : Message) (hs : list handler) (st : State) :
  let st' := foldl (run_handler msg) st hs in
  next_id st' = next_id st ∧ clock st' = clock st ∧ trace st' = trace st ∧
  _config st' = _config st ∧ response_handlers st' = response_handlers st ∧
  ready_once st' = ready_once st ∧
  (∀ t, t ∈ timers st' ↔ t ∈ timers st ∧ tm_id t ∉ h_timer <$> hs).
Proof.
  revert st. induction hs as [|h hs IH]; intros st; simpl.
  - split_and!; try done. intros t. split; [|tauto].
    intros Hin. split; [done|]. apply not_elem_of_nil.
  - destruct (IH (run_handler msg st h)) as (-> & -> & -> & -> & -> & -> & Ht).
    unfold run_handler, resolve.
    destruct (settle_frame (h_receipt h) (Fulfilled (VMessage msg))
                (clearTimeout (h_timer h) st))
      as (-> & -> & -> & -> & -> & Htm & ->).
    split_and!; try done. intros t. rewrite Ht.
    unfold run_handler, resolve. rewrite Htm. simpl.
    rewrite list_elem_of_filter, not_elem_of_cons. tauto.
Qed.

Lemma run_handler_other (msg : Message) (st : State) (h : handler) (p : nat) :
  h_receipt h ≠ p → promises (run_handler msg st h) !! p = promises st !! p.
Proof.
  intros Hne. unfold run_handler, resolve. by rewrite settle_other.
Qed.

Lemma run_handler_settled (msg : Message) (st : State) (h : handler)
    (p : nat) :
  promises st !! p ≠ Some Pending →
  promises (run_handler msg st h) !! p = promises st !! p.
Proof.
  intros Hp. unfold run_handler, resolve. by rewrite settle_settled.
Qed.

Lemma run_handler_pending (msg : Message) (st : State) (h : handler) :
  promises st !! h_receipt h = Some Pending →
  promises (run_handler msg st h) !! h_receipt h
  = Some (Fulfilled (VMessage msg)).
Proof.
  intros Hp. unfold run_handler, resolve. by rewrite settle_pending.
Qed.

Lemma run_handlers_settled (msg : Message) (hs : list handler) (st : State)
    (p : nat) :
  promises st !! p ≠ Some Pending ∨ p ∉ h_receipt <$> hs →
  promises (foldl (run_handler msg) st hs) !! p = promises st !! p.
Proof.
  intros [Hp|Hp].
  - apply foldl_settled; [|done]. intros s x q. apply run_handler_settled.
  - apply (foldl_untargeted _ (λ h, Some (h_receipt h))).
    + intros s x q Hne. apply run_handler_other. congruence.
    + intros Hin. apply Hp. apply list_elem_of_fmap in Hin as (h & [= ->] & Hh).
      apply list_elem_of_fmap. eauto.
Qed.

Lemma run_handlers_pending (msg : Message) (hs : list handler) (st : State)
    (p : nat) :
  promises st !! p = Some Pending → p ∈ h_receipt <$> hs →
  promises (foldl (run_handler msg) st hs) !! p
  = Some (Fulfilled (VMessage msg)).
Proof.
  intros Hp Hin.
  apply (foldl_targeted _ (λ h, Some (h_receipt h))); try done.
  - intros s x q Hne. apply run_handler_other. congruence.
  - intros s x q. apply run_handler_settled.
  - intros s x q [= <-] Hq. by apply run_handler_pending.
  - apply list_elem_of_fmap in Hin as (h & -> & Hh).
    apply list_elem_of_fmap. eauto.
Qed.

Lemma response_emit_trace (key : string) (msg : Message) (st : State) :
  trace (response_emit key msg st) = trace st ++ [InboxResponse key msg].
Proof.
  unfold response_emit. simpl.
  by destruct (run_handlers_frame msg
    (filter (λ h, h_key h = key) (response_handlers st))
    (log (InboxResponse key msg) st)) as (_ & _ & -> & _).
Qed.

Lemma evolves_response_emit (key : string) (msg : Message) (st : State) :
  wf st → evolves st (response_emit key msg st).
Proof.
  intros Hwf.
  pose proof (response_emit_trace key msg st) as Htr.
  assert (Hem : ∀ e, e ∈ emitted_since st (response_emit key msg st)
                     ↔ e = InboxResponse key msg).
  { intros e. rewrite (elem_of_emitted _ _ _ _ Htr). apply list_elem_of_singleton. }
  unfold response_emit in *.
  set (hs := filter (λ h, h_key h = key) (response_handlers st)) in *.
  set (st0 := log (InboxResponse key msg) st) in *.
  destruct (run_handlers_frame msg hs st0)
    as (Hn & Hc & _ & Hcf & Hhs & Hro & Htm).
  assert (Hin_hs : ∀ h, h ∈ hs ↔ h_key h = key ∧ h ∈ response_handlers st)
    by (intros h; unfold hs; by rewrite list_elem_of_filter).
  set (stf := foldl (run_handler msg) st0 hs) in *.
  assert (Hsub_h : ∀ h,
    h ∈ filter (λ h, h_key h ≠ key) (response_handlers stf) →
    h ∈ response_handlers st).
  { intros h. rewrite list_elem_of_filter, Hhs. simpl. tauto. }
  assert (Hsub_t : ∀ t, t ∈ timers stf → t ∈ timers st).
  { intros t. rewrite Htm. simpl. tauto. }
  split; simpl.
  - apply (wf_subset st); simpl; try done.
    + rewrite Hn. simpl. lia.
    + intros q. by rewrite Hro.
  - rewrite Hn. simpl. lia.
  - rewrite Hc. simpl. lia.
  - eauto.
  - by rewrite Hcf.
  - auto.
  - auto.
  - intros q. rewrite Hro. simpl. auto.
  - intros t Ht. destruct (decide (tm_id t ∈ h_timer <$> hs)) as [Hin|Hnin].
    + right. right. apply list_elem_of_fmap in Hin as (h & Heq & Hh).
      apply Hin_hs in Hh as [Hk Hh]. exists h, msg.
      split_and!; [done|done|]. apply Hem. by rewrite Hk.
    + left. apply Htm. by split.
  - intros q. rewrite Hro. simpl. auto.
  - intros p Hp. destruct (decide (p ∈ h_receipt <$> hs)) as [Hin|Hnin].
    + destruct (promises st !! p) as [[| |]|] eqn:Hpp.
      * right. split; [done|]. left.
        pose proof (run_handlers_pending msg hs st0 p Hpp Hin) as Hres.
        apply list_elem_of_fmap in Hin as (h & Heq & Hh).
        apply Hin_hs in Hh as [Hk Hh]. exists h, msg.
        split_and!; [done|done| |exact Hres]. apply Hem. by rewrite Hk.
      * left. unfold stf. rewrite run_handlers_settled; [done|].
        left. simpl. congruence.
      * left. unfold stf. rewrite run_handlers_settled; [done|].
        left. simpl. congruence.
      * left. unfold stf. rewrite run_handlers_settled; [done|].
        left. simpl. congruence.
    + left. unfold stf. rewrite run_handlers_settled; [done|]. by right.
Qed.

(** *** Time passing *)

Lemma fire_other (st : State) (t : timer) (p : nat) :
  rejects t ≠ Some p → promises (fire st t) !! p = promises st !! p.
Proof.
  unfold rejects, fire. destruct (tm_action t) as [q|hid]; [|done].
  intros Hne. apply settle_other. congruence.
Qed.

Lemma fire_settled (st : State) (t : timer) (p : nat) :
  promises st !! p ≠ Some Pending →
  promises (fire st t) !! p = promises st !! p.
Proof.
  unfold fire. destruct (tm_action t) as [q|hid]; [|done].
  apply settle_settled.
Qed.

Lemma fire_pending (st : State) (t : timer) (p : nat) :
  rejects t = Some p → promises st !! p = Some Pending →
  promises (fire st t) !! p = Some (Rejected (ErrStr "timeout")).
Proof.
  unfold rejects, fire. destruct (tm_action t) as [q|hid]; [|done].
  intros [= ->]. apply settle_pending.
Qed.

Lemma fire_frame (st : State) (t : timer) :
  let st' := fire st t in
  next_id st' = next_id st ∧ clock st' = clock st ∧ trace st' = trace st ∧
  _config st' = _config st ∧ timers st' = timers st ∧
  ready_once st' = ready_once st ∧
  (∀ h, h ∈ response_handlers st' → h ∈ response_handlers st).
Proof.
  unfold fire. destruct (tm_action t) as [q|hid]; simpl.
  - unfold reject.
    destruct (settle_frame q (Rejected (ErrStr "timeout")) st)
      as (-> & -> & -> & -> & -> & -> & ->).
    by split_and!.
  - split_and!; try done. intros h. rewrite list_elem_of_filter. tauto.
Qed.

Lemma fire_all_frame (ts : list timer) (st : State) :
  let st' := foldl fire st ts in
  next_id st' = next_id st ∧ clock st' = clock st ∧ trace st' = trace st ∧
  _config st' = _config st ∧ timers st' = timers st ∧
  ready_once st' = ready_once st ∧
  (∀ h, h ∈ response_handlers st' → h ∈ response_handlers st).
Proof.
  revert st. induction ts as [|t ts IH]; intros st; simpl; [done|].
  destruct (IH (fire st t)) as (-> & -> & -> & -> & -> & -> & Hh).
  destruct (fire_frame st t) as (-> & -> & -> & -> & -> & -> & Hh').
  split_and!; auto.
Qed.

Lemma evolves_tick (dt : N) (st : State) : wf st → evolves st (tick dt st).
Proof.
  intros Hwf. unfold tick.
  set (now := (clock st + dt)%N).
  set (due := filter (λ t, (tm_due t ≤ now)%N) (timers st)).
  set (rest := filter (λ t, (now < tm_due t)%N) (timers st)).
  set (st0 := set_clock now (set_timers rest st)).
  destruct (fire_all_frame due st0) as (Hn & Hc & Htr & Hcf & Htm & Hro & Hhs).
  assert (Hdue : ∀ t, t ∈ due ↔ (tm_due t ≤ now)%N ∧ t ∈ timers st)
    by (intros t; unfold due; by rewrite list_elem_of_filter).
  assert (Hrest : ∀ t, t ∈ rest ↔ (now < tm_due t)%N ∧ t ∈ timers st)
    by (intros t; unfold rest; by rewrite list_elem_of_filter).
  assert (Htarget : ∀ p, Some p ∈ rejects <$> due ↔
    ∃ t, t ∈ timers st ∧ tm_action t = RejectTimeout p ∧ (tm_due t ≤ now)%N).
  { intros p. rewrite list_elem_of_fmap. split.
    - intros (t & Hrej & Ht). apply Hdue in Ht as [Hle Ht]. exists t.
      split_and!; try done. unfold rejects in Hrej.
      destruct (tm_action t); congruence.
    - intros (t & Ht & Hact & Hle). exists t. split.
      + unfold rejects. by rewrite Hact.
      + apply Hdue. by split. }
  set (stf := foldl fire st0 due) in *.
  split.
  - apply (wf_subset st); try done.
    + rewrite Hn. simpl. lia.
    + intros t. rewrite Htm. simpl. rewrite Hrest. tauto.
    + intros q. by rewrite Hro.
  - rewrite Hn. simpl. lia.
  - rewrite Hc. simpl. lia.
  - exists []. rewrite Htr. simpl. by rewrite app_nil_r.
  - by rewrite Hcf.
  - auto.
  - intros t. rewrite Htm. simpl. rewrite Hrest. tauto.
  - intros q. rewrite Hro. simpl. auto.
  - intros t Ht. destruct (decide (tm_due t ≤ now)%N) as [Hle|Hgt].
    + right. left. split; [by rewrite Hc|].
      intros q Hq. unfold stf.
      apply (foldl_not_pending fire rejects (Rejected (ErrStr "timeout")));
        try done.
      * intros s x p. apply fire_other.
      * intros s x p. apply fire_settled.
      * intros s x p. apply fire_pending.
      * apply Htarget. eauto.
    + left. rewrite Htm. simpl. apply Hrest. split; [lia|done].
  - intros q. rewrite Hro. simpl. auto.
  - intros p Hp. destruct (decide (Some p ∈ rejects <$> due)) as [Hin|Hnin].
    + destruct (promises st !! p) as [[| |]|] eqn:Hpp.
      * right. split; [done|]. right. left. split.
        -- apply Htarget in Hin as (t & Ht & Hact & Hle). exists t.
           split_and!; try done. by rewrite Hc.
        -- unfold stf.
           apply (foldl_targeted fire rejects (Rejected (ErrStr "timeout")));
             try done.
           ++ intros s x q. apply fire_other.
           ++ intros s x q. apply fire_settled.
           ++ intros s x q. apply fire_pending.
      * left. unfold stf. rewrite foldl_settled; [done| |simpl; congruence].
        intros s x q. apply fire_settled.
      * left. unfold stf. rewrite foldl_settled; [done| |simpl; congruence].
        intros s x q. apply fire_settled.
      * left. unfold stf. rewrite foldl_settled; [done| |simpl; congruence].
        intros s x q. apply fire_settled.
    + left. unfold stf. rewrite (foldl_untargeted fire rejects); [done| |done].
      intros s x q. apply fire_other.
Qed.

(** *** Steps that only add *)

Lemma evolves_grow (st st' : State) (l : list effect) :
  wf st → wf st' → next_id st ≤ next_id st' → clock st' = clock st →
  trace st' = trace st ++ l → _config st' = _config st →
  (∀ h, h ∈ response_handlers st' →
     h ∈ response_handlers st ∨
     (next_id st ≤ h_timer h ∧ next_id st ≤ h_receipt h)) →
  (∀ t, t ∈ timers st' →
     t ∈ timers st ∨
     (next_id st ≤ tm_id t ∧
      ∀ q, tm_action t = RejectTimeout q → next_id st ≤ q)) →
  (∀ q, q ∈ ready_once st' → q ∈ ready_once st ∨ next_id st ≤ q) →
  (∀ t, t ∈ timers st → t ∈ timers st') →
  (∀ q, q ∈ ready_once st → q ∈ ready_once st') →
  (∀ p, p < next_id st → promises st' !! p = promises st !! p) →
  evolves st st'.
Proof.
  intros Hwf Hwf' Hn Hc Htr Hcf Hh Ht Hr Hk Hq Hp.
  split; try done; [lia|eauto|auto..].
Qed.

Lemma elem_of_insert_timer (x t : timer) (q : list timer) :
  x ∈ insert_timer t q ↔ x = t ∨ x ∈ q.
Proof.
  induction q as [|u q IH]; simpl.
  - rewrite list_elem_of_singleton. split; [auto|].
    intros [Hx|Hx]; [done|by apply elem_of_nil in Hx].
  - destruct (tm_due u <=? tm_due t)%N.
    + rewrite !elem_of_cons, IH. tauto.
    + rewrite !elem_of_cons. tauto.
Qed.

Lemma evolves_init (st : State) : wf st → evolves st (_init st).
Proof.
  intros Hwf. unfold _init, ready_emit.
  set (st1 := log (Emit NReady) (set_ready true st)).
  set (F := λ (s : State) (p : nat), resolve p VClient s).
  assert (Hframe : ∀ l s,
    next_id (foldl F s l) = next_id s ∧ clock (foldl F s l) = clock s ∧
    trace (foldl F s l) = trace s ∧ _config (foldl F s l) = _config s ∧
    response_handlers (foldl F s l) = response_handlers s ∧
    timers (foldl F s l) = timers s).
  { induction l as [|p l IH]; intros s; simpl; [done|].
    destruct (IH (F s p)) as (-> & -> & -> & -> & -> & ->).
    by destruct (settle_frame p (Fulfilled VClient) s)
      as (? & ? & ? & ? & ? & ? & _). }
  remember (ready_once st1) as l eqn:Hl. simpl in Hl.
  destruct (Hframe l st1) as (Hn & Hc & Htr & Hcf & Hhs & Htm).
  assert (Hother : ∀ s x p, Some x ≠ Some p →
                            promises (F s x) !! p = promises s !! p).
  { intros s x p Hne. apply settle_other. congruence. }
  assert (Hsettled : ∀ s x p, promises s !! p ≠ Some Pending →
                              promises (F s x) !! p = promises s !! p).
  { intros s x p. apply settle_settled. }
  assert (Hpending : ∀ s x p, Some x = Some p →
    promises s !! p = Some Pending →
    promises (F s x) !! p = Some (Fulfilled VClient)).
  { intros s x p [= ->]. apply settle_pending. }
  assert (Hem : Emit NReady ∈ emitted_since st
    (set_ready_once [] (foldl F st1 l))).
  { apply (elem_of_emitted _ _ _ [Emit NReady]); [|left].
    simpl. by rewrite Htr. }
  split; simpl.
  - apply (wf_subset st); simpl; try done.
    + rewrite Hn. simpl. lia.
    + intros h. by rewrite Hhs.
    + intros t. by rewrite Htm.
    + intros q Hq. by apply elem_of_nil in Hq.
  - rewrite Hn. simpl. lia.
  - rewrite Hc. simpl. lia.
  - exists [Emit NReady]. by rewrite Htr.
  - by rewrite Hcf.
  - intros h. rewrite Hhs. auto.
  - intros t. rewrite Htm. auto.
  - intros q Hq. by apply elem_of_nil in Hq.
  - intros t Ht. left. by rewrite Htm.
  - intros q Hq. right. rewrite <- Hl in Hq.
    apply (foldl_not_pending F Some (Fulfilled VClient)); try done.
    apply list_elem_of_fmap. eauto.
  - intros p Hp. destruct (decide (p ∈ l)) as [Hin|Hnin].
    + destruct (promises st !! p) as [[| |]|] eqn:Hpp.
      * right. split; [done|]. right. right.
        split_and!; [by rewrite <- Hl|done|].
        apply (foldl_targeted F Some (Fulfilled VClient)); try done.
        apply list_elem_of_fmap. eauto.
      * left. rewrite (foldl_settled F); [done|done|simpl; congruence].
      * left. rewrite (foldl_settled F); [done|done|simpl; congruence].
      * left. rewrite (foldl_settled F); [done|done|simpl; congruence].
    + left. rewrite (foldl_untargeted F Some); [done|done|].
      intros Hin. apply Hnin. apply list_elem_of_fmap in Hin as (q & [= ->] & Hq).
      done.
Qed.

End Evolution.

Section Steps.
Context {Codec : EnvelopeCodec} {Pool : RelayPool} {Util : Helpers}.

Lemma wf_intro (st st' : State) :
  wf st → next_id st ≤ next_id st' →
  (∀ h, h ∈ response_handlers st' →
     h ∈ response_handlers st ∨ handler_wf (next_id st') h) →
  (∀ t, t ∈ timers st' → t ∈ timers st ∨ timer_wf (next_id st') t) →
  (∀ q, q ∈ ready_once st' → q ∈ ready_once st ∨ q < next_id st') →
  wf st'.
Proof.
  intros (Hh & Ht & Hr) Hn Hhs Hts Hrs.
  rewrite Forall_forall in Hh. rewrite Forall_forall in Ht.
  rewrite Forall_forall in Hr. unfold wf. rewrite !Forall_forall.
  split_and!.
  - intros h Hin. destruct (Hhs h Hin) as [Hold|Hnew]; [|done].
    destruct (Hh h Hold). split; lia.
  - intros t Hin. destruct (Hts t Hin) as [Hold|Hnew]; [|done].
    destruct (Ht t Hold) as [? Hq]. split; [lia|].
    intros q Hact. specialize (Hq q Hact). lia.
  - intros q Hin. destruct (Hrs q Hin) as [Hold|Hnew]; [|done].
    specialize (Hr q Hold). simpl in Hr. lia.
Qed.

Lemma evolves_connect (timeout : option Z) (st : State) :
  wf st → evolves st (connect timeout st).2.
Proof.
  intros Hwf. unfold connect, _subscribe, new_promise, once_ready. simpl.
  apply (evolves_grow _ _ [PoolSubscribe (_relays st) (_filter st)]);
    simpl; try done; auto.
  - apply (wf_intro st); simpl; auto.
    intros q. rewrite elem_of_app, list_elem_of_singleton.
    intros [?| ->]; auto.
  - intros q. rewrite elem_of_app, list_elem_of_singleton.
    intros [?| ->]; auto.
  - intros q Hq. apply elem_of_app. auto.
  - intros p Hp. apply lookup_insert_ne. lia.
Qed.

(** What [request_receipt] leaves behind, whatever the template. *)
Lemma request_receipt_fields (loc : nat) (event : SignedEvent) (st : State) :
  let n := next_id st in
  let timeout := cfg_req_timeout (_config st) in
  let due := (clock st + Z.to_N timeout)%N in
  let key := default "" (templates st !! loc ≫= tpl_id) in
  let st' := (request_receipt loc event st).2 in
  (request_receipt loc event st).1 = n ∧
  trace st' = trace st ++ [Within key (S (S n)) timeout;
                           PoolPublish (_relays st) event] ∧
  response_handlers st'
  = response_handlers st
    ++ [{| h_id := S (S n); h_key := key; h_timer := S n;
           h_receipt := n |}] ∧
  timers st'
  = insert_timer
      {| tm_id := S (S (S n)); tm_due := due;
         tm_action := RemoveHandler (S (S n)) |}
      (insert_timer
         {| tm_id := S n; tm_due := due; tm_action := RejectTimeout n |}
         (timers st)) ∧
  promises st' = <[n := Pending]> (promises st) ∧
  next_id st' = S (S (S (S n))) ∧
  clock st' = clock st ∧ _config st' = _config st ∧
  templates st' = templates st ∧ ready_once st' = ready_once st.
Proof.
  unfold request_receipt. simpl. split_and!; try done.
  by rewrite <- app_assoc.
Qed.

Lemma evolves_request_receipt (loc : nat) (event : SignedEvent) (st : State) :
  wf st → evolves st (request_receipt loc event st).2.
Proof.
  intros Hwf.
  destruct (request_receipt_fields loc event st)
    as (_ & Htr & Hhs & Htm & Hp & Hn & Hc & Hcf & _ & Hro).
  set (st' := (request_receipt loc event st).2) in *.
  assert (Hh : ∀ h, h ∈ response_handlers st' →
    h ∈ response_handlers st ∨
    (h_timer h = S (next_id st) ∧ h_receipt h = next_id st)).
  { intros h. rewrite Hhs, elem_of_app, list_elem_of_singleton.
    intros [?| ->]; auto. }
  assert (Ht : ∀ t, t ∈ timers st' →
    t ∈ timers st ∨
    (next_id st ≤ tm_id t ∧ tm_id t < next_id st' ∧
     ∀ q, tm_action t = RejectTimeout q → q = next_id st)).
  { intros t. rewrite Htm, !elem_of_insert_timer, Hn.
    intros [->|[->|?]]; auto; right; simpl; split_and!; try lia; congruence. }
  eapply evolves_grow; try done.
  - apply (wf_intro st); try done.
    + lia.
    + intros h Hin. destruct (Hh h Hin) as [?|[Ha Hb]]; auto.
      right. split; lia.
    + intros t Hin. destruct (Ht t Hin) as [?|(Ha & Hb & Hq)]; auto.
      right. split; [done|]. intros q Hact. specialize (Hq q Hact). lia.
    + intros q. rewrite Hro. auto.
  - lia.
  - intros h Hin. destruct (Hh h Hin) as [?|[Ha Hb]]; auto. right. lia.
  - intros t Hin. destruct (Ht t Hin) as [?|(Ha & Hb & Hq)]; auto.
    right. split; [done|]. intros q Hact. specialize (Hq q Hact). lia.
  - intros q. rewrite Hro. auto.
  - intros t Hin. rewrite Htm, !elem_of_insert_timer. auto.
  - intros p Hlt. rewrite Hp. apply lookup_insert_ne. lia.
Qed.

(** *** Quiet steps *)

Lemma quiet_refl (st : State) : quiet st st.
Proof. unfold quiet. split_and!; try done. exists []. by rewrite app_nil_r. Qed.

Lemma quiet_trans (st st' st'' : State) :
  quiet st st' → quiet st' st'' → quiet st st''.
Proof.
  intros (N1 & C1 & [l1 T1] & F1 & H1 & M1 & R1 & P1)
    (N2 & C2 & [l2 T2] & F2 & H2 & M2 & R2 & P2).
  unfold quiet. split_and!; try congruence; [lia|].
  exists (l1 ++ l2). by rewrite T2, T1, <- app_assoc.
Qed.

Lemma quiet_log (e : effect) (st : State) : quiet st (log e st).
Proof. unfold quiet. split_and!; try done. by exists [e]. Qed.

Lemma evolves_of_quiet (st st' : State) : wf st → quiet st st' → evolves st st'.
Proof.
  intros Hwf (N & C & [l T] & F & H' & M & R & P).
  by apply (evolves_quiet st st' l).
Qed.

Lemma quiet_create_event (loc : nat) (recipient : string) (st : State) :
  quiet st (create_event loc recipient st).2.
Proof.
  unfold create_event, assign_id.
  destruct (templates st !! loc) as [[[id|] body]|]; simpl.
  - apply quiet_log.
  - unfold quiet. simpl. split_and!; try done. eauto.
  - apply quiet_refl.
Qed.

Lemma quiet_publish (event : SignedEvent) (st : State) :
  quiet st (_publish event st).2.
Proof. apply quiet_log. Qed.

Lemma quiet_send (loc : nat) (recipient : string) (st : State) :
  quiet st (send loc recipient st).2.
Proof.
  unfold send. pose proof (quiet_create_event loc recipient st) as Hq.
  destruct (create_event loc recipient st) as [[err|event] st1]; [done|].
  simpl in *. eapply quiet_trans; [exact Hq|apply quiet_log].
Qed.

Lemma quiet_new_template (template : MessageTemplate) (st : State) :
  quiet st (new_template template st).
Proof.
  unfold quiet, new_template. simpl. split_and!; try done; [lia|].
  exists []. by rewrite app_nil_r.
Qed.

Lemma quiet_close (st : State) : quiet st (close st).
Proof.
  unfold close. destruct (_sub st).
  - unfold quiet. simpl. split_and!; try done. rewrite <- !app_assoc. eauto.
  - unfold quiet. simpl. split_and!; try done. rewrite <- !app_assoc. eauto.
Qed.

Lemma quiet_bounce (event : SignedEvent) (err : js_error) (st : State) :
  quiet st (bounce event err st).
Proof.
  unfold bounce. eapply quiet_trans; apply quiet_log.
Qed.

Lemma quiet_send_resume (created : js_error + SignedEvent) (st : State) :
  quiet st (send_resume created st).
Proof. destruct created; [apply quiet_refl|apply quiet_log]. Qed.

Lemma evolves_quiet_l (st st1 st2 : State) :
  wf st → quiet st st1 → (wf st1 → evolves st1 st2) → evolves st st2.
Proof.
  intros Hwf Hq He. pose proof (evolves_of_quiet _ _ Hwf Hq) as E1.
  eapply evolves_trans; [done|exact E1|]. apply He, E1.
Qed.

Lemma evolves_quiet_r (st st1 st2 : State) :
  wf st → evolves st st1 → quiet st1 st2 → evolves st st2.
Proof.
  intros Hwf E1 Hq. eapply evolves_trans; [done|exact E1|].
  apply evolves_of_quiet; [apply E1|done].
Qed.

(** *** The steps *)

Lemma evolves_route (message : Message) (st : State) :
  wf st →
  match route message st with
  | inl _ => True
  | inr (_, st') => evolves st st'
  end.
Proof.
  intros Hwf. unfold route.
  destruct (bool_decide (msg_type message = "request")).
  - destruct (bool_decide (msg_method message = "ping")) eqn:Hping.
    + unfold _pong. rewrite Hping.
      set (loc := next_id st).
      set (template := {| tpl_id := Some (msg_id message);
                          tpl_body := TplResult "pong" |}).
      pose proof (quiet_new_template template st) as Hq1.
      pose proof (quiet_create_event loc (ev_pubkey (msg_env message))
                    (new_template template st)) as Hq2.
      unfold new_template in Hq1, Hq2. fold loc in Hq1, Hq2.
      destruct (create_event loc _ _) as [created st'] eqn:Hcreate.
      simpl in *. apply evolves_of_quiet; [done|].
      eapply quiet_trans; [exact Hq1|exact Hq2].
    + apply evolves_of_quiet; [done|apply quiet_log].
  - destruct (bool_decide (_ ∨ _)).
    + by apply evolves_response_emit.
    + by apply evolves_refl.
Qed.

Lemma evolves_handler (event : SignedEvent) (st : State) :
  wf st → evolves st (_handler event st).
Proof.
  intros Hwf. unfold _handler.
  destruct (bool_decide (ev_pubkey event = _pubkey st));
    [by apply evolves_refl|].
  set (st1 := log (Emit (NEvent event)) st).
  assert (Hq1 : quiet st st1) by apply quiet_log.
  assert (Hbounce : ∀ err, evolves st (bounce event err st1)).
  { intros err. apply evolves_of_quiet; [done|].
    eapply quiet_trans; [exact Hq1|apply quiet_bounce]. }
  destruct (decrypt_envelope event) as [err|payload]; [done|].
  destruct (parse_message payload event) as [err|message]; [done|].
  apply (evolves_quiet_l st st1); [done|done|]. intros Hwf1.
  pose proof (evolves_route message st1 Hwf1) as Hroute.
  destruct (route message st1) as [err|[pending st2]].
  { apply evolves_of_quiet; [done|apply quiet_bounce]. }
  apply (evolves_quiet_r st1 st2); [done|done|].
  set (st4 := log (Emit (NMessage message)) (log _ st2)).
  assert (Hq4 : quiet st2 st4) by (eapply quiet_trans; apply quiet_log).
  destruct pending as [created|]; [|done].
  eapply quiet_trans; [exact Hq4|apply quiet_send_resume].
Qed.

Lemma evolves_request (loc : nat) (recipient : string) (st : State) :
  wf st → evolves st (request loc recipient st).2.
Proof.
  intros Hwf. unfold request.
  destruct (templates st !! loc) as [message|]; [|by apply evolves_refl].
  destruct (falsy (tpl_id message)); [by apply evolves_refl|].
  pose proof (quiet_create_event loc recipient st) as Hq.
  destruct (create_event loc recipient st) as [[err|event] st1];
    cbn [fst snd] in *.
  { by apply evolves_of_quiet. }
  apply (evolves_quiet_l st st1); [done|done|]. intros Hwf1.
  pose proof (evolves_request_receipt loc event st1 Hwf1) as He.
  destruct (request_receipt loc event st1) as [receipt st2]. exact He.
Qed.

Lemma evolves_ping (recipient : string) (st : State) :
  wf st → evolves st (ping recipient st).2.
Proof.
  intros Hwf. unfold ping.
  match goal with
  | |- evolves st (request _ _ ?s).2 => set (st1 := s)
  end.
  apply (evolves_quiet_l st st1); [done| |apply evolves_request].
  unfold quiet, st1. simpl. split_and!; try done; [lia|].
  exists []. by rewrite app_nil_r.
Qed.

Lemma step_evolves (a : action) (st : State) : wf st → evolves st (step st a).
Proof.
  intros Hwf. destruct a; cbn [step].
  - by apply evolves_tick.
  - by apply evolves_handler.
  - by apply evolves_init.
  - by apply evolves_response_emit.
  - apply evolves_of_quiet; [done|apply quiet_new_template].
  - by apply evolves_connect.
  - apply evolves_of_quiet; [done|apply quiet_close].
  - apply evolves_of_quiet; [done|apply quiet_send].
  - by apply evolves_request.
  - by apply evolves_ping.
Qed.

Lemma run_app (acts acts' : list action) (st : State) :
  run (acts ++ acts') st = run acts' (run acts st).
Proof. apply foldl_app. Qed.

Lemma run_evolves (acts : list action) (st : State) :
  wf st → evolves st (run acts st).
Proof.
  revert st. induction acts as [|a acts IH]; intros st Hwf; simpl.
  - by apply evolves_refl.
  - pose proof (step_evolves a st Hwf) as E1.
    eapply evolves_trans; [done|exact E1|]. apply IH, E1.
Qed.

End Steps.

(** ** Deadlines *)

Section Deadlines.
Context {Codec : EnvelopeCodec} {Pool : RelayPool} {Util : Helpers}.

Lemma tick_rejects (dt : N) (st : State) (t : timer) (p : nat) :
  t ∈ timers st → tm_action t = RejectTimeout p →
  (tm_due t ≤ clock st + dt)%N → promises st !! p = Some Pending →
  promises (tick dt st) !! p = Some (Rejected (ErrStr "timeout")).
Proof.
  intros Ht Hact Hdue Hp. unfold tick.
  apply (foldl_targeted fire rejects (Rejected (ErrStr "timeout")));
    try done.
  - intros s x q. apply fire_other.
  - intros s x q. apply fire_settled.
  - intros s x q. apply fire_pending.
  - apply list_elem_of_fmap. exists t. split.
    + unfold rejects. by rewrite Hact.
    + apply list_elem_of_filter. by split.
Qed.

(** A settled promise stays as it is, whatever happens. *)
Lemma settled_stable (acts : list action) (st : State) (p : nat)
    (s : promise value) :
  wf st → p < next_id st → promises st !! p = Some s → s ≠ Pending →
  promises (run acts st) !! p = Some s.
Proof.
  intros Hwf Hp Hs Hne.
  destruct (ev_settle _ _ (run_evolves acts st Hwf) p Hp)
    as [Hsame|[Hpend _]]; congruence.
Qed.

(** A pending receipt [p] whose timer is in the queue, and which only
    handlers under [key] can resolve or save from its timer, is rejected
    with [timeout] by the first tick that reaches the due time, when
    nothing was emitted under [key] before; and it stays rejected. *)
Lemma pending_times_out (st1 : State) (p tid : nat) (key : string) (due : N)
    (acts1 : list action) (dt : N) (acts2 : list action) :
  wf st1 → p < next_id st1 → promises st1 !! p = Some Pending →
  {| tm_id := tid; tm_due := due; tm_action := RejectTimeout p |}
  ∈ timers st1 →
  (∀ h, h ∈ response_handlers st1 →
        h_receipt h = p ∨ h_timer h = tid → h_key h = key) →
  p ∉ ready_once st1 →
  (∀ m, InboxResponse key m ∉ emitted_since st1 (run acts1 st1)) →
  (due ≤ clock (run acts1 st1) + dt)%N →
  promises (run (acts1 ++ ATick dt :: acts2) st1) !! p
  = Some (Rejected (ErrStr "timeout")).
Proof.
  intros Hwf Hp Hpend Htm Hkey Hro Hquiet Hdue.
  set (tm0 := {| tm_id := tid; tm_due := due; tm_action := RejectTimeout p |})
    in *.
  pose proof (run_evolves acts1 st1 Hwf) as E.
  set (st2 := run acts1 st1) in *.
  assert (Hp2 : p < next_id st2) by (pose proof (ev_next _ _ E); lia).
  assert (Hlate : promises (tick dt st2) !! p
                  = Some (Rejected (ErrStr "timeout"))).
  { destruct (ev_settle _ _ E p Hp) as [Hsame|[_ Hby]].
    - destruct (ev_keep _ _ E tm0 Htm)
        as [Hin|[[_ Hset]|(h & m & Hh & Hid & Hem)]].
      + apply (tick_rejects dt st2 tm0); try done. congruence.
      + exfalso. apply (Hset p); [done|congruence].
      + exfalso. apply (Hquiet m). rewrite <- (Hkey h Hh); auto.
    - destruct Hby as [(h & m & Hh & Hrec & Hem & Hres)
                      |[[_ Hres]|(Hin & _)]]; [| |done].
      + exfalso. apply (Hquiet m). rewrite <- (Hkey h Hh); auto.
      + pose proof (settled_stable [ATick dt] st2 p _ (ev_wf _ _ E) Hp2 Hres)
          as Hst. simpl in Hst. by apply Hst. }
  rewrite run_app. fold st2. simpl.
  pose proof (evolves_tick dt st2 (ev_wf _ _ E)) as E'.
  apply (settled_stable acts2 (tick dt st2)); try done.
  - apply E'.
  - pose proof (ev_next _ _ E'). lia.
Qed.

(** When [request] hands out a receipt, the template had a usable id and
    the codec delivered the event. *)
Lemma request_receipt_made (loc : nat) (recipient : string) (st : State)
    (receipt : nat) (st1 : State) :
  request loc recipient st = (inr receipt, st1) →
  ∃ message id event,
    let config := {| ec_kind := cfg_kind (_config st); ec_tags := [] |} in
    let created := CreateEnvelope config (stringify message) recipient in
    templates st !! loc = Some message ∧ tpl_id message = Some id ∧
    id ≠ "" ∧
    create_envelope config (stringify message) recipient = inr event ∧
    receipt = next_id st ∧
    st1 = (request_receipt loc event (log created st)).2.
Proof.
  intros Hreq. unfold request in Hreq.
  destruct (templates st !! loc) as [message|] eqn:Hloc; [|discriminate Hreq].
  destruct (falsy (tpl_id message)) eqn:Hfalsy; [discriminate Hreq|].
  destruct (tpl_id message) as [id|] eqn:Hid; [|discriminate Hfalsy].
  apply bool_decide_eq_false in Hfalsy.
  rewrite (create_event_with_id _ _ _ _ _ Hloc Hid) in Hreq.
  destruct (create_envelope _ _ _) as [err|event] eqn:Hcreate;
    [discriminate Hreq|].
  pose proof (request_receipt_fields loc event
    (log (CreateEnvelope {| ec_kind := cfg_kind (_config st); ec_tags := [] |}
            (stringify message) recipient) st)) as (Hfst & _).
  destruct (request_receipt loc event _) as [r st2] eqn:Hrr.
  injection Hreq as <- <-. exists message, id, event. cbn zeta.
  rewrite Hrr. by split_and!.
Qed.

(** The state in which [request] leaves its receipt. *)
Lemma request_pending (loc : nat) (recipient : string) (st : State)
    (message : MessageTemplate) (key : string) (receipt : nat)
    (st1 : State) :
  wf st → templates st !! loc = Some message → tpl_id message = Some key →
  request loc recipient st = (inr receipt, st1) →
  wf st1 ∧ receipt < next_id st1 ∧ promises st1 !! receipt = Some Pending ∧
  clock st1 = clock st ∧ (receipt ∉ ready_once st1) ∧
  ∃ tid,
    {| tm_id := tid;
       tm_due := (clock st + Z.to_N (cfg_req_timeout (_config st)))%N;
       tm_action := RejectTimeout receipt |} ∈ timers st1 ∧
    ∀ h, h ∈ response_handlers st1 →
         h_receipt h = receipt ∨ h_timer h = tid → h_key h = key.
Proof.
  intros Hwf Hloc Hid Hreq.
  pose proof (evolves_request loc recipient st Hwf) as E.
  rewrite Hreq in E. cbn [snd] in E.
  apply request_receipt_made in Hreq. cbn zeta in Hreq.
  destruct Hreq
    as (message' & id & event & Hloc' & Hid' & Hne & Hcreate & Hr & Hst1).
  assert (message' = message) as -> by congruence.
  assert (id = key) as -> by congruence.
  set (st0 := log (CreateEnvelope
                     {| ec_kind := cfg_kind (_config st); ec_tags := [] |}
                     (stringify message) recipient) st) in *.
  subst receipt st1.
  destruct (request_receipt_state loc event message key st0 Hloc Hid)
    as (_ & _ & Hhs & Htm & Hp & Hn & Hc & _ & _ & Hro).
  destruct Hwf as (Hwh & Hwt & Hwr).
  rewrite Forall_forall in Hwh. rewrite Forall_forall in Hwr.
  split; [apply E|]. split; [rewrite Hn; simpl; lia|].
  split; [rewrite Hp; apply lookup_insert_eq|].
  split; [by rewrite Hc|]. split.
  { rewrite Hro. intros Hin. specialize (Hwr _ Hin). simpl in Hwr. lia. }
  exists (S (next_id st)). split.
  - rewrite Htm, !elem_of_insert_timer. auto.
  - intros h. rewrite Hhs, elem_of_app, list_elem_of_singleton.
    intros [Hold| ->]; [|done].
    destruct (Hwh h Hold) as [Ha Hb]. simpl. lia.
Qed.




(** The configuration never changes. *)
Lemma config_immutable (acts : list action) (st : State) :
  wf st → _config (run acts st) = _config st.
Proof. intros Hwf. apply (run_evolves acts st Hwf). Qed.

(** The promise of [connect] is fresh: only the [ready] notification
    settles it. *)
Lemma connect_promise (timeout : option Z) (st : State) (acts : list action) :
  wf st →
  let p := (connect timeout st).1 in
  let st1 := (connect timeout st).2 in
  let st2 := run acts st1 in
  promises st1 !! p = Some Pending ∧ p < next_id st1 ∧ wf st1 ∧
  p ∈ ready_once st1 ∧ evolves st1 st2 ∧
  (promises st2 !! p = Some Pending ∨
   by_ready p st1 st2).
Proof.
  intros Hwf p st1 st2.
  pose proof (evolves_connect timeout st Hwf) as E0. fold st1 in E0.
  assert (Hwf1 : wf st1) by apply E0.
  pose proof (run_evolves acts st1 Hwf1) as E. fold st2 in E.
  assert (Hp : promises st1 !! p = Some Pending) by apply lookup_insert_eq.
  assert (Hlt : p < next_id st1) by (unfold p, st1; simpl; lia).
  assert (Hin : p ∈ ready_once st1) by (apply elem_of_app; right; left).
  split_and!; try done.
  destruct Hwf as (Hwh & Hwt & _).
  rewrite Forall_forall in Hwh. rewrite Forall_forall in Hwt.
  destruct (ev_settle _ _ E p Hlt) as [Hsame|[_ Hby]];
    [left; congruence|].
  destruct Hby as [(h & m & Hh & Hrec & _)
                  |[[(t & Ht & Hact & _) _]|Hready]]; [| |by right].
  - exfalso. destruct (Hwh h Hh) as [_ Hb]. simpl in Hrec, Hb.
    unfold p in Hrec. simpl in Hrec. lia.
  - exfalso. destruct (Hwt t Ht) as [_ Hb]. specialize (Hb p Hact).
    unfold p in Hb. simpl in Hb. lia.
Qed.

(** C8, as the code has it: the argument of [connect] has no effect at
    all.  The request timeout stays the one of the configuration, and a
    later [request] sets its timer by it; the promise of [connect] is
    pending until the [ready] notification, is fulfilled with the client
    by the first end of stored events, and is never rejected. *)
Theorem connect_ignores_timeout (timeout : option Z) (st : State) :
  wf st →
  let p := (connect timeout st).1 in
  let st1 := (connect timeout st).2 in
  connect timeout st = connect None st ∧
  promises st1 !! p = Some Pending ∧
  ∀ acts,
    let st2 := run acts st1 in
    _config st2 = _config st ∧
    (promises st2 !! p = Some Pending ∨
     promises st2 !! p = Some (Fulfilled VClient)) ∧
    (Emit NReady ∉ emitted_since st1 st2 →
     promises st2 !! p = Some Pending) ∧
    (∀ acts', promises (run (acts ++ AEose :: acts') st1) !! p
              = Some (Fulfilled VClient)) ∧
    (∀ loc recipient receipt st3,
       request loc recipient st2 = (inr receipt, st3) →
       ∃ tid,
         {| tm_id := tid;
            tm_due := (clock st2 + Z.to_N (cfg_req_timeout (_config st)))%N;
            tm_action := RejectTimeout receipt |} ∈ timers st3).
Proof.
  intros Hwf p st1. split; [done|].
  destruct (connect_promise timeout st [] Hwf) as (Hp & Hlt & Hwf1 & Hin & _).
  fold p st1 in Hp, Hlt, Hwf1, Hin. split; [done|].
  intros acts st2.
  destruct (connect_promise timeout st acts Hwf) as (_ & _ & _ & _ & E & Hst).
  fold p st1 st2 in E, Hst.
  assert (Hcf : _config st2 = _config st).
  { rewrite (ev_config _ _ E). apply (evolves_connect timeout st Hwf). }
  split_and!.
  - done.
  - destruct Hst as [?|(_ & _ & ?)]; auto.
  - intros Hnot. destruct Hst as [?|(_ & Hem & _)]; [done|]. by destruct Hnot.
  - intros acts'. rewrite run_app. fold st2. simpl.
    pose proof (evolves_init st2 (ev_wf _ _ E)) as E'.
    assert (Hlt2 : p < next_id st2) by (pose proof (ev_next _ _ E); lia).
    assert (Hdone : promises (_init st2) !! p = Some (Fulfilled VClient)).
    { destruct (connect_promise timeout st (acts ++ [AEose]) Hwf)
        as (_ & _ & _ & _ & E2 & Hst2).
      fold p st1 in E2, Hst2. rewrite run_app in E2, Hst2.
      fold st2 in E2, Hst2. simpl in E2, Hst2.
      destruct Hst2 as [Hpend|(_ & _ & ?)]; [|done].
      destruct (ev_keep_ready _ _ E2 p Hin) as [Hro|Hset]; [|done].
      by apply elem_of_nil in Hro. }
    apply (settled_stable acts' (_init st2)); try done.
    + apply E'.
    + pose proof (ev_next _ _ E'). lia.
  - intros loc recipient receipt st3 Hreq.
    apply request_receipt_made in Hreq. cbn zeta in Hreq.
    destruct Hreq as (message & id & event & Hloc & Hid & _ & _ & -> & ->).
    match goal with
    | |- context [request_receipt loc event ?s] => set (st0 := s)
    end.
    destruct (request_receipt_fields loc event st0)
      as (_ & _ & _ & Htm & _).
    exists (S (next_id st2)). rewrite Htm, !elem_of_insert_timer.
    right. left. simpl. by rewrite Hcf.
Qed.

End Deadlines.

(** ** Constructed clients *)

Section Construction.
Context {Codec : EnvelopeCodec} {Pool : RelayPool} {Util : Helpers}.

(** A client is well-formed when constructed, and its configuration is
    the one [get_node_config] made of the options. *)
Lemma new_client_wf (now : Z) (time : N) (pubkey : string)
    (relays : list string) (options : PartialConfig) (st : State) :
  new_NostrClient now time pubkey relays options = inr st →
  wf st ∧ _config st = get_node_config now options ∧
  _filter st = spread_filter (cfg_filter (_config st)) (opt_filter options).
Proof.
  unfold new_NostrClient. destruct (verify_relays relays); [done|].
  intros [= <-]. simpl. split; [|done].
  split_and!; apply Forall_nil_2.
Qed.

(** Every state a constructed client reaches is well-formed and has the
    configuration it was constructed with. *)
Lemma reachable_wf (now : Z) (time : N) (pubkey : string)
    (relays : list string) (options : PartialConfig) (st : State)
    (acts : list action) :
  new_NostrClient now time pubkey relays options = inr st →
  wf (run acts st) ∧ _config (run acts st) = get_node_config now options.
Proof.
  intros Hnew. destruct (new_client_wf _ _ _ _ _ _ Hnew) as (Hwf & Hcf & _).
  split; [apply (run_evolves acts st Hwf)|].
  by rewrite config_immutable.
Qed.

End Construction.

(** ** The properties at work *)

Section Scenarios.
Import Scenario.

Lemma client0_wf : wf client0.
Proof. split_and!; apply Forall_nil_2. Qed.

Lemma client1_wf : wf client1.
Proof. split_and!; apply Forall_nil_2. Qed.

Lemma abc_request : request 0 peer client1 = (inr 1, abc_requested).
Proof. reflexivity. Qed.

(** A response that arrives in time fulfils the receipt. *)
Example response_in_time :
  ∃ m, request_future (inr 1)
         (run [ATick 4999; AInbound (from_peer "e1" "accept abc"); ATick 10]
            abc_requested)
       = Fulfilled (VMessage m) ∧ msg_type m = "accept" ∧ msg_id m = "abc".
Proof. eexists. split; [vm_compute; reflexivity|done]. Qed.

(** With relays [r1] acknowledging and [r2] refusing, [send] reports one
    acknowledgment, one failure, and success. *)
Example send_partial_failure :
  ∃ published,
    (send 0 peer client1).1 = inr published ∧
    pe_acks published = ["r1"] ∧ pe_fails published = ["refused"] ∧
    pe_ok published = true.
Proof. eexists. split; [vm_compute; reflexivity|done]. Qed.


Lemma request_registers_before_publish_witness :
  ∃ hid,
    emitted_since client1 abc_requested
    = [CreateEnvelope {| ec_kind := 24133; ec_tags := [] |} "sign abc" peer;
       Within "abc" hid 5000;
       PoolPublish ["r1"; "r2"] (envelope "sign abc" peer)].
Proof.
  destruct (proj2 (request_registers_before_publish 0 peer abc_template
                     "abc" client1 eq_refl eq_refl)
              ltac:(discriminate) (envelope "sign abc" peer) eq_refl)
    as (receipt & timer & hid & _ & Hout & _).
  exists hid. exact Hout.
Defined.

Lemma request_requires_id_witness :
  request_call 0 peer client2
  = (Returns (Rejected (ErrObj "message id is required")), client2).
Proof.
  exact (proj1 (request_requires_id 0 peer anonymous_template client2
                  eq_refl eq_refl)).
Defined.

(** C5 as the claim states it fails: on the template without an id the
    call of [request] returns, with a rejected promise; it does not
    throw. *)
Lemma request_without_id_does_not_throw :
  (request_call 0 peer client2).1
  = Returns (Rejected (ErrObj "message id is required")) ∧
  ¬ ∃ err, (request_call 0 peer client2).1 = Throws err.
Proof.
  split; [reflexivity|]. intros [err Herr]. vm_compute in Herr.
  discriminate Herr.
Qed.

Lemma handler_bounces_witness :
  emitted_since client0 (_handler broken_event client0)
  = [Emit (NEvent broken_event); Emit (NError (ErrStr "cannot decrypt"));
     Emit (NBounced "e2" "cannot decrypt")].
Proof.
  refine (proj1 (proj2 (handler_bounces broken_event
                          (ErrStr "cannot decrypt") client0 _ _))).
  - discriminate.
  - left. reflexivity.
Defined.

Lemma handler_answers_ping_witness :
  emitted_since client0 (_handler ping_event client0)
  = [Emit (NEvent ping_event);
     CreateEnvelope {| ec_kind := 24133; ec_tags := [] |} "pong p1" peer;
     InboxAuthor peer ping_message; Emit (NMessage ping_message);
     PoolPublish ["r1"; "r2"] (envelope "pong p1" peer)].
Proof.
  refine (eq_trans (proj1 (handler_answers_ping ping_event "ping p1"
                             ping_message client0 _ eq_refl eq_refl
                             eq_refl eq_refl)) eq_refl).
  discriminate.
Defined.

Lemma create_event_assigns_id_witness :
  templates (create_event 0 peer client2).2 !! 0
  = Some {| tpl_id := Some "m0"; tpl_body := TplRequest "sign" |}.
Proof.
  exact (proj1 (create_event_assigns_id 0 peer anonymous_template client2
                  eq_refl)).
Defined.


Lemma connect_ignores_timeout_witness :
  connect (Some 100%Z) client1 = connect None client1 ∧
  _config (run [ATick 100] connected) = _config client1.
Proof.
  destruct (connect_ignores_timeout (Some 100%Z) client1 client1_wf)
    as (Hsame & _ & Hrun).
  split; [exact Hsame|]. exact (proj1 (Hrun [ATick 100%N])).
Defined.

(** C8 as stated fails: after [connect(100)] on a client with the default
    configuration, a request is still pending 100 and 4999 milliseconds
    later, and is rejected at 5000 milliseconds, the configured timeout. *)
Lemma connect_timeout_is_no_deadline :
  let r := (request 0 peer connected).1 in
  let st := (request 0 peer connected).2 in
  cfg_req_timeout (_config connected) = 5000%Z ∧
  request_future r st = Pending ∧
  request_future r (run [ATick 100] st) = Pending ∧
  request_future r (run [ATick 4999] st) = Pending ∧
  request_future r (run [ATick 5000] st) = Rejected (ErrStr "timeout") ∧
  map tm_due (timers st) = [5000%N; 5000%N].
Proof. vm_compute. by split_and!. Qed.

End Scenarios.

(** * Further properties *)

(** ** Receipts and publication *)

(** X1: aggregating the attempts of two relay lists one after the other
    is aggregating each and putting the results together: the
    acknowledgments and the failures are concatenated, and the whole is a
    success when one of the parts is. *)
Theorem resolve_receipts_app (l1 l2 : list settled) :
  let r := resolve_receipts (l1 ++ l2) in
  acks r = acks (resolve_receipts l1) ++ acks (resolve_receipts l2) ∧
  fails r = fails (resolve_receipts l1) ++ fails (resolve_receipts l2) ∧
  ok r = ok (resolve_receipts l1) || ok (resolve_receipts l2).
Proof.
  unfold resolve_receipts. rewrite !foldl_push_receipt. simpl.
  rewrite !omap_app. split_and!; try done.
  by destruct (omap fulfilled_value l1), (omap fulfilled_value l2).
Qed.

(** X2: the aggregate is a failure exactly when no attempt was fulfilled,
    the empty list of attempts included; then there is no acknowledgment
    and every attempt has left its reason. *)
Theorem resolve_receipts_failure (results : list settled) :
  let res := resolve_receipts results in
  (ok res = false ↔ ∀ prom, prom ∈ results → fulfilled_value prom = None) ∧
  (ok res = false →
   acks res = [] ∧ length (fails res) = length results) ∧
  resolve_receipts [] = {| acks := []; fails := []; ok := false |}.
Proof.
  unfold resolve_receipts. rewrite foldl_push_receipt. simpl.
  assert (Hnil : omap fulfilled_value results = [] ↔
                 ∀ prom, prom ∈ results → fulfilled_value prom = None).
  { induction results as [|prom results IH]; cbn.
    - split; [|done]. intros _ prom Hin. by apply elem_of_nil in Hin.
    - destruct prom as [value|reason]; cbn.
      + split; [done|]. intros Hall. by specialize (Hall _ (list_elem_of_here _ _)).
      + rewrite IH. split.
        * intros Hall prom Hin. apply elem_of_cons in Hin as [->|Hin]; auto.
        * intros Hall prom Hin. apply Hall. by right. }
  assert (Hok : bool_decide (0 < length (omap fulfilled_value results)) = false
                ↔ omap fulfilled_value results = []).
  { rewrite bool_decide_eq_false.
    destruct (omap fulfilled_value results); simpl; split; try done; lia. }
  split_and!; [by rewrite Hok| |done].
  intros Hfalse. apply Hok in Hfalse. split; [done|].
  pose proof (omap_settled_length results) as Hlen.
  rewrite Hfalse in Hlen. simpl in Hlen. done.
Qed.

Lemma resolve_receipts_ok (results : list settled) :
  ok (resolve_receipts results) = true ↔
  ∃ value, fulfilled value ∈ results.
Proof.
  unfold resolve_receipts. rewrite foldl_push_receipt. simpl.
  rewrite bool_decide_eq_true. split.
  - destruct (omap fulfilled_value results) as [|value l] eqn:Hl;
      simpl; [lia|intros _].
    assert (Hin : value ∈ omap fulfilled_value results)
      by (rewrite Hl; left).
    apply list_elem_of_omap in Hin as (prom & Hprom & Hv).
    destruct prom; simplify_eq/=. eauto.
  - intros [value Hin].
    assert (Hv : value ∈ omap fulfilled_value results).
    { apply list_elem_of_omap. by exists (fulfilled value). }
    destruct (omap fulfilled_value results); simpl; [|lia].
    by apply elem_of_nil in Hv.
Qed.

Lemma resolve_receipts_length (results : list settled) :
  length (acks (resolve_receipts results))
  + length (fails (resolve_receipts results)) = length results.
Proof.
  unfold resolve_receipts. rewrite foldl_push_receipt. simpl.
  apply omap_settled_length.
Qed.

Section Publication.
Context {Codec : EnvelopeCodec} {Pool : RelayPool} {Util : Helpers}.

(** X3: [_publish] makes one attempt per relay of the client and loses
    none: acknowledgments and failures together are as many as the
    relays; the result is a success exactly when some relay fulfilled its
    attempt, so never on an empty relay list; and the state gains the
    call to the pool and nothing else. *)
Theorem publish_attempts_every_relay (event : SignedEvent) (st : State) :
  let res := (_publish event st).1 in
  length (acks res) + length (fails res) = length (_relays st) ∧
  (ok res = true ↔
   ∃ relay value, relay ∈ _relays st ∧
                  relay_publish relay event = fulfilled value) ∧
  (_relays st = [] → ok res = false) ∧
  (_publish event st).2
  = set_trace (trace st ++ [PoolPublish (_relays st) event]) st.
Proof.
  unfold _publish. cbn [fst snd].
  pose proof (resolve_receipts_ok
                (map (λ relay, relay_publish relay event) (_relays st)))
    as Hok.
  pose proof (resolve_receipts_length
                (map (λ relay, relay_publish relay event) (_relays st)))
    as Hlen.
  rewrite length_map in Hlen.
  split_and!; try done.
  - rewrite Hok. split.
    + intros (value & Hin). apply list_elem_of_fmap in Hin as (relay & ? & ?).
      eauto.
    + intros (relay & value & Hin & Heq). exists value.
      apply list_elem_of_fmap. exists relay. by rewrite Heq.
  - intros Hnone. by rewrite Hnone.
Qed.

End Publication.

(** ** Outbound operations *)

Section Operations.
Context {Codec : EnvelopeCodec} {Pool : RelayPool} {Util : Helpers}.

Lemma create_event_result (loc : nat) (recipient : string)
    (message : MessageTemplate) (st : State) :
  templates st !! loc = Some message →
  let message' :=
    {| tpl_id := Some (assigned_id message st);
       tpl_body := tpl_body message |} in
  let config := {| ec_kind := cfg_kind (_config st); ec_tags := [] |} in
  let created := CreateEnvelope config (stringify message') recipient in
  (create_event loc recipient st).1
  = create_envelope config (stringify message') recipient ∧
  trace (create_event loc recipient st).2 = trace st ++ [created] ∧
  templates (create_event loc recipient st).2
  = <[loc := message']> (templates st) ∧
  _relays (create_event loc recipient st).2 = _relays st ∧
  _config (create_event loc recipient st).2 = _config st ∧
  drawn (create_event loc recipient st).2
  = match tpl_id message with Some _ => drawn st | None => S (drawn st) end.
Proof.
  intros Hloc. unfold create_event, assign_id, assigned_id. rewrite Hloc.
  destruct message as [[id|] body]; simpl; split_and!; try done.
  by rewrite insert_id.
Qed.

(** X4: [send] on a template object has the envelope made of the
    template, its id assigned, and then either the codec fails, and the
    error is passed on with nothing published; or the event is published
    once to the relays of the client, and the result carries that event
    with the aggregate of the publication.  In both cases promises,
    timers and the response bus are left alone. *)
Theorem send_publishes_once (loc : nat) (recipient : string)
    (message : MessageTemplate) (st : State) :
  templates st !! loc = Some message →
  let message' :=
    {| tpl_id := Some (assigned_id message st);
       tpl_body := tpl_body message |} in
  let config := {| ec_kind := cfg_kind (_config st); ec_tags := [] |} in
  let created := CreateEnvelope config (stringify message') recipient in
  let st' := (send loc recipient st).2 in
  quiet st st' ∧ templates st' !! loc = Some message' ∧
  match create_envelope config (stringify message') recipient with
  | inl err =>
      (send loc recipient st).1 = inl err ∧
      emitted_since st st' = [created]
  | inr event =>
      emitted_since st st' = [created; PoolPublish (_relays st) event] ∧
      ∃ published,
        (send loc recipient st).1 = inr published ∧
        pe_event published = event ∧
        pe_acks published
        = omap (λ relay, fulfilled_value (relay_publish relay event))
            (_relays st) ∧
        pe_fails published
        = omap (λ relay, rejected_reason (relay_publish relay event))
            (_relays st) ∧
        pe_ok published = bool_decide (0 < length (pe_acks published))
  end.
Proof.
  intros Hloc message' config created st'.
  split; [apply quiet_send|].
  destruct (create_event_result loc recipient message st Hloc)
    as (Hres & Htr & Htpl & Hrel & _).
  fold message' config created in Hres, Htr, Htpl.
  unfold st', send.
  destruct (create_event loc recipient st) as [result st1]. simpl in *.
  subst result.
  destruct (create_envelope config (stringify message') recipient)
    as [err|event]; simpl.
  - split; [by rewrite Htpl, lookup_insert_eq|].
    split; [done|]. by apply emitted_since_app.
  - split; [by rewrite Htpl, lookup_insert_eq|]. split.
    + apply emitted_since_app. simpl. by rewrite Htr, Hrel, <- app_assoc.
    + destruct (publish_aggregates event st1) as (Ha & Hf & _).
      unfold _publish in Ha, Hf. cbn [fst] in Ha, Hf.
      rewrite Hrel in Ha, Hf.
      eexists. split; [reflexivity|].
      cbn [pe_event pe_acks pe_fails pe_ok]. rewrite Hrel.
      split_and!; done.
Qed.

(** X5: a template keeps the id that [create_event] gave it.  A second
    [create_event] on the same object draws no new identifier, leaves the
    object as it is and hands the codec the same payload. *)
Theorem create_event_twice (loc : nat) (recipient recipient' : string)
    (message : MessageTemplate) (st : State) :
  templates st !! loc = Some message →
  let message' :=
    {| tpl_id := Some (assigned_id message st);
       tpl_body := tpl_body message |} in
  let config := {| ec_kind := cfg_kind (_config st); ec_tags := [] |} in
  let st1 := (create_event loc recipient st).2 in
  let st2 := (create_event loc recipient' st1).2 in
  (create_event loc recipient' st1).1
  = create_envelope config (stringify message') recipient' ∧
  emitted_since st1 st2
  = [CreateEnvelope config (stringify message') recipient'] ∧
  templates st2 = templates st1 ∧ drawn st2 = drawn st1.
Proof.
  intros Hloc message' config st1 st2.
  destruct (create_event_result loc recipient message st Hloc)
    as (_ & _ & Htpl & _ & Hcf & _).
  fold message' st1 in Htpl, Hcf.
  assert (Hloc1 : templates st1 !! loc = Some message')
    by (by rewrite Htpl, lookup_insert_eq).
  destruct (create_event_result loc recipient' message' st1 Hloc1)
    as (Hres & Htr & Htpl2 & _ & _ & Hdrawn).
  fold st2 in Htr, Htpl2, Hdrawn. simpl in *. rewrite Hcf in Hres, Htr.
  split_and!; try done.
  - by apply emitted_since_app.
  - rewrite Htpl2. by apply insert_id.
Qed.

Lemma request_receipt_keeps (loc : nat) (event : SignedEvent) (st : State) :
  templates (request_receipt loc event st).2 = templates st ∧
  drawn (request_receipt loc event st).2 = drawn st ∧
  _relays (request_receipt loc event st).2 = _relays st ∧
  _pubkey (request_receipt loc event st).2 = _pubkey st.
Proof. unfold request_receipt. simpl. by split_and!. Qed.

Lemma request_keeps_templates_frame (loc : nat) (recipient : string)
    (st : State) :
  templates (request loc recipient st).2 = templates st ∧
  drawn (request loc recipient st).2 = drawn st.
Proof.
  unfold request.
  destruct (templates st !! loc) as [message|] eqn:Hloc; [|done].
  destruct (tpl_id message) as [id|] eqn:Hid; [|done].
  destruct (falsy (Some id)); [done|].
  rewrite (create_event_with_id _ _ _ _ _ Hloc Hid).
  destruct (create_envelope _ _ _) as [err|event]; [done|].
  match goal with
  | |- context [request_receipt loc event ?s] =>
      pose proof (request_receipt_keeps loc event s) as (Htpl & Hdrawn & _);
      destruct (request_receipt loc event s) as [receipt st2]
  end.
  cbn [fst snd] in *. by split.
Qed.

(** X6: [request] never writes to a template and never draws a message
    id, whether it fails or hands out a receipt. *)
Theorem request_keeps_templates (loc : nat) (recipient : string)
    (st : State) :
  templates (request loc recipient st).2 = templates st ∧
  drawn (request loc recipient st).2 = drawn st.
Proof. apply request_keeps_templates_frame. Qed.

End Operations.

(** ** Construction, readiness and closing *)

Section Lifecycle.
Context {Codec : EnvelopeCodec} {Pool : RelayPool} {Util : Helpers}.

Lemma spread_filter_twice (base : EventFilter) (over : option PartialFilter) :
  spread_filter (spread_filter base over) over = spread_filter base over.
Proof.
  unfold spread_filter. simpl.
  by destruct (opt_kinds (default no_filter_options over)),
    (opt_since (default no_filter_options over)).
Qed.

(** X7: the constructor fails with the error of [verify_relays] when the
    relays are refused, before anything else happens.  Otherwise the
    client is not ready, has no subscription, no timer and no pending
    promise, has announced its filter once, and its subscription filter
    is the filter of its configuration: the default kinds [24133] and the
    construction time, each replaced by the filter option when given. *)
Theorem new_client_initial (now : Z) (time : N) (pubkey : string)
    (relays : list string) (options : PartialConfig) :
  match verify_relays relays with
  | Some err => new_NostrClient now time pubkey relays options = inl err
  | None =>
      ∃ st,
        new_NostrClient now time pubkey relays options = inr st ∧
        _pubkey st = pubkey ∧ _relays st = relays ∧
        _ready st = false ∧ _sub st = None ∧
        _filter st = cfg_filter (_config st) ∧
        kinds (_filter st)
        = default [24133%Z] (opt_filter options ≫= opt_kinds) ∧
        since (_filter st) = default now (opt_filter options ≫= opt_since) ∧
        timers st = [] ∧ response_handlers st = [] ∧ promises st = ∅ ∧
        trace st = [Emit (NInfo "filter:" (stringify_filter (_filter st)))]
  end.
Proof.
  unfold new_NostrClient. destruct (verify_relays relays); [done|].
  eexists. split; [reflexivity|]. simpl. unfold get_filter_config.
  rewrite get_node_config_filter, spread_filter_twice.
  split_and!; try done.
  - unfold spread_filter. by destruct (opt_filter options) as [[[ks|] sn]|].
  - unfold spread_filter. by destruct (opt_filter options) as [[ks [sn|]]|].
Qed.

(** X8: the configuration of a client never changes.  Whatever is done
    with a constructed client, its configuration is the one the
    constructor made of the options, its request timeout being 5000
    milliseconds. *)
Theorem config_never_changes (now : Z) (time : N) (pubkey : string)
    (relays : list string) (options : PartialConfig) (st : State)
    (acts : list action) :
  new_NostrClient now time pubkey relays options = inr st →
  _config (run acts st) = get_node_config now options ∧
  cfg_req_timeout (_config (run acts st)) = 5000%Z.
Proof.
  intros Hnew. destruct (reachable_wf _ _ _ _ _ _ acts Hnew) as [_ Hcf].
  by rewrite Hcf.
Qed.

(** What [_init] does to the promises of the listeners. *)
Lemma init_promises (st : State) (p : nat) :
  (p ∈ ready_once st → promises st !! p = Some Pending →
   promises (_init st) !! p = Some (Fulfilled VClient)) ∧
  (p ∉ ready_once st ∨ promises st !! p ≠ Some Pending →
   promises (_init st) !! p = promises st !! p).
Proof.
  unfold _init, ready_emit.
  set (F := λ (s : State) (q : nat), resolve q VClient s).
  set (st1 := log (Emit NReady) (set_ready true st)).
  change (ready_once st1) with (ready_once st).
  change (promises st !! p) with (promises st1 !! p).
  assert (Hother : ∀ s x q, Some x ≠ Some q →
                            promises (F s x) !! q = promises s !! q).
  { intros s x q Hne. apply settle_other. congruence. }
  assert (Hsettled : ∀ s x q, promises s !! q ≠ Some Pending →
                              promises (F s x) !! q = promises s !! q).
  { intros s x q. apply settle_settled. }
  assert (Hpending : ∀ s x q, Some x = Some q →
    promises s !! q = Some Pending →
    promises (F s x) !! q = Some (Fulfilled VClient)).
  { intros s x q [= ->]. apply settle_pending. }
  simpl. split.
  - intros Hin Hp.
    apply (foldl_targeted F Some (Fulfilled VClient)); try done.
    apply list_elem_of_fmap. eauto.
  - intros [Hnin|Hp].
    + rewrite (foldl_untargeted F Some); [done|done|].
      intros Hin. apply Hnin.
      by apply list_elem_of_fmap in Hin as (q & [= ->] & Hq).
    + by rewrite (foldl_settled F).
Qed.

Lemma init_resolves_connects_frame (st : State) :
  next_id (_init st) = next_id st ∧
  response_handlers (_init st) = response_handlers st ∧
  timers (_init st) = timers st.
Proof.
  assert (Hframe : ∀ l s,
    let F := λ (s : State) (p : nat), resolve p VClient s in
    next_id (foldl F s l) = next_id s ∧
    response_handlers (foldl F s l) = response_handlers s ∧
    timers (foldl F s l) = timers s).
  { induction l as [|p l IH]; intros s; simpl; [done|].
    destruct (IH (resolve p VClient s)) as (-> & -> & ->).
    unfold resolve, settle. by destruct (promises s !! p) as [[| |]|]. }
  unfold _init, ready_emit.
  destruct (Hframe (ready_once (log (Emit NReady) (set_ready true st)))
              (log (Emit NReady) (set_ready true st)))
    as (Hn & Hhs & Htm).
  split_and!; [exact Hn|exact Hhs|exact Htm].
Qed.

(** X9: at the end of stored events the client becomes ready, emits
    [ready] once, and every [connect] still waiting is resolved with the
    client, however many there are; the listeners are gone afterwards,
    and no other promise, timer or handler is touched. *)
Theorem init_resolves_connects (st : State) :
  let st' := _init st in
  _ready st' = true ∧ emitted_since st st' = [Emit NReady] ∧
  ready_once st' = [] ∧
  timers st' = timers st ∧ response_handlers st' = response_handlers st ∧
  (∀ p, p ∈ ready_once st → promises st !! p = Some Pending →
        promises st' !! p = Some (Fulfilled VClient)) ∧
  (∀ p, p ∉ ready_once st → promises st' !! p = promises st !! p).
Proof.
  intros st'.
  assert (Hframe : ∀ l s,
    let F := λ (s : State) (p : nat), resolve p VClient s in
    _ready (foldl F s l) = _ready s ∧ trace (foldl F s l) = trace s ∧
    response_handlers (foldl F s l) = response_handlers s ∧
    timers (foldl F s l) = timers s).
  { induction l as [|p l IH]; intros s; simpl; [done|].
    destruct (IH (resolve p VClient s)) as (-> & -> & -> & ->).
    unfold resolve, settle. by destruct (promises s !! p) as [[| |]|]. }
  unfold st', _init, ready_emit.
  destruct (Hframe (ready_once (log (Emit NReady) (set_ready true st)))
              (log (Emit NReady) (set_ready true st)))
    as (Hr & Htr & Hhs & Htm).
  split_and!.
  - exact Hr.
  - apply emitted_since_app. exact Htr.
  - done.
  - exact Htm.
  - exact Hhs.
  - intros p Hin Hp. by apply (init_promises st p).
  - intros p Hnin. apply (init_promises st p). by left.
Qed.

(** X10: [close] closes the subscription when there is one, has the pool
    disconnect, clears the ready flag and emits [close]; it keeps the
    subscription handle, so it can be called again, and it touches no
    promise, timer, handler or listener: what was pending stays
    pending. *)
Theorem close_keeps_pending (st : State) :
  let st' := close st in
  _ready st' = false ∧ _sub st' = _sub st ∧
  emitted_since st st'
  = match _sub st with Some _ => [SubClose] | None => [] end
    ++ [PoolClose (_relays st); Emit NClose] ∧
  promises st' = promises st ∧ timers st' = timers st ∧
  response_handlers st' = response_handlers st ∧
  ready_once st' = ready_once st ∧ clock st' = clock st.
Proof.
  unfold close. destruct (_sub st) eqn:Hsub; simpl; split_and!; try done.
  - apply emitted_since_app. simpl. by rewrite <- !app_assoc.
  - apply emitted_since_app. simpl. by rewrite <- !app_assoc.
Qed.

End Lifecycle.

(** ** Inbound routing *)

Section Routing.
Context {Codec : EnvelopeCodec} {Pool : RelayPool} {Util : Helpers}.

Lemma accept_or_reject_not_request (type : string) :
  type = "accept" ∨ type = "reject" → type ≠ "request".
Proof. by intros [-> | ->]. Qed.

(** X11: a decoded request of another author whose method is not the
    keepalive one goes to the request inbox under its method, then to the
    author inbox under the sender, then out as [message]; the client
    answers nothing, publishes nothing, and changes nothing else. *)
Theorem handler_routes_request (event : SignedEvent) (payload : string)
    (message : Message) (st : State) :
  ev_pubkey event ≠ _pubkey st →
  decrypt_envelope event = inr payload →
  parse_message payload event = inr message →
  msg_type message = "request" → msg_method message ≠ "ping" →
  _handler event st
  = set_trace
      (trace st ++ [Emit (NEvent event);
                    InboxRequest (msg_method message) message;
                    InboxAuthor (ev_pubkey (msg_env message)) message;
                    Emit (NMessage message)]) st.
Proof.
  intros Hother Hd Hp Htype Hmethod. unfold _handler.
  rewrite bool_decide_eq_false_2 by done. rewrite Hd, Hp. unfold route.
  rewrite (bool_decide_eq_true_2 _ Htype).
  rewrite (bool_decide_eq_false_2 _ Hmethod).
  unfold log, set_trace. simpl. by rewrite <- !app_assoc.
Qed.

(** The handler on a response, as a composition. *)
Lemma handler_on_response (event : SignedEvent) (payload : string)
    (message : Message) (st : State) :
  ev_pubkey event ≠ _pubkey st →
  decrypt_envelope event = inr payload →
  parse_message payload event = inr message →
  msg_type message = "accept" ∨ msg_type message = "reject" →
  _handler event st
  = log (Emit (NMessage message))
      (log (InboxAuthor (ev_pubkey (msg_env message)) message)
         (response_emit (msg_id message) message
            (log (Emit (NEvent event)) st))).
Proof.
  intros Hother Hd Hp Htype. unfold _handler.
  rewrite bool_decide_eq_false_2 by done. rewrite Hd, Hp. unfold route.
  rewrite (bool_decide_eq_false_2 _ (accept_or_reject_not_request _ Htype)).
  by rewrite (bool_decide_eq_true_2 _ Htype).
Qed.

Lemma trace_log (e : effect) (st : State) :
  trace (log e st) = trace st ++ [e].
Proof. reflexivity. Qed.

Lemma log_frame (e : effect) (st : State) :
  promises (log e st) = promises st ∧
  response_handlers (log e st) = response_handlers st ∧
  timers (log e st) = timers st ∧ clock (log e st) = clock st ∧
  _pubkey (log e st) = _pubkey st.
Proof. by split_and!. Qed.

Lemma run_handlers_pubkey (msg : Message) (hs : list handler) (st : State) :
  _pubkey (foldl (run_handler msg) st hs) = _pubkey st.
Proof.
  revert st. induction hs as [|h hs IH]; intros st; simpl; [done|].
  rewrite IH. unfold run_handler, resolve, settle.
  by destruct (promises _ !! _) as [[| |]|].
Qed.

Lemma response_emit_unfold (key : string) (msg : Message) (st : State) :
  let hs := filter (λ h, h_key h = key) (response_handlers st) in
  let st1 := foldl (run_handler msg) (log (InboxResponse key msg) st) hs in
  promises (response_emit key msg st) = promises st1 ∧
  response_handlers (response_emit key msg st)
  = filter (λ h, h_key h ≠ key) (response_handlers st) ∧
  _pubkey (response_emit key msg st) = _pubkey st.
Proof.
  cbn zeta. unfold response_emit.
  cbn [promises response_handlers _pubkey set_response_handlers].
  set (hs := filter (λ h, h_key h = key) (response_handlers st)).
  destruct (run_handlers_frame msg hs (log (InboxResponse key msg) st))
    as (_ & _ & _ & _ & Hsame & _).
  split; [done|]. split; [by rewrite Hsame|].
  by rewrite run_handlers_pubkey.
Qed.

(** X12: a decoded message of another author of type [accept] or
    [reject] goes to the response inbox under its id, then to the author
    inbox and out as [message].  Every pending receipt waiting under that
    id is resolved with the message, of either type, and the handlers
    under that id are gone; the handlers under other ids stay, and the
    receipts they wait for are as they were. *)
Theorem handler_routes_response (event : SignedEvent) (payload : string)
    (message : Message) (st : State) :
  ev_pubkey event ≠ _pubkey st →
  decrypt_envelope event = inr payload →
  parse_message payload event = inr message →
  msg_type message = "accept" ∨ msg_type message = "reject" →
  let st' := _handler event st in
  emitted_since st st'
  = [Emit (NEvent event); InboxResponse (msg_id message) message;
     InboxAuthor (ev_pubkey (msg_env message)) message;
     Emit (NMessage message)] ∧
  (∀ h, h ∈ response_handlers st → h_key h = msg_id message →
        promises st !! h_receipt h = Some Pending →
        promises st' !! h_receipt h = Some (Fulfilled (VMessage message))) ∧
  (∀ h, h ∈ response_handlers st' ↔
        h ∈ response_handlers st ∧ h_key h ≠ msg_id message) ∧
  (∀ p, (∀ h, h ∈ response_handlers st → h_key h = msg_id message →
              h_receipt h ≠ p) →
        promises st' !! p = promises st !! p).
Proof.
  intros Hother Hd Hp Htype st'. unfold st'.
  rewrite (handler_on_response _ _ _ _ Hother Hd Hp Htype).
  set (key := msg_id message).
  set (st0 := log (Emit (NEvent event)) st).
  destruct (response_emit_unfold key message st0) as (Hprom & Hhandlers & _).
  cbn zeta in Hprom. 
  set (hs := filter (λ h, h_key h = key) (response_handlers st0)) in *.
  assert (Hhs : ∀ h, h ∈ hs ↔ h_key h = key ∧ h ∈ response_handlers st)
    by (intros h; unfold hs; by rewrite list_elem_of_filter).
  destruct (log_frame (Emit (NMessage message))
              (log (InboxAuthor (ev_pubkey (msg_env message)) message)
                 (response_emit key message st0))) as (-> & -> & _).
  destruct (log_frame (InboxAuthor (ev_pubkey (msg_env message)) message)
              (response_emit key message st0)) as (-> & -> & _).
  rewrite Hprom, Hhandlers.
  split_and!.
  - apply emitted_since_app.
    rewrite !trace_log, response_emit_trace. unfold st0.
    rewrite trace_log. by rewrite <- !app_assoc.
  - intros h Hin Hkey Hpend.
    apply run_handlers_pending; [done|].
    apply list_elem_of_fmap. exists h. split; [done|]. by apply Hhs.
  - intros h. rewrite list_elem_of_filter. unfold st0.
    destruct (log_frame (Emit (NEvent event)) st) as (_ & -> & _). tauto.
  - intros p Hnone.
    rewrite run_handlers_settled; [done|].
    right. intros Hin. apply list_elem_of_fmap in Hin as (h & -> & Hh).
    apply Hhs in Hh as [Hkey Hh]. by apply (Hnone h).
Qed.

(** The trace of the handler on a decoded message, by the kind of the
    message. *)
Lemma handler_decoded (event : SignedEvent) (payload : string)
    (message : Message) (st : State) :
  ev_pubkey event ≠ _pubkey st →
  decrypt_envelope event = inr payload →
  parse_message payload event = inr message →
  let sender := ev_pubkey (msg_env message) in
  let tail := [InboxAuthor sender message; Emit (NMessage message)] in
  emitted_since st (_handler event st)
  = Emit (NEvent event)
    :: if bool_decide (msg_type message = "request") then
         if bool_decide (msg_method message = "ping")
         then pong_effects message st
         else InboxRequest (msg_method message) message :: tail
       else if bool_decide (msg_type message = "accept"
                            ∨ msg_type message = "reject")
       then InboxResponse (msg_id message) message :: tail
       else tail.
Proof.
  intros Hother Hd Hp sender tail.
  destruct (bool_decide (msg_type message = "request")) eqn:Hrequest.
  - apply bool_decide_eq_true in Hrequest.
    destruct (bool_decide (msg_method message = "ping")) eqn:Hping.
    + apply bool_decide_eq_true in Hping. apply emitted_since_app.
      unfold _handler. rewrite bool_decide_eq_false_2 by done.
      rewrite Hd, Hp. unfold route, _pong.
      rewrite (bool_decide_eq_true_2 _ Hrequest).
      rewrite !(bool_decide_eq_true_2 _ Hping).
      unfold create_event. simpl. rewrite lookup_insert_eq. simpl.
      unfold pong_effects.
      destruct (create_envelope _ _ _) as [e|reply_event]; simpl;
        by rewrite <- !app_assoc.
    + apply bool_decide_eq_false in Hping.
      apply emitted_since_app. unfold _handler.
      rewrite bool_decide_eq_false_2 by done. rewrite Hd, Hp. unfold route.
      rewrite (bool_decide_eq_true_2 _ Hrequest).
      rewrite (bool_decide_eq_false_2 _ Hping).
      simpl. by rewrite <- !app_assoc.
  - apply bool_decide_eq_false in Hrequest.
    destruct (bool_decide (_ ∨ _)) eqn:Hresponse.
    + apply bool_decide_eq_true in Hresponse. apply emitted_since_app.
      rewrite (handler_on_response _ _ _ _ Hother Hd Hp Hresponse).
      rewrite !trace_log, response_emit_trace, trace_log.
      by rewrite <- !app_assoc.
    + apply emitted_since_app. unfold _handler.
      rewrite bool_decide_eq_false_2 by done. rewrite Hd, Hp. unfold route.
      rewrite (bool_decide_eq_false_2 _ Hrequest), Hresponse.
      simpl. by rewrite <- !app_assoc.
Qed.

(** The trace of the handler on an event that is not decoded. *)
Lemma handler_undecoded (event : SignedEvent) (st : State) :
  ev_pubkey event = _pubkey st ∨
  (∃ err, decrypt_envelope event = inl err) ∨
  (∃ payload err, decrypt_envelope event = inr payload ∧
                  parse_message payload event = inl err) →
  ∀ e, e ∈ emitted_since st (_handler event st) → ∃ n, e = Emit n.
Proof.
  intros Hcase e.
  destruct (decide (ev_pubkey event = _pubkey st)) as [Hown|Hother].
  { rewrite handler_own_event, emitted_since_refl by done.
    intros Hin. by apply elem_of_nil in Hin. }
  assert (Hbounce : ∃ err,
    _handler event st = bounce event err (log (Emit (NEvent event)) st)).
  { unfold _handler. rewrite bool_decide_eq_false_2 by done.
    destruct Hcase as [?|[[err Hd]|(payload & err & Hd & Hp)]]; [done| |].
    - rewrite Hd. eauto.
    - rewrite Hd, Hp. eauto. }
  destruct Hbounce as [err ->]. rewrite bounce_trace.
  rewrite (emitted_since_app st _
             [Emit (NEvent event); Emit (NError err);
              Emit (NBounced (ev_id event) (parse_error err))]) by done.
  intros Hin. repeat (apply elem_of_cons in Hin as [->|Hin]; [eauto|]).
  by apply elem_of_nil in Hin.
Qed.

(** X13: the handler publishes only in answer to a keepalive request.
    If an inbound event makes the client publish, the event is of another
    author and decodes to a request with the method [ping], and what is
    published, to the relays of the client, is the envelope of the reply
    [{ result: 'pong', id }] for the sender. *)
Theorem handler_publishes_only_pong (event : SignedEvent) (st : State)
    (relays : list string) (published : SignedEvent) :
  PoolPublish relays published ∈ emitted_since st (_handler event st) →
  ev_pubkey event ≠ _pubkey st ∧
  ∃ payload message,
    decrypt_envelope event = inr payload ∧
    parse_message payload event = inr message ∧
    msg_type message = "request" ∧ msg_method message = "ping" ∧
    relays = _relays st ∧
    create_envelope {| ec_kind := cfg_kind (_config st); ec_tags := [] |}
      (stringify {| tpl_id := Some (msg_id message);
                    tpl_body := TplResult "pong" |})
      (ev_pubkey (msg_env message))
    = inr published.
Proof.
  intros Hin.
  assert (Hno : ∀ n, PoolPublish relays published ≠ Emit n) by done.
  destruct (decide (ev_pubkey event = _pubkey st)) as [Hown|Hother].
  { destruct (handler_undecoded event st (or_introl Hown) _ Hin) as [n Hn].
    by destruct (Hno n). }
  split; [done|].
  destruct (decrypt_envelope event) as [err|payload] eqn:Hd.
  { destruct (handler_undecoded event st
                (or_intror (or_introl (ex_intro _ err Hd))) _ Hin) as [n Hn].
    by destruct (Hno n). }
  destruct (parse_message payload event) as [err|message] eqn:Hp.
  { assert (Hcase : ∃ payload err,
      decrypt_envelope event = inr payload ∧
      parse_message payload event = inl err) by eauto.
    destruct (handler_undecoded event st
                (or_intror (or_intror Hcase)) _ Hin) as [n Hn].
    by destruct (Hno n). }
  exists payload, message.
  rewrite (handler_decoded _ _ _ _ Hother Hd Hp) in Hin.
  apply elem_of_cons in Hin as [Hin|Hin]; [done|].
  destruct (bool_decide (msg_type message = "request")) eqn:Hrequest.
  - apply bool_decide_eq_true in Hrequest.
    destruct (bool_decide (msg_method message = "ping")) eqn:Hping.
    + apply bool_decide_eq_true in Hping. unfold pong_effects in Hin.
      apply elem_of_app in Hin as [Hin|Hin].
      { repeat (apply elem_of_cons in Hin as [Hin|Hin]; [done|]).
        by apply elem_of_nil in Hin. }
      destruct (create_envelope _ _ _) as [err|reply];
        [by apply elem_of_nil in Hin|].
      apply list_elem_of_singleton in Hin. injection Hin as -> ->.
      by split_and!.
    + repeat (apply elem_of_cons in Hin as [Hin|Hin]; [done|]).
      by apply elem_of_nil in Hin.
  - destruct (bool_decide (_ ∨ _));
      repeat (apply elem_of_cons in Hin as [Hin|Hin]; [done|]);
      by apply elem_of_nil in Hin.
Qed.

(** X20: every message decoded from an event of another author, of
    whatever type, is emitted once on the author inbox under the sender
    and then once as [message], after the routing by type; the only thing
    that can follow is the publication of a keepalive reply. *)
Theorem handler_notifies_author_once (event : SignedEvent)
    (payload : string) (message : Message) (st : State) :
  ev_pubkey event ≠ _pubkey st →
  decrypt_envelope event = inr payload →
  parse_message payload event = inr message →
  ∃ before after,
    emitted_since st (_handler event st)
    = before
      ++ [InboxAuthor (ev_pubkey (msg_env message)) message;
          Emit (NMessage message)]
      ++ after ∧
    (∀ e, e ∈ before ++ after →
          (∀ key m, e ≠ InboxAuthor key m) ∧ (∀ m, e ≠ Emit (NMessage m))) ∧
    (∀ e, e ∈ after → ∃ relays reply, e = PoolPublish relays reply).
Proof.
  intros Hother Hd Hp.
  rewrite (handler_decoded _ _ _ _ Hother Hd Hp).
  destruct (bool_decide (msg_type message = "request")).
  - destruct (bool_decide (msg_method message = "ping")).
    + unfold pong_effects.
      exists [Emit (NEvent event);
              CreateEnvelope
                {| ec_kind := cfg_kind (_config st); ec_tags := [] |}
                (stringify {| tpl_id := Some (msg_id message);
                              tpl_body := TplResult "pong" |})
                (ev_pubkey (msg_env message))].
      destruct (create_envelope _ _ _) as [err|reply].
      * exists []. split; [done|]. split.
        -- intros e Hin.
           repeat (apply elem_of_cons in Hin as [->|Hin]; [done|]).
           by apply elem_of_nil in Hin.
        -- intros e Hin. by apply elem_of_nil in Hin.
      * exists [PoolPublish (_relays st) reply]. split; [done|]. split.
        -- intros e Hin.
           repeat (apply elem_of_cons in Hin as [->|Hin]; [done|]).
           by apply elem_of_nil in Hin.
        -- intros e Hin. apply list_elem_of_singleton in Hin. eauto.
    + exists [Emit (NEvent event);
              InboxRequest (msg_method message) message], [].
      split; [done|]. split.
      * intros e Hin.
        repeat (apply elem_of_cons in Hin as [->|Hin]; [done|]).
        by apply elem_of_nil in Hin.
      * intros e Hin. by apply elem_of_nil in Hin.
  - destruct (bool_decide (_ ∨ _)).
    + exists [Emit (NEvent event);
              InboxResponse (msg_id message) message], [].
      split; [done|]. split.
      * intros e Hin.
        repeat (apply elem_of_cons in Hin as [->|Hin]; [done|]).
        by apply elem_of_nil in Hin.
      * intros e Hin. by apply elem_of_nil in Hin.
    + exists [Emit (NEvent event)], [].
      split; [done|]. split.
      * intros e Hin.
        repeat (apply elem_of_cons in Hin as [->|Hin]; [done|]).
        by apply elem_of_nil in Hin.
      * intros e Hin. by apply elem_of_nil in Hin.
Qed.

End Routing.

(** ** Handlers over runs *)

Section Tending.
Context {Codec : EnvelopeCodec} {Pool : RelayPool} {Util : Helpers}.

Lemma tidy_subset (st st' : State) :
  tidy st → next_id st ≤ next_id st' →
  (∀ h, h ∈ response_handlers st' → h ∈ response_handlers st) →
  (∀ t, t ∈ timers st' → t ∈ timers st) →
  (∀ q, q ∈ ready_once st' → q ∈ ready_once st) → tidy st'.
Proof.
  intros (Hwf & Hh & Ht) Hn Hhs Hts Hrs.
  rewrite Forall_forall in Hh. rewrite Forall_forall in Ht.
  unfold tidy. rewrite !Forall_forall. split_and!.
  - by apply (wf_subset st).
  - intros h Hin. specialize (Hh h (Hhs h Hin)). simpl in Hh. lia.
  - intros t Hin hid Hact. specialize (Ht t (Hts t Hin) hid Hact). lia.
Qed.

Lemma tends_refl (st : State) : tidy st → tends st st.
Proof. intros Htidy. split; auto. Qed.

Lemma tends_trans (st st' st'' : State) :
  tidy st → evolves st st' → evolves st' st'' →
  tends st st' → tends st' st'' → tends st st''.
Proof.
  intros (Hwf & Hh & _) E1 E2 [_ M1 K1] [D2 M2 K2].
  rewrite Forall_forall in Hh.
  destruct (ev_trace _ _ E1) as [l1 T1]. destruct (ev_trace _ _ E2) as [l2 T2].
  assert (T : trace st'' = trace st ++ l1 ++ l2)
    by (by rewrite T2, T1, <- app_assoc).
  pose proof (ev_next _ _ E1) as N1. pose proof (ev_clock _ _ E2) as C2.
  split; [done| |].
  - intros t Ht. destruct (M2 t Ht) as [Hin|Hfresh]; [auto|].
    right. intros hid Hact. specialize (Hfresh hid Hact). lia.
  - intros h Hin.
    destruct (K1 h Hin) as [Hin1|[(t & Ht & Hact & Hdue)|[m Hem]]].
    + destruct (K2 h Hin1) as [Hin2|[(t & Ht & Hact & Hdue)|[m Hem]]].
      * by left.
      * right. left. destruct (M1 t Ht) as [Hold|Hfresh].
        -- exists t. auto.
        -- specialize (Hfresh _ Hact). specialize (Hh h Hin).
           simpl in Hh. lia.
      * right. right. exists m.
        apply (elem_of_emitted _ _ _ _ T).
        apply (elem_of_emitted _ _ _ _ T2) in Hem. set_solver.
    + right. left. exists t. split_and!; try done. lia.
    + right. right. exists m.
      apply (elem_of_emitted _ _ _ _ T).
      apply (elem_of_emitted _ _ _ _ T1) in Hem. set_solver.
Qed.

Lemma tends_quiet (st st' : State) : tidy st → quiet st st' → tends st st'.
Proof.
  intros Htidy (N & C & _ & _ & Hh & Hm & Hr & _). split.
  - apply (tidy_subset st); try done.
    + intros h. by rewrite Hh.
    + intros t. by rewrite Hm.
    + intros q. by rewrite Hr.
  - intros t. rewrite Hm. auto.
  - intros h. rewrite Hh. auto.
Qed.

Lemma response_emit_frame (key : string) (msg : Message) (st : State) :
  next_id (response_emit key msg st) = next_id st ∧
  clock (response_emit key msg st) = clock st ∧
  ready_once (response_emit key msg st) = ready_once st ∧
  (∀ t, t ∈ timers (response_emit key msg st) → t ∈ timers st).
Proof.
  unfold response_emit.
  cbn [next_id clock ready_once timers set_response_handlers].
  destruct (run_handlers_frame msg
              (filter (λ h, h_key h = key) (response_handlers st))
              (log (InboxResponse key msg) st))
    as (-> & -> & _ & _ & _ & -> & Htm).
  split_and!; try done. intros t Hin. by apply Htm in Hin as [? _].
Qed.

Lemma tends_response_emit (key : string) (msg : Message) (st : State) :
  tidy st → tends st (response_emit key msg st).
Proof.
  intros Htidy.
  destruct (response_emit_frame key msg st) as (Hn & Hc & Hro & Htm).
  destruct (response_emit_unfold key msg st) as (_ & Hhs & _).
  split.
  - apply (tidy_subset st); try done.
    + lia.
    + intros h. rewrite Hhs, list_elem_of_filter. tauto.
    + intros q. by rewrite Hro.
  - auto.
  - intros h Hin. destruct (decide (h_key h = key)) as [Hkey|Hkey].
    + right. right. exists msg.
      apply (elem_of_emitted _ _ _ [InboxResponse key msg]).
      * apply response_emit_trace.
      * rewrite Hkey. left.
    + left. rewrite Hhs, list_elem_of_filter. by split.
Qed.

Lemma fire_all_keeps (ts : list timer) (st : State) (h : handler) :
  h ∈ response_handlers st →
  h ∈ response_handlers (foldl fire st ts) ∨
  ∃ t, t ∈ ts ∧ tm_action t = RemoveHandler (h_id h).
Proof.
  revert st. induction ts as [|t ts IH]; intros st Hin; simpl; [by left|].
  destruct (tm_action t) as [q|hid] eqn:Hact.
  - destruct (IH (fire st t)) as [Hkept|(t' & Ht' & Hact')].
    + unfold fire. rewrite Hact. unfold reject.
      by destruct (settle_frame q (Rejected (ErrStr "timeout")) st)
        as (_ & _ & _ & _ & -> & _).
    + by left.
    + right. exists t'. split; [by right|done].
  - destruct (decide (hid = h_id h)) as [->|Hne].
    + right. exists t. split; [left|done].
    + destruct (IH (fire st t)) as [Hkept|(t' & Ht' & Hact')].
      * unfold fire. rewrite Hact. simpl. apply list_elem_of_filter.
        split; [congruence|done].
      * by left.
      * right. exists t'. split; [by right|done].
Qed.

Lemma tends_tick (dt : N) (st : State) : tidy st → tends st (tick dt st).
Proof.
  intros Htidy. unfold tick.
  set (now := (clock st + dt)%N).
  set (due := filter (λ t, (tm_due t ≤ now)%N) (timers st)).
  set (rest := filter (λ t, (now < tm_due t)%N) (timers st)).
  set (st0 := set_clock now (set_timers rest st)).
  destruct (fire_all_frame due st0) as (Hn & Hc & _ & _ & Htm & Hro & Hhs).
  assert (Hsub : ∀ t, t ∈ timers (foldl fire st0 due) → t ∈ timers st).
  { intros t. rewrite Htm. simpl. unfold rest.
    rewrite list_elem_of_filter. tauto. }
  split; [|auto|].
  - apply (tidy_subset st); try done.
    + rewrite Hn. simpl. lia.
    + intros q. by rewrite Hro.
  - intros h Hin.
    destruct (fire_all_keeps due st0 h Hin) as [Hkept|(t & Ht & Hact)];
      [by left|].
    right. left. exists t. unfold due in Ht.
    apply list_elem_of_filter in Ht as [Hle Ht].
    split_and!; try done. by rewrite Hc.
Qed.

Lemma tends_init (st : State) : tidy st → tends st (_init st).
Proof.
  intros Htidy.
  destruct (init_resolves_connects_frame st) as (Hn & Hhs & Htm).
  split.
  - apply (tidy_subset st); try done.
    + lia.
    + intros h. by rewrite Hhs.
    + intros t. by rewrite Htm.
    + intros q Hq. exfalso. revert Hq. apply not_elem_of_nil.
  - intros t. rewrite Htm. auto.
  - intros h. rewrite Hhs. auto.
Qed.

Lemma tends_connect (timeout : option Z) (st : State) :
  tidy st → tends st (connect timeout st).2.
Proof.
  intros Htidy.
  pose proof (evolves_connect timeout st (proj1 Htidy)) as E.
  destruct Htidy as (Hwf & Hh & Ht).
  rewrite Forall_forall in Hh. rewrite Forall_forall in Ht.
  split; [|by left|by left].
  split; [apply E|]. rewrite !Forall_forall. split.
  - intros h Hin. specialize (Hh h Hin). simpl in *. lia.
  - intros t Hin hid Hact. specialize (Ht t Hin hid Hact). simpl. lia.
Qed.

Lemma tends_request_receipt (loc : nat) (event : SignedEvent) (st : State) :
  tidy st → tends st (request_receipt loc event st).2.
Proof.
  intros Htidy.
  pose proof (evolves_request_receipt loc event st (proj1 Htidy)) as E.
  destruct (request_receipt_fields loc event st)
    as (_ & _ & Hhs & Htm & _ & Hn & _).
  set (st' := (request_receipt loc event st).2) in *.
  destruct Htidy as (Hwf & Hh & Ht).
  rewrite Forall_forall in Hh. rewrite Forall_forall in Ht.
  assert (Hnew : ∀ t, t ∈ timers st' →
    t ∈ timers st ∨
    ∀ hid, tm_action t = RemoveHandler hid → hid = S (S (next_id st))).
  { intros t. rewrite Htm, !elem_of_insert_timer.
    intros [->|[->|?]]; auto; right; simpl; congruence. }
  split.
  - split; [apply E|]. rewrite !Forall_forall. split.
    + intros h. rewrite Hhs, elem_of_app, list_elem_of_singleton, Hn.
      intros [Hold| ->]; [|simpl; lia]. specialize (Hh h Hold).
      simpl in Hh. lia.
    + intros t Hin hid Hact. rewrite Hn.
      destruct (Hnew t Hin) as [Hold|Hfresh].
      * specialize (Ht t Hold hid Hact). lia.
      * specialize (Hfresh hid Hact). lia.
  - intros t Hin. destruct (Hnew t Hin) as [Hold|Hfresh]; [by left|].
    right. intros hid Hact. specialize (Hfresh hid Hact). lia.
  - intros h Hin. left. rewrite Hhs. apply elem_of_app. by left.
Qed.

(** *** An induction principle on steps

    A transitive relation that holds of the quiet steps and of the five
    steps that touch the bus, the timers or the promises holds of every
    step. *)
Section StepInduction.
Variable I : State → Prop.
Variable R : State → State → Prop.
Hypothesis R_inv : ∀ st st', I st → R st st' → I st'.
Hypothesis R_refl : ∀ st, I st → R st st.
Hypothesis R_trans : ∀ st st' st'',
  I st → R st st' → R st' st'' → R st st''.
Hypothesis R_quiet : ∀ st st', I st → quiet st st' → R st st'.
Hypothesis R_emit : ∀ key m st, I st → R st (response_emit key m st).
Hypothesis R_tick : ∀ dt st, I st → R st (tick dt st).
Hypothesis R_init : ∀ st, I st → R st (_init st).
Hypothesis R_connect : ∀ t st, I st → R st (connect t st).2.
Hypothesis R_receipt : ∀ loc event st,
  I st → R st (request_receipt loc event st).2.

Lemma rel_quiet_l (st st1 st2 : State) :
  I st → quiet st st1 → (I st1 → R st1 st2) → R st st2.
Proof.
  intros HI Hq HR. pose proof (R_quiet _ _ HI Hq) as R1.
  eapply R_trans; [done|exact R1|]. apply HR. by apply (R_inv st).
Qed.

Lemma rel_quiet_r (st st1 st2 : State) :
  I st → R st st1 → quiet st1 st2 → R st st2.
Proof.
  intros HI R1 Hq. eapply R_trans; [done|exact R1|].
  apply R_quiet; [by apply (R_inv st)|done].
Qed.

Lemma rel_route (message : Message) (st : State) :
  I st →
  match route message st with
  | inl _ => True
  | inr (_, st') => R st st'
  end.
Proof.
  intros HI. unfold route.
  destruct (bool_decide (msg_type message = "request")).
  - destruct (bool_decide (msg_method message = "ping")) eqn:Hping.
    + unfold _pong. rewrite Hping.
      set (loc := next_id st).
      set (template := {| tpl_id := Some (msg_id message);
                          tpl_body := TplResult "pong" |}).
      pose proof (quiet_new_template template st) as Hq1.
      pose proof (quiet_create_event loc (ev_pubkey (msg_env message))
                    (new_template template st)) as Hq2.
      unfold new_template in Hq1, Hq2. fold loc in Hq1, Hq2.
      destruct (create_event loc _ _) as [created st'] eqn:Hcreate.
      cbn [snd] in *. apply R_quiet; [done|].
      eapply quiet_trans; [exact Hq1|exact Hq2].
    + apply R_quiet; [done|apply quiet_log].
  - destruct (bool_decide (_ ∨ _)).
    + by apply R_emit.
    + by apply R_refl.
Qed.

Lemma rel_handler (event : SignedEvent) (st : State) :
  I st → R st (_handler event st).
Proof.
  intros HI. unfold _handler.
  destruct (bool_decide (ev_pubkey event = _pubkey st));
    [by apply R_refl|].
  set (st1 := log (Emit (NEvent event)) st).
  assert (Hq1 : quiet st st1) by apply quiet_log.
  assert (Hbounce : ∀ err, R st (bounce event err st1)).
  { intros err. apply R_quiet; [done|].
    eapply quiet_trans; [exact Hq1|apply quiet_bounce]. }
  destruct (decrypt_envelope event) as [err|payload]; [done|].
  destruct (parse_message payload event) as [err|message]; [done|].
  apply (rel_quiet_l st st1); [done|done|]. intros HI1.
  pose proof (rel_route message st1 HI1) as Hroute.
  destruct (route message st1) as [err|[pending st2]].
  { apply R_quiet; [done|apply quiet_bounce]. }
  apply (rel_quiet_r st1 st2); [done|done|].
  set (st4 := log (Emit (NMessage message)) (log _ st2)).
  assert (Hq4 : quiet st2 st4) by (eapply quiet_trans; apply quiet_log).
  destruct pending as [created|]; [|done].
  eapply quiet_trans; [exact Hq4|apply quiet_send_resume].
Qed.

Lemma rel_request (loc : nat) (recipient : string) (st : State) :
  I st → R st (request loc recipient st).2.
Proof.
  intros HI. unfold request.
  destruct (templates st !! loc) as [message|]; [|by apply R_refl].
  destruct (falsy (tpl_id message)); [by apply R_refl|].
  pose proof (quiet_create_event loc recipient st) as Hq.
  destruct (create_event loc recipient st) as [[err|event] st1];
    cbn [fst snd] in *.
  { by apply R_quiet. }
  apply (rel_quiet_l st st1); [done|done|]. intros HI1.
  pose proof (R_receipt loc event st1 HI1) as HR.
  destruct (request_receipt loc event st1) as [receipt st2]. exact HR.
Qed.

Lemma rel_ping (recipient : string) (st : State) :
  I st → R st (ping recipient st).2.
Proof.
  intros HI. unfold ping.
  match goal with
  | |- R st (request _ _ ?s).2 => set (st1 := s)
  end.
  apply (rel_quiet_l st st1); [done| |apply rel_request].
  unfold quiet, st1. simpl. split_and!; try done; [lia|].
  exists []. by rewrite app_nil_r.
Qed.

Lemma rel_step (a : action) (st : State) : I st → R st (step st a).
Proof.
  intros HI. destruct a; cbn [step].
  - by apply R_tick.
  - by apply rel_handler.
  - by apply R_init.
  - by apply R_emit.
  - apply R_quiet; [done|apply quiet_new_template].
  - by apply R_connect.
  - apply R_quiet; [done|apply quiet_close].
  - apply R_quiet; [done|apply quiet_send].
  - by apply rel_request.
  - by apply rel_ping.
Qed.

Lemma rel_run (acts : list action) (st : State) : I st → R st (run acts st).
Proof.
  revert st. induction acts as [|a acts IH]; intros st HI; simpl.
  - by apply R_refl.
  - pose proof (rel_step a st HI) as R1.
    eapply R_trans; [done|exact R1|]. apply IH. by apply (R_inv st).
Qed.

End StepInduction.

Lemma run_grows (acts : list action) (st : State) :
  tidy st → grows st (run acts st).
Proof.
  apply (rel_run tidy grows).
  - intros s s' _ [_ T]. apply T.
  - intros s Hs. split; [apply evolves_refl, Hs|by apply tends_refl].
  - intros s s' s'' Hs [E1 T1] [E2 T2]. split.
    + eapply evolves_trans; [apply Hs|done..].
    + by apply (tends_trans s s' s'').
  - intros s s' Hs Hq. split;
      [apply evolves_of_quiet; [apply Hs|done]|by apply tends_quiet].
  - intros key m s Hs. split;
      [apply evolves_response_emit, Hs|by apply tends_response_emit].
  - intros dt s Hs. split; [apply evolves_tick, Hs|by apply tends_tick].
  - intros s Hs. split; [apply evolves_init, Hs|by apply tends_init].
  - intros t s Hs. split; [apply evolves_connect, Hs|by apply tends_connect].
  - intros loc event s Hs. split;
      [apply evolves_request_receipt, Hs|by apply tends_request_receipt].
Qed.

(** A constructed client is tidy, and so is every state it reaches. *)
Lemma new_client_tidy (now : Z) (time : N) (pubkey : string)
    (relays : list string) (options : PartialConfig) (st : State)
    (acts : list action) :
  new_NostrClient now time pubkey relays options = inr st →
  tidy (run acts st).
Proof.
  intros Hnew. apply (run_grows acts st).
  destruct (new_client_wf _ _ _ _ _ _ Hnew) as (Hwf & _).
  split; [done|]. unfold new_NostrClient in Hnew.
  destruct (verify_relays relays); [done|]. injection Hnew as <-.
  split; apply Forall_nil_2.
Qed.

End Tending.

(** ** Template objects over a run *)

Section Keeping.
Context {Codec : EnvelopeCodec} {Pool : RelayPool} {Util : Helpers}.

Lemma keeps_refl (st : State) : keeps st st.
Proof. by split. Qed.

Lemma keeps_trans (st st' st'' : State) :
  keeps st st' → keeps st' st'' → keeps st st''.
Proof.
  intros [N1 K1] [N2 K2]. split; [lia|].
  intros loc message Hlt Hloc Hid. apply K2; [lia| |done]. by apply K1.
Qed.

(** A step that leaves the template objects alone. *)
Lemma keeps_same (st st' : State) :
  next_id st ≤ next_id st' → templates st' = templates st → keeps st st'.
Proof.
  intros HN HT. split; [done|]. intros loc message _ Hloc _.
  by rewrite HT.
Qed.

(** A step that writes one object: a new one, or one without an id. *)
Lemma keeps_insert (st st' : State) (loc : nat) (message : MessageTemplate) :
  next_id st ≤ next_id st' →
  templates st' = <[loc := message]> (templates st) →
  (next_id st ≤ loc ∨
   ∃ old, templates st !! loc = Some old ∧ tpl_id old = None) →
  keeps st st'.
Proof.
  intros HN HT Hloc. split; [done|]. intros loc' message' Hlt Hloc' Hid.
  rewrite HT, lookup_insert_ne; [done|]. intros ->.
  destruct Hloc as [Hnew|(old & Hold & Hnone)]; [lia|].
  rewrite Hold in Hloc'. injection Hloc' as ->. rewrite Hnone in Hid.
  by destruct Hid.
Qed.

Lemma keeps_settle (p : nat) (s : promise value) (st : State) :
  keeps st (settle p s st).
Proof.
  unfold settle. destruct (promises st !! p) as [[| |]|];
    try apply keeps_refl. by apply keeps_same.
Qed.

Lemma keeps_foldl {A} (f : State → A → State) (l : list A) (st : State) :
  (∀ s x, keeps s (f s x)) → keeps st (foldl f st l).
Proof.
  intros Hf. revert st. induction l as [|x l IH]; intros st; simpl.
  - apply keeps_refl.
  - eapply keeps_trans; [apply Hf|apply IH].
Qed.

Lemma keeps_tick (dt : N) (st : State) : keeps st (tick dt st).
Proof.
  unfold tick. eapply keeps_trans; [|apply keeps_foldl].
  - by apply keeps_same.
  - intros s t. unfold fire. destruct (tm_action t).
    + apply keeps_settle.
    + by apply keeps_same.
Qed.

Lemma keeps_response_emit (key : string) (m : Message) (st : State) :
  keeps st (response_emit key m st).
Proof.
  unfold response_emit. cbn zeta.
  set (st0 := log (InboxResponse key m) st).
  set (st1 := foldl (run_handler m) st0 _).
  apply (keeps_trans _ st0); [by apply keeps_same|].
  apply (keeps_trans _ st1); [apply keeps_foldl|by apply keeps_same].
  intros s h. unfold run_handler, resolve.
  eapply keeps_trans; [|apply keeps_settle]. by apply keeps_same.
Qed.

Lemma keeps_init (st : State) : keeps st (_init st).
Proof.
  unfold _init, ready_emit. cbn zeta.
  set (s1 := log (Emit NReady) (set_ready true st)).
  set (s2 := foldl _ s1 _).
  apply (keeps_trans _ s1); [by apply keeps_same|].
  apply (keeps_trans _ s2); [apply keeps_foldl|by apply keeps_same].
  intros s p. apply keeps_settle.
Qed.

Lemma keeps_create_event (loc : nat) (recipient : string) (st : State) :
  keeps st (create_event loc recipient st).2.
Proof.
  unfold create_event.
  destruct (templates st !! loc) as [message|] eqn:Hloc;
    [|apply keeps_refl].
  unfold assign_id. destruct (tpl_id message) eqn:Hid; cbn [snd].
  - by apply keeps_same.
  - apply (keeps_insert _ _ loc
             {| tpl_id := Some (gen_message_id (drawn st));
                tpl_body := tpl_body message |}); try done.
    right. by exists message.
Qed.

Lemma keeps_send (loc : nat) (recipient : string) (st : State) :
  keeps st (send loc recipient st).2.
Proof.
  unfold send. pose proof (keeps_create_event loc recipient st) as Hc.
  destruct (create_event loc recipient st) as [[err|event] st1];
    cbn [snd] in *; [done|].
  eapply keeps_trans; [exact Hc|]. by apply keeps_same.
Qed.

Lemma keeps_request_receipt (loc : nat) (event : SignedEvent) (st : State) :
  keeps st (request_receipt loc event st).2.
Proof.
  destruct (request_receipt_fields loc event st)
    as (_ & _ & _ & _ & _ & Hn & _ & _ & Ht & _).
  apply keeps_same; [|done]. rewrite Hn. lia.
Qed.

Lemma keeps_request (loc : nat) (recipient : string) (st : State) :
  keeps st (request loc recipient st).2.
Proof.
  unfold request. destruct (templates st !! loc) as [message|];
    [|apply keeps_refl].
  destruct (falsy (tpl_id message)); [apply keeps_refl|].
  pose proof (keeps_create_event loc recipient st) as Hc.
  destruct (create_event loc recipient st) as [[err|event] st1];
    cbn [snd] in *; [done|].
  pose proof (keeps_request_receipt loc event st1) as Hr.
  destruct (request_receipt loc event st1) as [receipt st2].
  cbn [snd] in *. by eapply keeps_trans.
Qed.

(** A fresh object at the next identifier. *)
Lemma keeps_new_template (template : MessageTemplate) (st : State) :
  keeps st (new_template template st).
Proof.
  apply (keeps_insert _ _ (next_id st) template); simpl; [lia|done|].
  by left.
Qed.

Lemma keeps_ping (recipient : string) (st : State) :
  keeps st (ping recipient st).2.
Proof.
  unfold ping. cbn zeta.
  eapply keeps_trans; [|apply keeps_request].
  apply (keeps_insert _ _ (next_id st)
           {| tpl_id := Some (gen_message_id (drawn st));
              tpl_body := TplRequest "ping" |}); simpl; [lia|done|].
  by left.
Qed.

Lemma keeps_bounce (event : SignedEvent) (err : js_error) (st : State) :
  keeps st (bounce event err st).
Proof. by apply keeps_same. Qed.

Lemma keeps_handler (event : SignedEvent) (st : State) :
  keeps st (_handler event st).
Proof.
  unfold _handler. case_bool_decide; [apply keeps_refl|]. cbn zeta.
  set (st1 := log (Emit (NEvent event)) st).
  assert (H1 : keeps st st1) by by apply keeps_same.
  assert (Hb : ∀ err, keeps st (bounce event err st1)).
  { intros err. apply (keeps_trans _ st1); [done|apply keeps_bounce]. }
  destruct (decrypt_envelope event) as [err|payload]; [apply Hb|].
  destruct (parse_message payload event) as [err|message]; [apply Hb|].
  assert (Hroute : match route message st1 with
                   | inl _ => True
                   | inr (pending, st2) => keeps st1 st2
                   end).
  { unfold route. repeat case_bool_decide.
    - unfold _pong. rewrite bool_decide_eq_true_2 by done. cbn zeta.
      pose proof (keeps_create_event (next_id st1)
                    (ev_pubkey (msg_env message))
                    (set_next_id (S (next_id st1))
                       (set_templates
                          (<[next_id st1 :=
                               {| tpl_id := Some (msg_id message);
                                  tpl_body := TplResult "pong" |}]>
                             (templates st1)) st1))) as Hc.
      destruct (create_event _ _ _) as [created st2]. cbn [snd] in Hc.
      eapply keeps_trans; [|exact Hc].
      apply (keeps_insert _ _ (next_id st1)
               {| tpl_id := Some (msg_id message);
                  tpl_body := TplResult "pong" |}); simpl; [lia|done|].
      by left.
    - by apply keeps_same.
    - apply keeps_response_emit.
    - apply keeps_refl. }
  destruct (route message st1) as [err|[pending st2]]; [apply Hb|].
  cbn zeta. apply (keeps_trans _ st1); [done|].
  apply (keeps_trans _ st2); [done|].
  destruct pending as [[err|created]|]; by apply keeps_same.
Qed.

Lemma keeps_step (a : action) (st : State) : keeps st (step st a).
Proof.
  destruct a; cbn [step].
  - apply keeps_tick.
  - apply keeps_handler.
  - apply keeps_init.
  - apply keeps_response_emit.
  - apply keeps_new_template.
  - apply keeps_same; [simpl; lia|done].
  - unfold close. destruct (_sub st); by apply keeps_same.
  - apply keeps_send.
  - apply keeps_request.
  - apply keeps_ping.
Qed.

Lemma keeps_run (acts : list action) (st : State) : keeps st (run acts st).
Proof. apply keeps_foldl. intros s a. apply keeps_step. Qed.

End Keeping.

(** ** Responses and deadlines *)

Section Responses.
Context {Codec : EnvelopeCodec} {Pool : RelayPool} {Util : Helpers}.

Lemma armed_grows (key : string) (p hid tid : nat) (due : N)
    (st st' : State) :
  tidy st → armed key p hid tid due st → grows st st' →
  (∀ m, InboxResponse key m ∉ emitted_since st st') →
  (clock st' < due)%N → armed key p hid tid due st'.
Proof.
  intros (Hwf & Hth & Htt) (Hp & Hh & Hc & Hrej & Hrm & Hro & Hkey) [E T]
    Hquiet Hclock.
  destruct Hwf as (Hwh & Hwt & Hwr).
  rewrite Forall_forall in Hwh. rewrite Forall_forall in Hth.
  destruct (Hwh _ Hh) as [_ Hlt]. simpl in Hlt.
  pose proof (Hth _ Hh) as Hhid. simpl in Hhid.
  unfold armed. split_and!.
  - destruct (ev_settle _ _ E p Hlt) as [Hsame|[_ Hby]]; [congruence|].
    exfalso.
    destruct Hby as [(h & m & Hin & Hrec & Hem & _)
                    |[[(t & Ht & Hact & Hdue) _]|(Hin & _)]]; [| |done].
    + apply (Hquiet m). by rewrite <- (Hkey h Hin Hrec).
    + assert (Hr : rejects t = Some p) by (unfold rejects; by rewrite Hact).
      specialize (Hrej t Ht Hr). lia.
  - destruct (td_keep _ _ T _ Hh) as [Hin|[(t & Ht & Hact & Hdue)|[m Hem]]].
    + done.
    + exfalso. specialize (Hrm t Ht Hact). lia.
    + exfalso. by apply (Hquiet m).
  - done.
  - intros t Ht Hr. destruct (ev_timers _ _ E t Ht) as [Hold|[_ Hfresh]];
      [by apply Hrej|].
    exfalso. unfold rejects in Hr.
    destruct (tm_action t) as [q|] eqn:Hact; [|done].
    injection Hr as ->. specialize (Hfresh p eq_refl). lia.
  - intros t Ht Hact. destruct (td_timers _ _ T t Ht) as [Hold|Hfresh];
      [by apply Hrm|].
    exfalso. specialize (Hfresh hid Hact). lia.
  - intros Hin. destruct (ev_ready_once _ _ E p Hin) as [?|?]; [done|lia].
  - intros h Hin Hrec.
    destruct (ev_handlers _ _ E h Hin) as [Hold|[_ Hfresh]]; [auto|lia].
Qed.

Lemma tidy_step (a : action) (st : State) : tidy st → tidy (step st a).
Proof. intros Htidy. apply (run_grows [a] st Htidy). Qed.

(** [request] arms the receipt it hands out. *)
Lemma request_armed (loc : nat) (recipient : string) (st : State)
    (message : MessageTemplate) (key : string) (receipt : nat)
    (st1 : State) :
  tidy st → templates st !! loc = Some message → tpl_id message = Some key →
  request loc recipient st = (inr receipt, st1) →
  let due := (clock st + Z.to_N (cfg_req_timeout (_config st)))%N in
  tidy st1 ∧ clock st1 = clock st ∧ _pubkey st1 = _pubkey st ∧
  ((clock st < due)%N →
   armed key receipt (S (S receipt)) (S receipt) due st1).
Proof.
  intros Htidy Hloc Hid Hreq due.
  pose proof (tidy_step (ARequest loc recipient) st Htidy) as Htidy1.
  cbn [step] in Htidy1. rewrite Hreq in Htidy1. cbn [snd] in Htidy1.
  destruct (request_pending _ _ _ _ _ _ _ (proj1 Htidy) Hloc Hid Hreq)
    as (_ & _ & Hp & Hc & Hro & _).
  apply request_receipt_made in Hreq. cbn zeta in Hreq.
  destruct Hreq
    as (message' & id & event & Hloc' & Hid' & Hne & Hcreate & Hr & Hst1).
  assert (message' = message) as -> by congruence.
  assert (id = key) as -> by congruence.
  set (st0 := log (CreateEnvelope
                     {| ec_kind := cfg_kind (_config st); ec_tags := [] |}
                     (stringify message) recipient) st) in *.
  subst receipt.
  destruct (request_receipt_state loc event message key st0 Hloc Hid)
    as (_ & _ & Hhs & Htm & _).
  destruct (request_receipt_keeps loc event st0) as (_ & _ & _ & Hpk).
  rewrite <- Hst1 in Hhs, Htm, Hpk.
  destruct Htidy as ((Hwh & Hwt & _) & Hth & Htt).
  rewrite Forall_forall in Hwh. rewrite Forall_forall in Hwt.
  rewrite Forall_forall in Htt.
  split; [done|]. split; [done|]. split; [done|]. intros Hclock.
  unfold armed. split_and!; try done.
  - rewrite Hhs. apply elem_of_app. right. left.
  - lia.
  - intros t. rewrite Htm, !elem_of_insert_timer.
    intros [->|[->|Hold]] Hr; [done|done|].
    exfalso. unfold rejects in Hr.
    destruct (tm_action t) as [q|] eqn:Hact; [|done].
    injection Hr as ->. destruct (Hwt t Hold) as [_ Hq].
    specialize (Hq _ Hact). simpl in Hq. lia.
  - intros t. rewrite Htm, !elem_of_insert_timer.
    intros [->|[->|Hold]] Hact; [done|done|].
    exfalso. specialize (Htt t Hold _ Hact). simpl in Htt. lia.
  - intros h. rewrite Hhs, elem_of_app, list_elem_of_singleton.
    intros [Hold| ->] Hrec; [|done].
    destruct (Hwh h Hold) as [_ Hb]. simpl in Hb, Hrec. lia.
Qed.

(** An armed receipt stays pending as long as its deadline is ahead and
    nothing is emitted under its key. *)
Lemma pending_until (loc : nat) (recipient : string) (st : State)
    (message : MessageTemplate) (key : string) (receipt : nat)
    (st1 : State) (acts : list action) :
  tidy st → templates st !! loc = Some message → tpl_id message = Some key →
  request loc recipient st = (inr receipt, st1) →
  (∀ m, InboxResponse key m ∉ emitted_since st1 (run acts st1)) →
  (clock (run acts st1)
   < clock st + Z.to_N (cfg_req_timeout (_config st)))%N →
  tidy (run acts st1) ∧
  armed key receipt (S (S receipt)) (S receipt)
    (clock st + Z.to_N (cfg_req_timeout (_config st)))%N (run acts st1).
Proof.
  intros Htidy Hloc Hid Hreq Hquiet Hclock.
  destruct (request_armed _ _ _ _ _ _ _ Htidy Hloc Hid Hreq)
    as (Htidy1 & Hc & _ & Harmed).
  pose proof (run_grows acts st1 Htidy1) as G.
  pose proof (ev_clock _ _ (proj1 G)) as Hmono.
  split; [apply G|].
  apply (armed_grows _ _ _ _ _ st1); try done. apply Harmed. lia.
Qed.

(** The delivery of a response resolves an armed receipt. *)
Lemma delivery_resolves (key : string) (p hid tid : nat) (due : N)
    (a : action) (m : Message) (st : State) :
  armed key p hid tid due st → delivers a key m st →
  promises (step st a) !! p = Some (Fulfilled (VMessage m)).
Proof.
  intros (Hp & Hh & _) Hdel.
  assert (Hemit : ∀ s, promises s = promises st →
    response_handlers s = response_handlers st →
    promises (response_emit key m s) !! p
    = Some (Fulfilled (VMessage m))).
  { intros s Hps Hhs.
    destruct (response_emit_unfold key m s) as (-> & _).
    apply run_handlers_pending.
    - simpl. by rewrite Hps.
    - apply list_elem_of_fmap.
      exists {| h_id := hid; h_key := key; h_timer := tid; h_receipt := p |}.
      split; [done|]. apply list_elem_of_filter. by rewrite Hhs. }
  destruct Hdel as [->|(event & payload & -> & Hother & Hd & Hpm & Htype & <-)].
  - cbn [step]. by apply Hemit.
  - cbn [step]. rewrite (handler_on_response _ _ _ _ Hother Hd Hpm Htype).
    destruct (log_frame (Emit (NMessage m))
                (log (InboxAuthor (ev_pubkey (msg_env m)) m)
                   (response_emit (msg_id m) m (log (Emit (NEvent event)) st))))
      as (-> & _).
    destruct (log_frame (InboxAuthor (ev_pubkey (msg_env m)) m)
                (response_emit (msg_id m) m (log (Emit (NEvent event)) st)))
      as (-> & _).
    by apply Hemit.
Qed.



(** X14: a receipt stays pending until its deadline.  As long as fewer
    than [req_timeout] milliseconds have passed since the call and
    nothing has been emitted on the response bus under the id, the
    promise of [request] is pending, whatever else the client has done in
    between: other requests, their responses and timeouts, [close]. *)
Theorem request_pending_until_deadline (loc : nat) (recipient : string)
    (st : State) (message : MessageTemplate) (key : string) (receipt : nat)
    (st1 : State) (acts : list action) :
  tidy st → templates st !! loc = Some message → tpl_id message = Some key →
  request loc recipient st = (inr receipt, st1) →
  (∀ m, InboxResponse key m ∉ emitted_since st1 (run acts st1)) →
  (clock (run acts st1)
   < clock st + Z.to_N (cfg_req_timeout (_config st)))%N →
  request_future (inr receipt) (run acts st1) = Pending.
Proof.
  intros Htidy Hloc Hid Hreq Hquiet Hclock.
  destruct (pending_until _ _ _ _ _ _ _ acts Htidy Hloc Hid Hreq
              Hquiet Hclock) as (_ & Hp & _).
  simpl. by rewrite Hp.
Qed.

(** *** The call and its continuation *)

(** [request] is its call followed at once by its continuation. *)
Lemma request_begin_resume (loc : nat) (recipient : string) (st : State) :
  request loc recipient st
  = match request_begin loc recipient st with
    | (Thrown err, st1) => (inl err, st1)
    | (Awaiting created, st1) => request_resume loc created st1
    end.
Proof.
  unfold request, request_begin, request_resume.
  destruct (templates st !! loc) as [message|]; [|done].
  destruct (falsy (tpl_id message)); [done|].
  by destruct (create_event loc recipient st) as [[err|event] st1].
Qed.

(** So is [ping]. *)
Lemma ping_begin_resume (recipient : string) (st : State) :
  ping recipient st
  = let '(loc, body, st1) := ping_begin recipient st in
    match body with
    | Thrown err => (inl err, st1)
    | Awaiting created => request_resume loc created st1
    end.
Proof.
  unfold ping, ping_begin. cbn zeta. rewrite request_begin_resume.
  by destruct (request_begin _ _ _) as [[err|created] st1].
Qed.

(** The call registers nothing: it leaves promises, timers and handlers
    alone, and the template objects that have an id. *)
Lemma request_begin_quiet (loc : nat) (recipient : string) (st : State) :
  quiet st (request_begin loc recipient st).2 ∧
  keeps st (request_begin loc recipient st).2.
Proof.
  unfold request_begin.
  destruct (templates st !! loc) as [message|];
    [|split; [apply quiet_refl|apply keeps_refl]].
  destruct (falsy (tpl_id message));
    [split; [apply quiet_refl|apply keeps_refl]|].
  pose proof (quiet_create_event loc recipient st) as Hq.
  pose proof (keeps_create_event loc recipient st) as Hk.
  by destruct (create_event loc recipient st) as [created st1].
Qed.

(** The continuation arms the receipt it makes, in the state it runs
    in. *)
Lemma receipt_armed (loc : nat) (event : SignedEvent) (st : State)
    (message : MessageTemplate) (key : string) :
  tidy st → templates st !! loc = Some message → tpl_id message = Some key →
  let receipt := next_id st in
  let due := (clock st + Z.to_N (cfg_req_timeout (_config st)))%N in
  let st1 := (request_receipt loc event st).2 in
  (request_receipt loc event st).1 = receipt ∧ tidy st1 ∧
  receipt < next_id st1 ∧ clock st1 = clock st ∧
  promises st1 !! receipt = Some Pending ∧ (receipt ∉ ready_once st1) ∧
  {| tm_id := S receipt; tm_due := due; tm_action := RejectTimeout receipt |}
  ∈ timers st1 ∧
  (∀ h, h ∈ response_handlers st1 →
        h_receipt h = receipt ∨ h_timer h = S receipt → h_key h = key) ∧
  ((clock st < due)%N →
   armed key receipt (S (S receipt)) (S receipt) due st1).
Proof.
  intros Htidy Hloc Hid receipt due st1.
  destruct (request_receipt_state loc event message key st Hloc Hid)
    as (Hfst & _ & Hhs & Htm & Hp & Hn & Hc & _ & _ & Hro).
  cbn zeta in Hfst, Hhs, Htm, Hp, Hn, Hc, Hro.
  fold st1 in Hhs, Htm, Hp, Hn, Hc, Hro. fold receipt in Hfst, Hhs, Htm, Hp, Hn.
  fold due in Htm.
  pose proof (td_tidy _ _ (tends_request_receipt loc event st Htidy))
    as Htidy1. fold st1 in Htidy1.
  destruct Htidy as ((Hwh & Hwt & Hwr) & Hth & Htt).
  rewrite Forall_forall in Hwh. rewrite Forall_forall in Hwt.
  rewrite Forall_forall in Hwr. rewrite Forall_forall in Htt.
  assert (Hkey : ∀ h, h ∈ response_handlers st1 →
            h_receipt h = receipt ∨ h_timer h = S receipt → h_key h = key).
  { intros h. rewrite Hhs, elem_of_app, list_elem_of_singleton.
    intros [Hold| ->]; [|done].
    destruct (Hwh h Hold) as [Ha Hb]. unfold receipt. lia. }
  assert (Hnot : receipt ∉ ready_once st1).
  { rewrite Hro. intros Hin. specialize (Hwr _ Hin). simpl in Hwr.
    unfold receipt in Hwr. lia. }
  assert (Hpend : promises st1 !! receipt = Some Pending).
  { rewrite Hp. apply lookup_insert_eq. }
  split_and!; try done.
  - rewrite Hn. lia.
  - rewrite Htm, !elem_of_insert_timer. auto.
  - intros Hclock. unfold armed. split_and!; try done.
    + rewrite Hhs. apply elem_of_app. right. left.
    + intros t. rewrite Htm, !elem_of_insert_timer.
      intros [->|[->|Hold]] Hr; [done|done|].
      exfalso. unfold rejects in Hr.
      destruct (tm_action t) as [q|] eqn:Hact; [|done].
      injection Hr as ->. destruct (Hwt t Hold) as [_ Hq].
      specialize (Hq _ Hact). unfold receipt in Hq. lia.
    + intros t. rewrite Htm, !elem_of_insert_timer.
      intros [->|[->|Hold]] Hact; [done|done|].
      exfalso. specialize (Htt t Hold _ Hact). unfold receipt in Htt.
      simpl in Htt. lia.
    + intros h Hin Hrec. apply (Hkey h Hin). by left.
Qed.

(** Where a request stands when its continuation has run, whatever
    happened while it waited. *)
Lemma request_resumed (loc : nat) (recipient : string) (st : State)
    (message : MessageTemplate) (key : string) (event : SignedEvent)
    (st0 : State) (window : list action) (receipt : nat) (st1 : State) :
  tidy st → loc < next_id st →
  templates st !! loc = Some message → tpl_id message = Some key →
  request_begin loc recipient st = (Awaiting (inr event), st0) →
  let stw := run window st0 in
  let due := (clock stw + Z.to_N (cfg_req_timeout (_config st)))%N in
  request_resume loc (inr event) stw = (inr receipt, st1) →
  tidy st1 ∧ receipt < next_id st1 ∧ clock st1 = clock stw ∧
  promises st1 !! receipt = Some Pending ∧ (receipt ∉ ready_once st1) ∧
  {| tm_id := S receipt; tm_due := due; tm_action := RejectTimeout receipt |}
  ∈ timers st1 ∧
  (∀ h, h ∈ response_handlers st1 →
        h_receipt h = receipt ∨ h_timer h = S receipt → h_key h = key) ∧
  ((clock stw < due)%N →
   armed key receipt (S (S receipt)) (S receipt) due st1).
Proof.
  intros Htidy Hlt Hloc Hid Hbegin stw due Hres.
  destruct (request_begin_quiet loc recipient st) as [Hq Hk0].
  rewrite Hbegin in Hq, Hk0. cbn [snd] in Hq, Hk0.
  pose proof (td_tidy _ _ (tends_quiet st st0 Htidy Hq)) as Htidy0.
  pose proof (run_grows window st0 Htidy0) as G. fold stw in G.
  pose proof (td_tidy _ _ (proj2 G)) as Htidyw.
  pose proof (keeps_trans _ _ _ Hk0 (keeps_run window st0)) as [_ Hkw].
  fold stw in Hkw.
  assert (Hlocw : templates stw !! loc = Some message).
  { by apply Hkw. }
  assert (Hcfg : _config stw = _config st).
  { rewrite (ev_config _ _ (proj1 G)). apply Hq. }
  unfold request_resume in Hres.
  destruct (receipt_armed loc event stw message key Htidyw Hlocw Hid)
    as (Hfst & Hrest).
  cbn zeta in Hfst, Hrest.
  destruct (request_receipt loc event stw) as [r s1].
  cbn [fst snd] in Hfst, Hrest. injection Hres as <- <-. subst r.
  unfold due. by rewrite <- Hcfg.
Qed.

(** A response delivered in time to a request whose continuation has run
    resolves the receipt for good. *)
Lemma resumed_delivery (loc : nat) (recipient : string) (st : State)
    (message : MessageTemplate) (key : string) (event : SignedEvent)
    (st0 : State) (window : list action) (receipt : nat) (st1 : State)
    (acts1 : list action) (a : action) (m : Message) (acts2 : list action) :
  tidy st → loc < next_id st →
  templates st !! loc = Some message → tpl_id message = Some key →
  request_begin loc recipient st = (Awaiting (inr event), st0) →
  let stw := run window st0 in
  request_resume loc (inr event) stw = (inr receipt, st1) →
  (∀ m', InboxResponse key m' ∉ emitted_since st1 (run acts1 st1)) →
  (clock (run acts1 st1)
   < clock stw + Z.to_N (cfg_req_timeout (_config st)))%N →
  delivers a key m (run acts1 st1) →
  promises st1 !! receipt = Some Pending ∧
  promises (run (acts1 ++ a :: acts2) st1) !! receipt
  = Some (Fulfilled (VMessage m)).
Proof.
  intros Htidy Hlt Hloc Hid Hbegin stw Hres Hquiet Hclock Hdel.
  destruct (request_resumed _ _ _ _ _ _ _ window _ _
              Htidy Hlt Hloc Hid Hbegin Hres)
    as (Htidy1 & _ & Hc & Hp & _ & _ & _ & Harmed).
  fold stw in Hc, Harmed. split; [done|].
  pose proof (run_grows acts1 st1 Htidy1) as G.
  pose proof (ev_clock _ _ (proj1 G)) as Hmono.
  pose proof (td_tidy _ _ (proj2 G)) as Htidy2.
  assert (Harmed2 : armed key receipt (S (S receipt)) (S receipt)
            (clock stw + Z.to_N (cfg_req_timeout (_config st)))%N
            (run acts1 st1)).
  { apply (armed_grows _ _ _ _ _ st1); try done. apply Harmed. lia. }
  pose proof (delivery_resolves _ _ _ _ _ a m _ Harmed2 Hdel) as Hfull.
  rewrite run_app. simpl.
  pose proof (step_evolves a _ (proj1 Htidy2)) as E.
  apply settled_stable; try done.
  - apply E.
  - destruct Harmed2 as (_ & Hh & _).
    destruct Htidy2 as ((Hwh & _) & _). rewrite Forall_forall in Hwh.
    destruct (Hwh _ Hh) as [_ Hlt2]. simpl in Hlt2.
    pose proof (ev_next _ _ E). lia.
Qed.

(** X15: a response in time resolves the request, once and for all.
    [request] registers its receipt in its continuation, after
    [await this.create_event(...)].  Whatever happens while it waits,
    responses under its id included, the receipt is pending when the
    continuation has run; and if the first emission under the id after
    that comes before the deadline, [req_timeout] milliseconds from the
    continuation, from the application or as an inbound [accept] or
    [reject] of another author, the promise of [request] is fulfilled
    with that message, and no later response, timer or other step
    changes it. *)
Theorem response_resolves_request (loc : nat) (recipient : string)
    (st : State) (message : MessageTemplate) (key : string)
    (event : SignedEvent) (st0 : State) (window : list action)
    (receipt : nat) (st1 : State) (acts1 : list action) (a : action)
    (m : Message) (acts2 : list action) :
  tidy st → loc < next_id st →
  templates st !! loc = Some message → tpl_id message = Some key →
  request_begin loc recipient st = (Awaiting (inr event), st0) →
  let stw := run window st0 in
  request_resume loc (inr event) stw = (inr receipt, st1) →
  (∀ m', InboxResponse key m' ∉ emitted_since st1 (run acts1 st1)) →
  (clock (run acts1 st1)
   < clock stw + Z.to_N (cfg_req_timeout (_config st)))%N →
  delivers a key m (run acts1 st1) →
  request_future (inr receipt) st1 = Pending ∧
  request_future (inr receipt) (run (acts1 ++ a :: acts2) st1)
  = Fulfilled (VMessage m).
Proof.
  intros Htidy Hlt Hloc Hid Hbegin stw Hres Hquiet Hclock Hdel.
  destruct (resumed_delivery _ _ _ _ _ _ _ window _ _ acts1 a m acts2
              Htidy Hlt Hloc Hid Hbegin Hres Hquiet Hclock Hdel)
    as [Hp Hfull].
  simpl. by rewrite Hp, Hfull.
Qed.

(** X23: a response that comes while [request] waits for
    [create_event] is lost.  Whatever was emitted under the id before
    the continuation ran, if nothing is emitted under it afterwards, the
    timers run at or after [req_timeout] milliseconds from the
    continuation reject the promise of [request] with the string
    [timeout], and it stays so. *)
Theorem early_response_is_lost (loc : nat) (recipient : string)
    (st : State) (message : MessageTemplate) (key : string)
    (event : SignedEvent) (st0 : State) (window : list action)
    (receipt : nat) (st1 : State) (acts1 : list action) (dt : N)
    (acts2 : list action) :
  tidy st → loc < next_id st →
  templates st !! loc = Some message → tpl_id message = Some key →
  request_begin loc recipient st = (Awaiting (inr event), st0) →
  let stw := run window st0 in
  request_resume loc (inr event) stw = (inr receipt, st1) →
  (∀ m, InboxResponse key m ∉ emitted_since st1 (run acts1 st1)) →
  (clock stw + Z.to_N (cfg_req_timeout (_config st))
   ≤ clock (run acts1 st1) + dt)%N →
  request_future (inr receipt) st1 = Pending ∧
  request_future (inr receipt) (run (acts1 ++ ATick dt :: acts2) st1)
  = Rejected (ErrStr "timeout").
Proof.
  intros Htidy Hlt Hloc Hid Hbegin stw Hres Hquiet Hdue.
  destruct (request_resumed _ _ _ _ _ _ _ window _ _
              Htidy Hlt Hloc Hid Hbegin Hres)
    as (Htidy1 & Hn & _ & Hp & Hro & Htm & Hkey & _).
  fold stw in Htm.
  pose proof (pending_times_out st1 receipt (S receipt) key _ acts1 dt acts2
                (proj1 Htidy1) Hn Hp Htm Hkey Hro Hquiet Hdue) as Hout.
  simpl. by rewrite Hp, Hout.
Qed.



(** [ping] is a [request] on a template of its own. *)
Lemma ping_request (recipient : string) (st : State) :
  let key := gen_message_id (drawn st) in
  let template := {| tpl_id := Some key; tpl_body := TplRequest "ping" |} in
  let st0 :=
    set_next_id (S (next_id st))
      (set_templates (<[next_id st := template]> (templates st))
         (set_drawn (S (drawn st)) st)) in
  ping recipient st = request (next_id st) recipient st0 ∧
  templates st0 !! next_id st = Some template ∧
  quiet st st0 ∧ _relays st0 = _relays st ∧ _pubkey st0 = _pubkey st.
Proof.
  simpl. split; [done|]. split; [apply lookup_insert_eq|].
  split; [|done]. unfold quiet. simpl. split_and!; try done; [lia|].
  exists []. by rewrite app_nil_r.
Qed.

(** X18: [ping] answers by the type of the response.  [ping] goes
    through [request], whose receipt is registered in its continuation.
    When the first emission under the id drawn for the ping after the
    continuation has run is the delivery of a response before the
    deadline, the promise of [ping] is fulfilled with [true] if the
    response is of type [accept] and with [false] if not, and stays so,
    whatever happened while the request waited. *)
Theorem ping_answers_by_type (recipient : string) (st : State) (loc : nat)
    (event : SignedEvent) (st0 : State) (window : list action)
    (receipt : nat) (st1 : State) (acts1 : list action) (a : action)
    (m : Message) (acts2 : list action) :
  tidy st →
  ping_begin recipient st = (loc, Awaiting (inr event), st0) →
  let key := gen_message_id (drawn st) in
  let stw := run window st0 in
  request_resume loc (inr event) stw = (inr receipt, st1) →
  (∀ m', InboxResponse key m' ∉ emitted_since st1 (run acts1 st1)) →
  (clock (run acts1 st1)
   < clock stw + Z.to_N (cfg_req_timeout (_config st)))%N →
  delivers a key m (run acts1 st1) →
  ping_future (inr receipt) (run (acts1 ++ a :: acts2) st1)
  = Fulfilled (bool_decide (msg_type m = "accept")).
Proof.
  intros Htidy Hping key stw Hres Hquiet Hclock Hdel.
  destruct (ping_request recipient st) as (_ & Hloc & Hq & _).
  cbn zeta in Hloc, Hq. unfold ping_begin in Hping. cbn zeta in Hping.
  match type of Hping with
  | context [request_begin _ _ ?s] => set (stA := s) in *
  end.
  destruct (request_begin (next_id st) recipient stA) as [body s0] eqn:Hbegin.
  injection Hping as <- -> ->.
  pose proof (td_tidy _ _ (tends_quiet st stA Htidy Hq)) as HtidyA.
  assert (Hlt : next_id st < next_id stA) by (simpl; lia).
  destruct (resumed_delivery _ _ _ _ _ _ _ window _ _ acts1 a m acts2
              HtidyA Hlt Hloc eq_refl Hbegin Hres Hquiet Hclock Hdel)
    as [_ Hfull].
  unfold ping_future. simpl. by rewrite Hfull.
Qed.

(** X19: what [ping] does.  It draws one message id, makes a template
    [{ method: 'ping', id }] of its own, and leaves the templates of the
    caller alone.  With an id that is not empty and a codec that delivers
    the event, it has the envelope created, registers its receipt on the
    response bus under the id for [req_timeout] milliseconds, and
    publishes the event; with an empty id nothing happens at all and the
    promise is fulfilled with [false]. *)
Theorem ping_requests_once (recipient : string) (st : State) :
  let key := gen_message_id (drawn st) in
  let template := {| tpl_id := Some key; tpl_body := TplRequest "ping" |} in
  let config := {| ec_kind := cfg_kind (_config st); ec_tags := [] |} in
  let created := CreateEnvelope config (stringify template) recipient in
  let st1 := (ping recipient st).2 in
  drawn st1 = S (drawn st) ∧
  templates st1 = <[next_id st := template]> (templates st) ∧
  (key = "" →
   emitted_since st st1 = [] ∧
   ∀ st', ping_future (ping recipient st).1 st' = Fulfilled false) ∧
  (key ≠ "" → ∀ event,
     create_envelope config (stringify template) recipient = inr event →
     ∃ receipt hid,
       (ping recipient st).1 = inr receipt ∧
       emitted_since st st1
       = [created; Within key hid (cfg_req_timeout (_config st));
          PoolPublish (_relays st) event]).
Proof.
  intros key template config created st1.
  destruct (ping_request recipient st) as (Heq & Hloc & Hq & Hrel & _).
  cbn zeta in Heq, Hloc, Hq, Hrel. unfold st1. rewrite Heq.
  match goal with
  | |- context [request _ _ ?s] => set (st0 := s) in *
  end.
  destruct (request_keeps_templates_frame (next_id st) recipient st0)
    as (Htpl & Hdrawn).
  split; [by rewrite Hdrawn|]. split; [by rewrite Htpl|]. split.
  - intros Hempty.
    assert (Hreq : request (next_id st) recipient st0
                   = (inl (ErrObj "message id is required"), st0)).
    { unfold request. rewrite Hloc. unfold template. simpl.
      by rewrite bool_decide_eq_true_2. }
    rewrite Hreq. split; [by apply emitted_since_app; rewrite app_nil_r|].
    done.
  - intros Hne event Hcreate.
    rewrite (request_success _ _ _ _ _ _ Hloc eq_refl Hne Hcreate).
    cbn [fst snd].
    destruct (request_receipt_state (next_id st) event template key
                (log (CreateEnvelope
                        {| ec_kind := cfg_kind (_config st0); ec_tags := [] |}
                        (stringify template) recipient) st0) Hloc eq_refl)
      as (_ & Htr & _).
    eexists _, _. split; [done|].
    apply emitted_since_app. etrans; [exact Htr|].
    simpl. by rewrite <- app_assoc.
Qed.

End Responses.

(** ** The identity of a client *)

Section Identity.
Context {Codec : EnvelopeCodec} {Pool : RelayPool} {Util : Helpers}.

Lemma addressed_same (st st' : State) (e : effect) :
  _config st' = _config st → _relays st' = _relays st →
  _filter st' = _filter st → addressed st' e → addressed st e.
Proof. intros Hc Hr Hf. destruct e; simpl; by rewrite ?Hc, ?Hr, ?Hf. Qed.

Lemma steady_refl (st : State) : steady st st.
Proof.
  split_and!; try done. exists []. by rewrite app_nil_r.
Qed.

Lemma steady_trans (st st' st'' : State) :
  steady st st' → steady st' st'' → steady st st''.
Proof.
  intros (c1 & p1 & r1 & f1 & l1 & t1 & a1 & y1 & s1)
         (c2 & p2 & r2 & f2 & l2 & t2 & a2 & y2 & s2).
  split_and!; try congruence. exists (l1 ++ l2). split_and!.
  - by rewrite t2, t1, app_assoc.
  - apply Forall_app. split; [done|].
    eapply Forall_impl; [exact a2|]. intros e. by apply addressed_same.
  - unfold ready_by. rewrite foldl_app. fold (ready_by l1 (_ready st)).
    by rewrite <- y1.
  - unfold sub_by. rewrite foldl_app. fold (sub_by l1 (_sub st)).
    by rewrite <- s1.
Qed.

(** A step that touches neither the identity nor the trace. *)
Lemma steady_same (st st' : State) :
  _config st' = _config st → _pubkey st' = _pubkey st →
  _relays st' = _relays st → _filter st' = _filter st →
  trace st' = trace st → _ready st' = _ready st → _sub st' = _sub st →
  steady st st'.
Proof.
  intros. split_and!; try done. exists []. by rewrite app_nil_r.
Qed.

Lemma steady_log (e : effect) (st : State) :
  addressed st e → plain e → steady st (log e st).
Proof.
  intros He Hp. split_and!; try done. exists [e]. split_and!; try done.
  - by apply Forall_singleton.
  - by destruct e as [[]| | | | | | | | |].
  - by destruct e.
Qed.

Lemma steady_settle (p : nat) (s : promise value) (st : State) :
  steady st (settle p s st).
Proof.
  unfold settle. destruct (promises st !! p) as [[| |]|];
    try apply steady_refl. by apply steady_same.
Qed.

Lemma steady_foldl {A} (f : State → A → State) (l : list A) (st : State) :
  (∀ s x, steady s (f s x)) → steady st (foldl f st l).
Proof.
  intros Hf. revert st. induction l as [|x l IH]; intros st; simpl.
  - apply steady_refl.
  - eapply steady_trans; [apply Hf|apply IH].
Qed.

Lemma steady_tick (dt : N) (st : State) : steady st (tick dt st).
Proof.
  unfold tick. eapply steady_trans; [|apply steady_foldl].
  - by apply steady_same.
  - intros s t. unfold fire. destruct (tm_action t).
    + apply steady_settle.
    + by apply steady_same.
Qed.

Lemma steady_response_emit (key : string) (m : Message) (st : State) :
  steady st (response_emit key m st).
Proof.
  unfold response_emit. cbn zeta.
  set (st0 := log (InboxResponse key m) st).
  set (st1 := foldl (run_handler m) st0 _).
  apply (steady_trans _ st0); [by apply steady_log|].
  apply (steady_trans _ st1); [apply steady_foldl|by apply steady_same].
  intros s h. unfold run_handler, resolve.
  eapply steady_trans; [|apply steady_settle]. by apply steady_same.
Qed.

Lemma steady_init (st : State) : steady st (_init st).
Proof.
  unfold _init, ready_emit. cbn zeta.
  set (s0 := set_ready true st). set (s1 := log (Emit NReady) s0).
  set (s2 := foldl _ s1 _).
  apply (steady_trans _ s1).
  { split_and!; try done. exists [Emit NReady]. split_and!; try done.
    by apply Forall_singleton. }
  apply (steady_trans _ s2); [apply steady_foldl|by apply steady_same].
  intros s p. apply steady_settle.
Qed.

Lemma steady_connect (timeout : option Z) (st : State) :
  steady st (connect timeout st).2.
Proof.
  unfold connect. cbn.
  apply (steady_trans _ (_subscribe st)); [|by apply steady_same].
  split_and!; try done. exists [PoolSubscribe (_relays st) (_filter st)].
  split_and!; try done. by apply Forall_singleton.
Qed.

Lemma steady_close (st : State) : steady st (close st).
Proof.
  unfold close. cbn zeta.
  set (st1 := match _sub st with Some _ => log SubClose st | None => st end).
  assert (H1 : steady st st1).
  { unfold st1. destruct (_sub st); [by apply steady_log|apply steady_refl]. }
  set (st2 := log (PoolClose (_relays st1)) st1).
  apply (steady_trans _ st1); [done|].
  apply (steady_trans _ st2); [by apply steady_log|].
  split_and!; try done. exists [Emit NClose]. split_and!; try done.
  by apply Forall_singleton.
Qed.

Lemma steady_publish (event : SignedEvent) (st : State) :
  steady st (_publish event st).2.
Proof. by apply steady_log. Qed.

Lemma steady_create_event (loc : nat) (recipient : string) (st : State) :
  steady st (create_event loc recipient st).2.
Proof.
  unfold create_event. destruct (templates st !! loc) as [message|];
    [|apply steady_refl].
  unfold assign_id. destruct (tpl_id message); cbn [snd].
  - by apply steady_log.
  - eapply steady_trans; [|by apply steady_log]. by apply steady_same.
Qed.

Lemma steady_send (loc : nat) (recipient : string) (st : State) :
  steady st (send loc recipient st).2.
Proof.
  unfold send. pose proof (steady_create_event loc recipient st) as Hc.
  destruct (create_event loc recipient st) as [[err|event] st1];
    cbn [snd] in *; [done|].
  eapply steady_trans; [exact Hc|apply steady_publish].
Qed.

Lemma steady_request_receipt (loc : nat) (event : SignedEvent) (st : State) :
  steady st (request_receipt loc event st).2.
Proof.
  destruct (request_receipt_fields loc event st)
    as (_ & Htr & _ & _ & _ & _ & _ & Hc & _).
  split_and!; [done| | | |].
  - by unfold request_receipt.
  - by unfold request_receipt.
  - by unfold request_receipt.
  - eexists. split_and!; [exact Htr| |by unfold request_receipt..].
    apply Forall_cons. split; [done|]. by apply Forall_singleton.
Qed.

Lemma steady_request (loc : nat) (recipient : string) (st : State) :
  steady st (request loc recipient st).2.
Proof.
  unfold request. destruct (templates st !! loc) as [message|];
    [|apply steady_refl].
  destruct (falsy (tpl_id message)); [apply steady_refl|].
  pose proof (steady_create_event loc recipient st) as Hc.
  destruct (create_event loc recipient st) as [[err|event] st1];
    cbn [snd] in *; [done|].
  pose proof (steady_request_receipt loc event st1) as Hr.
  destruct (request_receipt loc event st1) as [receipt st2].
  cbn [snd] in *. by eapply steady_trans.
Qed.

Lemma steady_ping (recipient : string) (st : State) :
  steady st (ping recipient st).2.
Proof.
  unfold ping. cbn zeta.
  eapply steady_trans; [|apply steady_request]. by apply steady_same.
Qed.

Lemma steady_bounce (event : SignedEvent) (err : js_error) (st : State) :
  steady st (bounce event err st).
Proof.
  unfold bounce.
  apply (steady_trans _ (log (Emit (NError err)) st)); by apply steady_log.
Qed.

Lemma steady_handler (event : SignedEvent) (st : State) :
  steady st (_handler event st).
Proof.
  unfold _handler. case_bool_decide; [apply steady_refl|]. cbn zeta.
  eapply steady_trans; [by apply (steady_log (Emit (NEvent event)))|].
  set (st1 := log (Emit (NEvent event)) st).
  destruct (decrypt_envelope event) as [err|payload];
    [apply steady_bounce|].
  destruct (parse_message payload event) as [err|message];
    [apply steady_bounce|].
  assert (Hroute : match route message st1 with
                   | inl _ => True
                   | inr (pending, st2) =>
                       steady st1 st2 ∧
                       ∀ s, steady s
                              match pending with
                              | Some created => send_resume created s
                              | None => s
                              end
                   end).
  { unfold route. repeat case_bool_decide.
    - unfold _pong. rewrite bool_decide_eq_true_2 by done. cbn zeta.
      pose proof (steady_create_event (next_id st1)
                    (ev_pubkey (msg_env message))
                    (set_next_id (S (next_id st1))
                       (set_templates
                          (<[next_id st1 :=
                               {| tpl_id := Some (msg_id message);
                                  tpl_body := TplResult "pong" |}]>
                             (templates st1)) st1))) as Hc.
      destruct (create_event _ _ _) as [created st2]. cbn [snd] in Hc.
      split.
      + eapply steady_trans; [|exact Hc]. by apply steady_same.
      + intros s. destruct created; [apply steady_refl|].
        apply steady_publish.
    - split; [by apply steady_log|intros s; apply steady_refl].
    - split; [apply steady_response_emit|intros s; apply steady_refl].
    - split; [apply steady_refl|intros s; apply steady_refl]. }
  destruct (route message st1) as [err|[pending st2]];
    [apply steady_bounce|].
  destruct Hroute as [H2 Hp]. cbn zeta.
  apply (steady_trans _ st2); [exact H2|].
  set (st3 := log (InboxAuthor (ev_pubkey (msg_env message)) message) st2).
  apply (steady_trans _ st3); [by apply steady_log|].
  apply (steady_trans _ (log (Emit (NMessage message)) st3));
    [by apply steady_log|]. apply Hp.
Qed.

Lemma steady_step (a : action) (st : State) : steady st (step st a).
Proof.
  destruct a; cbn [step].
  - apply steady_tick.
  - apply steady_handler.
  - apply steady_init.
  - apply steady_response_emit.
  - by apply steady_same.
  - apply steady_connect.
  - apply steady_close.
  - apply steady_send.
  - apply steady_request.
  - apply steady_ping.
Qed.

Lemma steady_run (acts : list action) (st : State) :
  steady st (run acts st).
Proof. apply steady_foldl. intros s a. apply steady_step. Qed.

(** X21: a client keeps its identity and addresses everything with it.
    Over any run its key, relays and filter stay as they were; every
    publication and every disconnection goes to its relays, every
    subscription to its relays with its filter, every envelope is made
    with the event kind of its configuration and no tags, and every
    receipt waits on the response bus for the request timeout of its
    configuration. *)
Theorem client_addresses_its_relays (acts : list action) (st : State) :
  let st' := run acts st in
  _pubkey st' = _pubkey st ∧ _relays st' = _relays st ∧
  _filter st' = _filter st ∧
  ∀ e, e ∈ emitted_since st st' → addressed st e.
Proof.
  destruct (steady_run acts st) as (_ & Hp & Hr & Hf & l & Htr & Hl & _).
  split_and!; try done. intros e.
  rewrite (emitted_since_app _ _ l Htr). rewrite Forall_forall in Hl.
  apply Hl.
Qed.

(** X22: the ready flag and the subscription handle follow what the
    client emits.  After any run the flag is set exactly when, of the
    notifications [ready] and [close] emitted since, the last was
    [ready], and it is as before when there was none; and the handle is
    that of the last subscription made since, and as before when there
    was none: neither timers nor messages nor requests touch them. *)
Theorem ready_follows_notifications (acts : list action) (st : State) :
  let st' := run acts st in
  _ready st' = ready_by (emitted_since st st') (_ready st) ∧
  _sub st' = sub_by (emitted_since st st') (_sub st).
Proof.
  destruct (steady_run acts st) as (_ & _ & _ & _ & l & Htr & _ & Hy & Hs).
  simpl. by rewrite (emitted_since_app _ _ l Htr).
Qed.

End Identity.

(** ** The further properties at work *)

Section MoreScenarios.
Import Scenario.

Lemma client0_tidy : tidy client0.
Proof. split; [apply client0_wf|]. split; apply Forall_nil_2. Qed.

Lemma client1_tidy : tidy client1.
Proof. split; [apply client1_wf|]. split; apply Forall_nil_2. Qed.


Lemma send_publishes_once_witness :
  emitted_since client2 (send 0 peer client2).2
  = [CreateEnvelope {| ec_kind := 24133; ec_tags := [] |} "sign m0" peer;
     PoolPublish ["r1"; "r2"] (envelope "sign m0" peer)].
Proof.
  exact (proj1 (proj2 (proj2 (send_publishes_once 0 peer anonymous_template
                                client2 eq_refl)))).
Defined.

Lemma create_event_twice_witness :
  (create_event 0 self (create_event 0 peer client2).2).1
  = inr (envelope "sign m0" self).
Proof.
  exact (proj1 (create_event_twice 0 peer self anonymous_template client2
                  eq_refl)).
Defined.

Lemma config_never_changes_witness :
  cfg_req_timeout (_config (run [AConnect (Some 100%Z); AEose] client0))
  = 5000%Z.
Proof.
  exact (proj2 (config_never_changes 1700000000 0 self ["r1"; "r2"]
                  no_options client0 [AConnect (Some 100%Z); AEose]
                  eq_refl)).
Defined.

Lemma handler_routes_request_witness :
  emitted_since client0 (_handler sign_event client0)
  = [Emit (NEvent sign_event); InboxRequest "sign" sign_message;
     InboxAuthor peer sign_message; Emit (NMessage sign_message)].
Proof.
  apply emitted_since_app.
  refine (f_equal trace (handler_routes_request sign_event "sign s1"
                           sign_message client0 _ eq_refl eq_refl eq_refl _));
    discriminate.
Defined.

Lemma handler_routes_response_witness :
  emitted_since abc_requested (_handler accept_event abc_requested)
  = [Emit (NEvent accept_event); InboxResponse "abc" accept_message;
     InboxAuthor peer accept_message; Emit (NMessage accept_message)].
Proof.
  refine (proj1 (handler_routes_response accept_event "accept abc"
                   accept_message abc_requested _ eq_refl eq_refl _)).
  - discriminate.
  - by left.
Defined.

Lemma handler_publishes_only_pong_witness :
  ∃ payload message,
    decrypt_envelope ping_event = inr payload ∧
    parse_message payload ping_event = inr message ∧
    msg_type message = "request" ∧ msg_method message = "ping".
Proof.
  assert (Hout : emitted_since client0 (_handler ping_event client0)
                 = [Emit (NEvent ping_event);
                    CreateEnvelope {| ec_kind := 24133; ec_tags := [] |}
                      "pong p1" peer;
                    InboxAuthor peer ping_message;
                    Emit (NMessage ping_message);
                    PoolPublish ["r1"; "r2"] (envelope "pong p1" peer)])
    by reflexivity.
  assert (Hin : PoolPublish ["r1"; "r2"] (envelope "pong p1" peer)
                ∈ emitted_since client0 (_handler ping_event client0)).
  { rewrite Hout. do 4 right. left. }
  destruct (handler_publishes_only_pong ping_event client0 _ _ Hin)
    as (_ & payload & message & Hd & Hp & Htype & Hmethod & _).
  exists payload, message. by split_and!.
Defined.

Lemma handler_notifies_author_once_witness :
  ∃ before after,
    emitted_since client0 (_handler sign_event client0)
    = before ++ [InboxAuthor peer sign_message; Emit (NMessage sign_message)]
      ++ after.
Proof.
  destruct (handler_notifies_author_once sign_event "sign s1" sign_message
              client0 ltac:(discriminate) eq_refl eq_refl)
    as (before & after & Hout & _).
  exists before, after. exact Hout.
Defined.

Lemma request_pending_until_deadline_witness :
  request_future (inr 1) (run [ATick 4999] abc_requested) = Pending.
Proof.
  refine (request_pending_until_deadline 0 peer client1 abc_template "abc" 1
            abc_requested [ATick 4999] client1_tidy eq_refl eq_refl
            abc_request _ _).
  - intros m Hin. vm_compute in Hin. by apply elem_of_nil in Hin.
  - vm_compute. reflexivity.
Defined.

Lemma abc_begin :
  request_begin 0 peer client1 = (Awaiting (inr abc_event), abc_begun).
Proof. reflexivity. Qed.

Lemma abc_resume :
  request_resume 0 (inr abc_event) (run abc_window abc_begun)
  = (inr 1, abc_resumed).
Proof. reflexivity. Qed.

Lemma response_resolves_request_witness :
  request_future (inr 1) abc_resumed = Pending ∧
  request_future (inr 1)
    (run ([ATick 4999] ++ AInbound accept_event :: [ATick 1; AClose])
       abc_resumed)
  = Fulfilled (VMessage accept_message).
Proof.
  refine (response_resolves_request 0 peer client1 abc_template "abc"
            abc_event abc_begun abc_window 1 abc_resumed [ATick 4999]
            (AInbound accept_event) accept_message [ATick 1; AClose]
            client1_tidy _ eq_refl eq_refl abc_begin abc_resume _ _ _).
  - vm_compute. lia.
  - intros m Hin. vm_compute in Hin. by apply elem_of_nil in Hin.
  - vm_compute. reflexivity.
  - right. exists accept_event, "accept abc".
    split_and!; try reflexivity; [discriminate|by left].
Defined.

Lemma early_response_is_lost_witness :
  request_future (inr 1) abc_resumed = Pending ∧
  request_future (inr 1)
    (run ([] ++ ATick 5000 :: [AInbound accept_event]) abc_resumed)
  = Rejected (ErrStr "timeout").
Proof.
  refine (early_response_is_lost 0 peer client1 abc_template "abc"
            abc_event abc_begun abc_window 1 abc_resumed [] 5000
            [AInbound accept_event]
            client1_tidy _ eq_refl eq_refl abc_begin abc_resume _ _).
  - vm_compute. lia.
  - intros m Hin. vm_compute in Hin. by apply elem_of_nil in Hin.
  - vm_compute. discriminate.
Defined.



Lemma ping_begun_eq :
  ping_begin peer client0 = (0, Awaiting (inr ping_event0), ping_begun).
Proof. reflexivity. Qed.

Lemma ping_resume :
  request_resume 0 (inr ping_event0) (run ping_window ping_begun)
  = (inr 1, ping_resumed).
Proof. reflexivity. Qed.

Lemma ping_answers_by_type_witness :
  ping_future (inr 1)
    (run ([ATick 10] ++ AEmitResponse "m0" pong_message :: [ATick 5000])
       ping_resumed)
  = Fulfilled true.
Proof.
  refine (ping_answers_by_type peer client0 0 ping_event0 ping_begun
            ping_window 1 ping_resumed [ATick 10]
            (AEmitResponse "m0" pong_message) pong_message [ATick 5000]
            client0_tidy ping_begun_eq ping_resume _ _ _).
  - intros m Hin. vm_compute in Hin. by apply elem_of_nil in Hin.
  - vm_compute. reflexivity.
  - by left.
Defined.

End MoreScenarios.
